(** * Coordination layer of the task-management backend

    A shallow embedding of the services under [src/common/services]:
    the Redis connection manager with its circuit breaker, the
    consistent-hashing partitioner, the rate limiter, the dual-backend
    cache, the distributed lock and the per-job-type concurrency
    controller, followed by the properties proved about them.

    Conventions.  JavaScript numbers that hold counters and millisecond
    timestamps are integers, modelled in [Z]; a field that the code can
    leave [undefined] or fill with [NaN] is a [Js.number].  A method that
    can throw returns a [result]; a method that mutates [this] takes the
    service state and returns the new one.  [Date.now()] readings, the
    server's clock when it runs a command, the outcome of an awaited
    backend call and freshly drawn random tokens are arguments of the
    function that consumes them. *)

From Stdlib Require Import ZArith List Ascii String Permutation Sorted Lia.
From stdpp Require Import base option list gmap strings pretty.

Local Open Scope string_scope.
Local Open Scope list_scope.
Local Open Scope Z_scope.

(** ** Exceptions *)

Module Js.

(** What a [throw] carries: [new Error(message)], or the [TypeError] the
    runtime raises on a property read of [undefined]. *)
Inductive exn : Type :=
| Error (message : string)
| TypeError (message : string).

Inductive result (A : Type) : Type :=
| Ok (value : A)
| Throw (e : exn).

Arguments Ok {A} value.
Arguments Throw {A} e.

Definition message_of (e : exn) : string :=
  match e with Error m => m | TypeError m => m end.

Definition bind {A B : Type} (r : result A) (k : A -> result B) : result B :=
  match r with Ok a => k a | Throw e => Throw e end.

(** [Math.ceil(x / d)] and [Math.floor(x / d)] on integers. *)
Definition ceil_div (x d : Z) : Z := - ((- x) / d).
Definition floor_div (x d : Z) : Z := x / d.

(** What a field typed [number] can hold at run time: an integer, [NaN],
    or [undefined] when nothing was put there. *)
Inductive number : Type :=
| Num (n : Z)
| NaN
| Undefined.

(** Arithmetic reads [undefined] as [NaN], and [NaN] spreads. *)
Definition num_arith (f : Z -> Z -> Z) (a b : number) : number :=
  match a, b with
  | Num x, Num y => Num (f x y)
  | _, _ => NaN
  end.

Definition num_add : number -> number -> number := num_arith Z.add.
Definition num_sub : number -> number -> number := num_arith Z.sub.
Definition num_mul : number -> number -> number := num_arith Z.mul.

(** [Math.max(a, b)] *)
Definition num_max : number -> number -> number := num_arith Z.max.

(** [Math.ceil(a / d)] *)
Definition num_ceil_div (a : number) (d : Z) : number :=
  match a with
  | Num x => Num (ceil_div x d)
  | _ => NaN
  end.

(** [a <= b] and [a > b]: false as soon as one side is no number. *)
Definition num_le (a b : number) : bool :=
  match a, b with
  | Num x, Num y => x <=? y
  | _, _ => false
  end.

Definition num_gt (a b : number) : bool :=
  match a, b with
  | Num x, Num y => y <? x
  | _, _ => false
  end.

End Js.

Import Js.

Coercion Js.Num : Z >-> Js.number.

Notation "'let*' x ':=' r 'in' k" := (Js.bind r (fun x => k))
  (at level 10, x name, r at level 100, k at level 200).

(** ** redis-connection.service.ts *)

Module RedisConnectionService.

Record ConnectionHealth : Type := mkHealth {
  h_isConnected : bool;
  h_latency : Z;
  h_lastError : option string
}.

(** The two [setTimeout] callbacks of the service. *)
Inductive timer : Type :=
| BreakerReset       (* scheduled by handleConnectionError *)
| ReconnectAttempt.  (* scheduled by attemptReconnect *)

(** How an awaited [ping] (or the whole connection set-up) settles. *)
Inductive outcome : Type :=
| Resolved (latency : Z)
| Rejected (message : string).

Record t : Type := mk {
  isConnected : bool;
  connectionHealth : ConnectionHealth;
  reconnectAttempts : Z;
  circuitBreakerOpen : bool;
  circuitBreakerFailures : Z;
  clock : Z;                      (* current time, ms *)
  timers : list (Z * timer)       (* pending timeouts with their due time *)
}.

Definition maxReconnectAttempts : Z := 10.
Definition reconnectDelay : Z := 1000.
Definition circuitBreakerThreshold : Z := 5.
Definition circuitBreakerTimeout : Z := 30000.

Definition initial : t :=
  mk false (mkHealth false 0 None) 0 false 0 0 [].

Definition setConnected (b : bool) (s : t) : t :=
  mk b
     (mkHealth b (h_latency (connectionHealth s)) (h_lastError (connectionHealth s)))
     (reconnectAttempts s) (circuitBreakerOpen s) (circuitBreakerFailures s)
     (clock s) (timers s).

Definition setLatency (l : Z) (s : t) : t :=
  mk (isConnected s)
     (mkHealth (h_isConnected (connectionHealth s)) l (h_lastError (connectionHealth s)))
     (reconnectAttempts s) (circuitBreakerOpen s) (circuitBreakerFailures s)
     (clock s) (timers s).

Definition setLastError (m : string) (s : t) : t :=
  mk (isConnected s)
     (mkHealth (h_isConnected (connectionHealth s)) (h_latency (connectionHealth s)) (Some m))
     (reconnectAttempts s) (circuitBreakerOpen s) (circuitBreakerFailures s)
     (clock s) (timers s).

Definition setReconnectAttempts (n : Z) (s : t) : t :=
  mk (isConnected s) (connectionHealth s) n (circuitBreakerOpen s)
     (circuitBreakerFailures s) (clock s) (timers s).

Definition setBreaker (open : bool) (failures : Z) (s : t) : t :=
  mk (isConnected s) (connectionHealth s) (reconnectAttempts s) open failures
     (clock s) (timers s).

Definition setTimers (ts : list (Z * timer)) (s : t) : t :=
  mk (isConnected s) (connectionHealth s) (reconnectAttempts s)
     (circuitBreakerOpen s) (circuitBreakerFailures s) (clock s) ts.

Definition setClock (c : Z) (s : t) : t :=
  mk (isConnected s) (connectionHealth s) (reconnectAttempts s)
     (circuitBreakerOpen s) (circuitBreakerFailures s) c (timers s).

(** [setTimeout(callback, delay)] *)
Definition setTimeout (cb : timer) (delay : Z) (s : t) : t :=
  setTimers (timers s ++ [(clock s + delay, cb)]) s.

Definition handleConnectionError (message : string) (s : t) : t :=
  let s := setConnected false s in
  let s := setLastError message s in
  let s := setBreaker (circuitBreakerOpen s) (circuitBreakerFailures s + 1) s in
  if circuitBreakerThreshold <=? circuitBreakerFailures s
  then setTimeout BreakerReset circuitBreakerTimeout
         (setBreaker true (circuitBreakerFailures s) s)
  else s.

(** A run of connection errors, one per message. *)
Definition errors (messages : list string) (s : t) : t :=
  fold_left (fun s m => handleConnectionError m s) messages s.

Definition testConnection (ping : outcome) (s : t) : result t :=
  match ping with
  | Resolved latency => Ok (setConnected true (setLatency latency s))
  | Rejected message => Throw (Error message)
  end.

(** [probe] is how the set-up inside the [try] settles: the client is
    built and the ping answers, or some step throws.  The set-up is taken
    as one step. *)
Definition initializeConnection (probe : outcome) (s : t) : t :=
  match testConnection probe s with
  | Ok s' => s'
  | Throw e => handleConnectionError (message_of e) s
  end.

Definition attemptReconnect (s : t) : t :=
  if maxReconnectAttempts <=? reconnectAttempts s then s
  else if circuitBreakerOpen s then s
  else setTimeout ReconnectAttempt
         (reconnectDelay * 2 ^ reconnectAttempts s) s.

(** The handlers installed by [setupEventHandlers]. *)
Definition onConnect (s : t) : t :=
  setBreaker false 0 (setReconnectAttempts 0 (setConnected true s)).

Definition onReady (s : t) : t := setConnected true s.

Definition onError (message : string) (s : t) : t :=
  handleConnectionError message s.

Definition onClose (s : t) : t := attemptReconnect (setConnected false s).

Definition onReconnecting (s : t) : t :=
  setReconnectAttempts (reconnectAttempts s + 1) s.

(** The part of [performHealthCheck] after the [await]: [ping] is how the
    awaited ping settles. *)
Definition healthCheckSettles (ping : outcome) (s : t) : t :=
  match ping with
  | Resolved latency =>
      setBreaker (circuitBreakerOpen s) 0
        (setConnected true (setLatency latency s))
  | Rejected message => handleConnectionError message s
  end.

(** A health check whose ping settles before any other event is handled. *)
Definition performHealthCheck (ping : outcome) (s : t) : t :=
  if circuitBreakerOpen s then s
  else healthCheckSettles ping s.

(** The handle returned by [getConnection] is the client object itself. *)
Inductive handle : Type := RedisClient.

Definition getConnection (s : t) : result handle :=
  if circuitBreakerOpen s
  then Throw (Error "Redis circuit breaker is open")
  else Ok RedisClient.

Definition isHealthy (s : t) : bool :=
  isConnected s && negb (circuitBreakerOpen s).

Definition getHealthStatus (s : t) : ConnectionHealth := connectionHealth s.

Definition isCircuitBreakerOpen (s : t) : bool := circuitBreakerOpen s.

Definition resetCircuitBreaker (s : t) : t := setBreaker false 0 s.

(** The callback of a pending timer. *)
Definition runTimer (cb : timer) (probe : outcome) (s : t) : t :=
  match cb with
  | BreakerReset => setBreaker false 0 s
  | ReconnectAttempt => initializeConnection probe s
  end.

Definition timer_eqb (a b : timer) : bool :=
  match a, b with
  | BreakerReset, BreakerReset => true
  | ReconnectAttempt, ReconnectAttempt => true
  | _, _ => false
  end.

(** The event loop runs pending timer [k] once it is due; a timer that is
    not due yet (or is of another kind than [kind]) does not run. *)
Definition fireTimer (kind : timer) (k : nat) (probe : outcome) (s : t) : t :=
  match timers s !! k with
  | Some (due, cb) =>
      if (due <=? clock s) && timer_eqb cb kind
      then runTimer cb probe (setTimers (delete k (timers s)) s)
      else s
  | None => s
  end.

(** What can happen to the service between two calls of its API. *)
Inductive event : Type :=
| Connect
| Ready
| ErrorEvent (message : string)
| Close
| Reconnecting
| HealthCheck (ping : outcome)
| LatePing (ping : outcome)   (* a health-check ping that settles after
                                 other events have been handled *)
| CooldownElapsed (k : nat)
| ReconnectDue (k : nat) (probe : outcome)
| ManualReset
| Elapse (dt : Z).

Definition step (s : t) (e : event) : t :=
  match e with
  | Connect => onConnect s
  | Ready => onReady s
  | ErrorEvent m => onError m s
  | Close => onClose s
  | Reconnecting => onReconnecting s
  | HealthCheck ping => performHealthCheck ping s
  | LatePing ping => healthCheckSettles ping s
  | CooldownElapsed k => fireTimer BreakerReset k (Rejected "") s
  | ReconnectDue k probe => fireTimer ReconnectAttempt k probe s
  | ManualReset => resetCircuitBreaker s
  | Elapse dt => setClock (clock s + Z.max 0 dt) s
  end.

Definition run (s : t) (es : list event) : t := fold_left step es s.

(** All events but those that mark the connection as up without looking
    at the breaker: [Ready], a reconnection probe, and a health-check ping
    that settles late. *)
Definition keepsBreakerView (e : event) : bool :=
  match e with
  | Ready => false
  | ReconnectDue _ _ => false
  | LatePing _ => false
  | _ => true
  end.

(** An open breaker is never seen together with a connection reported
    as up. *)
Definition openImpliesDown (s : t) : Prop :=
  circuitBreakerOpen s = true ->
  isConnected s = false /\ h_isConnected (getHealthStatus s) = false.

End RedisConnectionService.

(** ** redis-partitioning.service.ts *)

Module ConsistentHashingStrategy.

(** One point of the ring, [{ hash, node }]. *)
Record ringNode : Type := mkRingNode {
  rn_hash : Z;
  rn_node : string
}.

Record t : Type := mk {
  nodes : list string;
  ring : list ringNode
}.

(** Number of virtual nodes per physical node. *)
Definition virtualNodes : nat := 160.

Definition ascending (a b : ringNode) : Prop := rn_hash a <= rn_hash b.

Definition undefinedNode : exn :=
  TypeError "Cannot read properties of undefined (reading 'node')".

Section Hash.

(** The number [parseInt] reads off the first eight hex digits of the
    MD5 digest of the key.  The digest comes from Node's [crypto]
    module, which is not part of the repository. *)
Variable md5_prefix : string -> Z.

Definition hash (key : string) : Z := md5_prefix key.

(** The inner loop of [buildRing]: the points pushed for one node. *)
Definition virtualPoints (node : string) : list ringNode :=
  map (fun i : nat => mkRingNode (hash (node +:+ ":" +:+ pretty i)) node)
      (seq 0 virtualNodes).

(** [ring.sort((a, b) => a.hash - b.hash)]: the sort is stable, so its
    result is the one of a stable insertion sort. *)
Fixpoint insertByHash (a : ringNode) (sorted : list ringNode)
  : list ringNode :=
  match sorted with
  | [] => [a]
  | b :: rest =>
      if rn_hash a - rn_hash b <=? 0 then a :: b :: rest
      else b :: insertByHash a rest
  end.

Definition sortByHash (l : list ringNode) : list ringNode :=
  fold_right insertByHash [] l.

Definition buildRing (nodes : list string) : list ringNode :=
  sortByHash (flat_map virtualPoints nodes).

(** [new ConsistentHashingStrategy(nodes)] *)
Definition new (nodes : list string) : t := mk nodes (buildRing nodes).

(** [for (const ringNode of this.ring) if (ringNode.hash >= hash) return
    ringNode.node] *)
Fixpoint firstAtOrAfter (h : Z) (ring : list ringNode) : option string :=
  match ring with
  | [] => None
  | ringNode :: rest =>
      if h <=? rn_hash ringNode then Some (rn_node ringNode)
      else firstAtOrAfter h rest
  end.

(** [this.ring[0].node] *)
Definition firstNode (ring : list ringNode) : result string :=
  match ring with
  | ringNode :: _ => Ok (rn_node ringNode)
  | [] => Throw undefinedNode
  end.

Definition getNodeForKey (s : t) (key : string) : result string :=
  let h := hash key in
  match firstAtOrAfter h (ring s) with
  | Some node => Ok node
  | None => firstNode (ring s)
  end.

Definition getNodeForPartition (s : t) (partition : Z) (nodes : list string)
  : result string :=
  let h := hash ("partition:" +:+ pretty partition) in
  match firstAtOrAfter h (ring s) with
  | Some node => Ok node
  | None => firstNode (ring s)
  end.

Definition getPartition (key : string) (totalPartitions : Z) : Z :=
  Z.rem (hash key) totalPartitions.

End Hash.

End ConsistentHashingStrategy.

(** *** RangeBasedStrategy *)

Module RangeBasedStrategy.

Record range : Type := mkRange {
  r_start : Z;
  r_end : Z;
  r_node : string
}.

(** The loop of both lookups: the first range that holds [partition]. *)
Definition firstRangeOf (partition : Z) (ranges : list range) : option range :=
  List.find (fun range => (r_start range <=? partition)
                          && (partition <=? r_end range)) ranges.

Section Hash.

Variable md5_prefix : string -> Z.

Definition hash (key : string) : Z := md5_prefix key.

Definition getPartition (key : string) (totalPartitions : Z) : Z :=
  Z.rem (hash key) totalPartitions.

(** [None] is the [undefined] that [nodes[0]] gives on an empty list. *)
Definition getNodeForPartition (ranges : list range) (partition : Z)
    (nodes : list string) : option string :=
  match firstRangeOf partition ranges with
  | Some range => Some (r_node range)
  | None => nodes !! 0%nat   (* Fallback to first node *)
  end.

Definition getNodeForKey (ranges : list range) (key : string) : string :=
  let partition := getPartition key 1000 in
  match firstRangeOf partition ranges with
  | Some range => r_node range
  | None =>
      match ranges with
      | first :: _ =>
          if String.eqb (r_node first) "" then "default-node" else r_node first
      | [] => "default-node"
      end
  end.

End Hash.

End RangeBasedStrategy.

Module RedisPartitioningService.

Module CHS := ConsistentHashingStrategy.

Record t : Type := mk {
  partitioningStrategy : CHS.t;
  totalPartitions : Z;
  nodes : list string
}.

(** A [Map<string, string[]>], in insertion order. *)
Definition distribution : Type := list (string * list string).

(** [if (!distribution.has(node)) distribution.set(node, []);
     distribution.get(node).push(key)] *)
Fixpoint pushKey (node key : string) (d : distribution) : distribution :=
  match d with
  | [] => [(node, [key])]
  | (n, keys) :: rest =>
      if String.eqb n node then (n, keys ++ [key]) :: rest
      else (n, keys) :: pushKey node key rest
  end.

Section Hash.

Variable md5_prefix : string -> Z.

Definition defaultNodes : list string :=
  ["redis-node-1:6379"; "redis-node-2:6379"; "redis-node-3:6379"].

Definition new : t :=
  mk (CHS.new md5_prefix defaultNodes) 1000 defaultNodes.

Definition getConnectionForKey
    (conn : RedisConnectionService.t) (s : t) (key : string)
  : result RedisConnectionService.handle :=
  if negb (RedisConnectionService.isHealthy conn)
  then Throw (Error "Redis connection is not healthy")
  else
    let* node := CHS.getNodeForKey md5_prefix (partitioningStrategy s) key in
    RedisConnectionService.getConnection conn.

Definition getPartitionForKey (s : t) (key : string) : Z :=
  CHS.getPartition md5_prefix key (totalPartitions s).

Definition getNodeForPartition (s : t) (partition : Z) : result string :=
  CHS.getNodeForPartition md5_prefix (partitioningStrategy s) partition
    (nodes s).

Fixpoint distributeInto (s : t) (keys : list string) (d : distribution)
  : result distribution :=
  match keys with
  | [] => Ok d
  | key :: rest =>
      let* node := CHS.getNodeForKey md5_prefix (partitioningStrategy s) key in
      distributeInto s rest (pushKey node key d)
  end.

Definition distributeKeys (s : t) (keys : list string)
  : result distribution :=
  distributeInto s keys [].

Definition isKeyOnNode (s : t) (key node : string) : result bool :=
  let* assignedNode :=
    CHS.getNodeForKey md5_prefix (partitioningStrategy s) key in
  Ok (String.eqb assignedNode node).

(** The strategy and the node list are replaced before the keys are
    redistributed, so they stay replaced when that step throws. *)
Definition rebalanceKeys (keys newNodes : list string) (s : t)
  : result distribution * t :=
  let s' := mk (CHS.new md5_prefix newNodes) (totalPartitions s) newNodes in
  (distributeKeys s' keys, s').

End Hash.

Section Migration.

Variable md5_prefix : string -> Z.

(** [for (const key of allKeys) if (getNodeForKey(key) === removedNode)
    keysToMigrate.push(key)] *)
Fixpoint getKeysToMigrate (s : t) (removedNode : string)
    (allKeys : list string) : result (list string) :=
  match allKeys with
  | [] => Ok []
  | key :: rest =>
      let* currentNode :=
        CHS.getNodeForKey md5_prefix (partitioningStrategy s) key in
      let* others := getKeysToMigrate s removedNode rest in
      Ok (if String.eqb currentNode removedNode then key :: others else others)
  end.

End Migration.

(** [distribution.get(node)], with the empty list for a missing node. *)
Fixpoint keysOn (node : string) (d : distribution) : list string :=
  match d with
  | [] => []
  | (n, keys) :: rest => if String.eqb n node then keys else keysOn node rest
  end.

Section Assignment.

Variable md5_prefix : string -> Z.

(** [key] is assigned to [node] by the current strategy. *)
Definition assignedTo (s : t) (node key : string) : bool :=
  match CHS.getNodeForKey md5_prefix (partitioningStrategy s) key with
  | Ok n => String.eqb n node
  | Throw _ => false
  end.

End Assignment.

End RedisPartitioningService.

(** ** The Redis server, as the services use it

    The server is not part of the repository.  This is the behaviour of
    the commands the services send (GET, SETEX, SET .. PX .. NX, DEL, MGET,
    KEYS, the INCR/EXPIRE/TTL pipeline and EVAL of the compare-and-delete
    script) on string and counter values with millisecond expiry.  The
    services send a time to live, never a time: the [now] of a command is
    the server's own clock when it runs the command.  [fault] is how the
    server misbehaves, if it does: every command is rejected with a
    message (the promise of a single command rejects; in a pipeline the
    error fills the command's slot and [exec()] still resolves), or a
    pipeline comes back without replies. *)

Module Redis.

Inductive rvalue : Type :=
| RString (s : string)
| RInteger (n : Z).

Record entry : Type := mkEntry {
  value : rvalue;
  expiresAt : option Z          (* absolute time, ms *)
}.

Inductive faultKind : Type :=
| Rejects (message : string)
| RepliesNothing.

Record t : Type := mk {
  data : gmap string entry;
  fault : option faultKind
}.

Definition empty : t := mk ∅ None.

Definition setData (d : gmap string entry) (r : t) : t := mk d (fault r).

(** A key has expired once the server's clock is past its expiry time. *)
Definition expired (now : Z) (e : entry) : bool :=
  match expiresAt e with
  | Some at_ => at_ <? now
  | None => false
  end.

(** The entry stored under [key], unless it has expired. *)
Definition live (now : Z) (r : t) (key : string) : option entry :=
  match data r !! key with
  | Some e => if expired now e then None else Some e
  | None => None
  end.

Definition render (v : rvalue) : string :=
  match v with RString s => s | RInteger n => pretty n end.

(** Every command starts by reaching the server. *)
Definition reach {A : Type} (r : t) (k : result A * t) : result A * t :=
  match fault r with
  | Some (Rejects message) => (Throw (Error message), r)
  | _ => k
  end.

(** The server answers (it is not rejecting every command). *)
Definition reachable (r : t) : bool :=
  match fault r with
  | Some (Rejects _) => false
  | _ => true
  end.

(** The string a GET of [key] would return. *)
Definition stored (now : Z) (r : t) (key : string) : option string :=
  render <$> (value <$> live now r key).

Definition GET (now : Z) (key : string) (r : t) : result (option string) * t :=
  reach r (Ok (render <$> (value <$> live now r key)), r).

(** [SETEX key seconds v]; a time to live of zero or less is refused. *)
Definition SETEX (now : Z) (key : string) (seconds : Z) (v : string) (r : t)
  : result unit * t :=
  reach r
    (if 0 <? seconds then
       (Ok tt,
        setData (<[key := mkEntry (RString v) (Some (now + seconds * 1000))]>
                   (data r)) r)
     else (Throw (Error "ERR invalid expire time in 'setex' command"), r)).

(** [SET key v PX ms NX]: [true] stands for the reply ['OK'], [false] for
    the null reply.  The time to live is checked before the key is looked
    at. *)
Definition SET_PX_NX (now : Z) (key v : string) (ms : Z) (r : t)
  : result bool * t :=
  reach r
    (if 0 <? ms then
       match live now r key with
       | Some _ => (Ok false, r)
       | None =>
           (Ok true,
            setData (<[key := mkEntry (RString v) (Some (now + ms))]> (data r))
              r)
       end
     else (Throw (Error "ERR invalid expire time in 'set' command"), r)).

(** [DEL key]: the number of keys removed. *)
Definition DEL (now : Z) (key : string) (r : t) : result Z * t :=
  reach r
    match live now r key with
    | Some _ => (Ok 1, setData (delete key (data r)) r)
    | None => (Ok 0, r)
    end.

Definition MGET (now : Z) (keys : list string) (r : t)
  : result (list (option string)) * t :=
  reach r
    (Ok (map (fun key => render <$> (value <$> live now r key)) keys), r).

(** The integer a stored value reads as, if it does: an optional minus
    sign and decimal digits without leading zero, within 64 bits. *)
Definition digit (c : ascii) : option Z :=
  let n := nat_of_ascii c in
  if (48 <=? n)%nat && (n <=? 57)%nat then Some (Z.of_nat n - 48) else None.

Fixpoint digits (acc : Z) (s : string) : option Z :=
  match s with
  | EmptyString => Some acc
  | String c rest =>
      match digit c with
      | Some d => digits (acc * 10 + d) rest
      | None => None
      end
  end.

Definition int64_min : Z := - 9223372036854775808.
Definition int64_max : Z := 9223372036854775807.

Definition readInteger (s : string) : option Z :=
  let magnitude (s : string) : option Z :=
    match s with
    | String c _ =>
        if Ascii.eqb c "0" then None else digits 0 s
    | EmptyString => None
    end in
  let n :=
    match s with
    | String c rest =>
        if String.eqb s "0" then Some 0
        else if Ascii.eqb c "-" then Z.opp <$> magnitude rest
        else magnitude s
    | EmptyString => None
    end in
  match n with
  | Some n => if (int64_min <=? n) && (n <=? int64_max) then Some n else None
  | None => None
  end.

Definition integerOf (v : rvalue) : option Z :=
  match v with
  | RInteger n => Some n
  | RString s => readInteger s
  end.

(** One entry of the array [pipeline.exec()] resolves to: [[null, reply]]
    for a command that was answered, [[error]] for one that failed. *)
Inductive slot : Type :=
| Answered (reply : Z)
| Failed (error : exn).

(** [results[i][1]] *)
Definition replyOf (s : slot) : number :=
  match s with
  | Answered reply => Num reply
  | Failed _ => Undefined
  end.

(** [INCR key]: a missing key counts from 0; the time to live stays. *)
Definition INCR (now : Z) (key : string) (r : t) : slot * t :=
  match live now r key with
  | None => (Answered 1, setData (<[key := mkEntry (RInteger 1) None]> (data r)) r)
  | Some e =>
      match integerOf (value e) with
      | None => (Failed (Error "ERR value is not an integer or out of range"), r)
      | Some n =>
          if n <? int64_max then
            (Answered (n + 1),
             setData (<[key := mkEntry (RInteger (n + 1)) (expiresAt e)]>
                        (data r)) r)
          else (Failed (Error "ERR increment or decrement would overflow"), r)
      end
  end.

(** [EXPIRE key seconds]: a time to live of zero or less deletes the key. *)
Definition EXPIRE (now : Z) (key : string) (seconds : Z) (r : t) : slot * t :=
  match live now r key with
  | None => (Answered 0, r)
  | Some e =>
      (Answered 1,
       if 0 <? seconds
       then setData (<[key := mkEntry (value e) (Some (now + seconds * 1000))]>
                       (data r)) r
       else setData (delete key (data r)) r)
  end.

(** [TTL key], in seconds, rounded. *)
Definition TTL (now : Z) (key : string) (r : t) : slot * t :=
  match live now r key with
  | None => (Answered (-2), r)
  | Some e =>
      match expiresAt e with
      | None => (Answered (-1), r)
      | Some at_ => (Answered ((at_ - now + 500) / 1000), r)
      end
  end.

(** What [exec()] resolves to for the pipeline
    [INCR key; EXPIRE key seconds; TTL key]; [None] is an [exec()] that
    resolves to nothing. *)
Definition INCR_EXPIRE_TTL (now : Z) (key : string) (seconds : Z) (r : t)
  : option (list slot) * t :=
  match fault r with
  | Some RepliesNothing => (None, r)
  | Some (Rejects message) =>
      (Some [Failed (Error message); Failed (Error message);
             Failed (Error message)], r)
  | None =>
      let '(first, r1) := INCR now key r in
      let '(second, r2) := EXPIRE now key seconds r1 in
      let '(third, r3) := TTL now key r2 in
      (Some [first; second; third], r3)
  end.

(** [EVAL] of the script
    [if redis.call('get', KEYS[1]) == ARGV[1]
     then return redis.call('del', KEYS[1]) else return 0 end]. *)
Definition EVAL_compare_and_delete (now : Z) (key arg : string) (r : t)
  : result Z * t :=
  reach r
    match value <$> live now r key with
    | Some v =>
        if String.eqb (render v) arg
        then (Ok 1, setData (delete key (data r)) r)
        else (Ok 0, r)
    | None => (Ok 0, r)
    end.

(** Characters with a meaning of their own in a KEYS pattern. *)
Definition wildcard (c : ascii) : bool :=
  Ascii.eqb c "*" || Ascii.eqb c "?" || Ascii.eqb c "[" || Ascii.eqb c "\".

Fixpoint literalPattern (pattern : string) : bool :=
  match pattern with
  | EmptyString => true
  | String c rest => negb (wildcard c) && literalPattern rest
  end.

(** [KEYS pattern]: the live keys that the pattern matches (the server
    promises no order).  A pattern without wildcard characters matches
    itself only; [glob] is the server's matcher for the other patterns. *)
Definition keyMatches (glob : string -> string -> bool) (pattern key : string)
  : bool :=
  if literalPattern pattern then String.eqb pattern key else glob pattern key.

Definition KEYS (glob : string -> string -> bool) (now : Z) (pattern : string)
    (r : t) : result (list string) * t :=
  reach r
    (Ok (omap (fun '(key, e) =>
                 if negb (expired now e) && keyMatches glob pattern key
                 then Some key else None)
              (map_to_list (data r))),
     r).

(** [DEL key1 key2 ...]: the number of keys removed. *)
Definition DEL_many (now : Z) (keys : list string) (r : t) : result Z * t :=
  reach r
    (Ok (Z.of_nat
           (length (List.filter (fun key => bool_decide (is_Some (live now r key)))
                      (remove_dups keys)))),
     setData (fold_left (fun d key => delete key d) keys (data r)) r).

End Redis.

(** ** rate-limit.service.ts *)

Module RateLimitService.

Record RateLimitOptions : Type := mkOptions {
  limit : Z;
  windowMs : Z
}.

Record RateLimitResult : Type := mkResult {
  allowed : bool;
  r_limit : Z;
  current : number;
  remaining : number;
  resetTime : number;
  retryAfter : number
}.

(** [retryAfter] is set exactly on a refusal. *)
Definition retryAfterIffRefused (r : RateLimitResult) : Prop :=
  retryAfter r <> Undefined <-> allowed r = false.

(** An entry of [inMemoryStore]. *)
Record window : Type := mkWindow {
  count : Z;
  w_resetTime : Z;
  w_limit : Z
}.

(** The clocks one check can read: [Date.now()] three times on the
    Redis path and once on the in-memory path, and the server's own clock
    when it runs the pipeline. *)
Record readings : Type := mkReadings {
  atWindow : Z;
  atReset : Z;
  atRetry : Z;
  atMemory : Z;
  atServer : Z
}.

Definition keyPrefix : string := "rate_limit:".

(** An empty identifier is falsy, like a missing one. *)
Definition generateKey (key : string) (identifier : option string) : string :=
  let baseKey :=
    match identifier with
    | Some id => if String.eqb id "" then key else key +:+ ":" +:+ id
    | None => key
    end in
  keyPrefix +:+ baseKey.

Definition checkRedisRateLimit
    (now : readings) (key : string) (options : RateLimitOptions) (redis : Redis.t)
  : result RateLimitResult * Redis.t :=
  let window := floor_div (atWindow now) (windowMs options) in
  let windowKey := key +:+ ":" +:+ pretty window in
  let ttl := ceil_div (windowMs options) 1000 in
  match Redis.INCR_EXPIRE_TTL (atServer now) windowKey ttl redis with
  | (None, redis') =>
      (Throw (Error "Redis pipeline execution failed"), redis')
  | (Some [], redis') =>
      (Throw (Error "Redis pipeline execution failed"), redis')
  | (Some results, redis') =>
      match results !! 0%nat, results !! 2%nat with
      | Some first, Some third =>
          let currentCount := Redis.replyOf first in
          let ttlResult := Redis.replyOf third in
          let remaining := num_max 0 (num_sub (limit options) currentCount) in
          let resetTime := num_add (atReset now) (num_mul ttlResult 1000) in
          (Ok (mkResult (num_le currentCount (limit options))
                        (limit options)
                        currentCount
                        remaining
                        resetTime
                        (if num_gt currentCount (limit options)
                         then num_ceil_div (num_sub resetTime (atRetry now)) 1000
                         else Undefined)),
           redis')
      | _, _ =>
          (Throw (TypeError "Cannot read properties of undefined (reading '1')"),
           redis')
      end
  end.

Definition checkMemoryRateLimit
    (now : Z) (key : string) (options : RateLimitOptions)
    (inMemoryStore : gmap string window)
  : RateLimitResult * gmap string window :=
  (* New window or expired window *)
  let startWindow :=
    let newWindow := mkWindow 1 (now + windowMs options) (limit options) in
    (mkResult true (limit options) 1 (limit options - 1)
              (w_resetTime newWindow) Undefined,
     <[key := newWindow]> inMemoryStore) in
  match inMemoryStore !! key with
  | None => startWindow
  | Some current =>
      if w_resetTime current <? now then startWindow
      else
        let current :=
          mkWindow (count current + 1) (w_resetTime current) (w_limit current) in
        let allowed := count current <=? limit options in
        let remaining := Z.max 0 (limit options - count current) in
        (mkResult allowed (limit options) (count current) remaining
                  (w_resetTime current)
                  (if negb allowed
                   then Num (ceil_div (w_resetTime current - now) 1000)
                   else Undefined),
         <[key := current]> inMemoryStore)
  end.

(** The service: its private map and the server it talks to. *)
Record t : Type := mk {
  inMemoryStore : gmap string window;
  redis : Redis.t
}.

Section Hash.

Variable md5_prefix : string -> Z.

Definition checkDistributedRedisRateLimit
    (conn : RedisConnectionService.t) (part : RedisPartitioningService.t)
    (now : readings) (key : string) (options : RateLimitOptions)
    (redis : Redis.t)
  : result RateLimitResult * Redis.t :=
  match RedisPartitioningService.getConnectionForKey md5_prefix conn part key with
  | Throw e => (Throw e, redis)
  | Ok _ => checkRedisRateLimit now key options redis
  end.

Definition checkRateLimit
    (conn : RedisConnectionService.t) (part : RedisPartitioningService.t)
    (now : readings) (key : string) (options : RateLimitOptions)
    (identifier : option string) (s : t)
  : result RateLimitResult * t :=
  let fullKey := generateKey key identifier in
  let memory (redis' : Redis.t) :=
    let '(r, store') :=
      checkMemoryRateLimit (atMemory now) fullKey options (inMemoryStore s) in
    (Ok r, mk store' redis') in
  if RedisConnectionService.isHealthy conn
     && negb (RedisConnectionService.isCircuitBreakerOpen conn)
  then
    match checkDistributedRedisRateLimit conn part now fullKey options (redis s) with
    | (Ok r, redis') => (Ok r, mk (inMemoryStore s) redis')
    | (Throw error, redis') =>
        (* Fallback to memory-based rate limiting *)
        memory redis'
    end
  else memory (redis s).

(** Successive checks of one (key, identifier) pair. *)
Fixpoint checks (conn : RedisConnectionService.t)
    (part : RedisPartitioningService.t) (key : string)
    (options : RateLimitOptions) (identifier : option string)
    (nows : list readings) (s : t)
  : list (result RateLimitResult) * t :=
  match nows with
  | [] => ([], s)
  | now :: rest =>
      let '(r, s1) := checkRateLimit conn part now key options identifier s in
      let '(rs, s2) := checks conn part key options identifier rest s1 in
      (r :: rs, s2)
  end.

End Hash.

(** A [Partial<RateLimitResult>] as [getRateLimitInfo] fills it. *)
Record RateLimitInfo : Type := mkInfo {
  i_current : option Z;
  i_remaining : option Z;
  i_resetTime : option Z
}.

Definition getMemoryRateLimitInfo (now : Z) (key : string)
    (inMemoryStore : gmap string window) : RateLimitInfo :=
  match inMemoryStore !! key with
  | None => mkInfo (Some 0) (Some 0) None
  | Some current =>
      if w_resetTime current <? now then mkInfo (Some 0) (Some 0) None
      else mkInfo (Some (count current))
                  (Some (Z.max 0 (w_limit current - count current)))
                  (Some (w_resetTime current))
  end.

Definition resetMemoryRateLimit (key : string)
    (inMemoryStore : gmap string window) : gmap string window :=
  delete key inMemoryStore.

(** Cleanup method for in-memory store: the keys of the expired entries
    are collected first and deleted afterwards. *)
Definition cleanup (now : Z) (inMemoryStore : gmap string window)
  : gmap string window :=
  let keysToDelete :=
    omap (fun '(key, value) =>
            if w_resetTime value <? now then Some key else None)
         (map_to_list inMemoryStore) in
  fold_left (fun store key => delete key store) keysToDelete inMemoryStore.

(** [now] is the server's clock when it runs the two commands. *)
Definition resetRedisRateLimit (glob : string -> string -> bool) (now : Z)
    (key : string) (redis : Redis.t) : result unit * Redis.t :=
  let pattern := key +:+ ":*" in
  match Redis.KEYS glob now pattern redis with
  | (Throw e, redis') => (Throw e, redis')
  | (Ok keys, redis') =>
      if (0 <? length keys)%nat then
        match Redis.DEL_many now keys redis' with
        | (Ok _, redis'') => (Ok tt, redis'')
        | (Throw e, redis'') => (Throw e, redis'')
        end
      else (Ok tt, redis')
  end.

Section Reset.

Variable md5_prefix : string -> Z.
Variable glob : string -> string -> bool.

Definition resetDistributedRedisRateLimit
    (conn : RedisConnectionService.t) (part : RedisPartitioningService.t)
    (now : Z) (key : string) (redis : Redis.t) : result unit * Redis.t :=
  match RedisPartitioningService.getConnectionForKey md5_prefix conn part key with
  | Throw e => (Throw e, redis)
  | Ok _ => resetRedisRateLimit glob now key redis
  end.

(** A failure of the Redis branch is logged; nothing else is done. *)
Definition resetRateLimit
    (conn : RedisConnectionService.t) (part : RedisPartitioningService.t)
    (now : Z) (key : string) (identifier : option string) (s : t)
  : result unit * t :=
  let fullKey := generateKey key identifier in
  if RedisConnectionService.isHealthy conn
     && negb (RedisConnectionService.isCircuitBreakerOpen conn)
  then
    match resetDistributedRedisRateLimit conn part now fullKey (redis s) with
    | (Ok _, redis') => (Ok tt, mk (inMemoryStore s) redis')
    | (Throw error, redis') => (Ok tt, mk (inMemoryStore s) redis')
    end
  else (Ok tt, mk (resetMemoryRateLimit fullKey (inMemoryStore s)) (redis s)).

End Reset.

End RateLimitService.

(** ** distributed-lock.service.ts *)

Module DistributedLockService.

Definition lockPrefix : string := "taskflow:lock:".

Definition defaultTtlMs : Z := 10000.

(** [token] is the string [generateToken()] draws for this call; a
    missing [ttlMs] takes the default.  [now] is the server's clock when it
    runs the command, here and in [releaseLock]. *)
Definition acquireLock (now : Z) (token : string) (resource : string)
    (ttlMs : option Z) (redis : Redis.t)
  : result (option string) * Redis.t :=
  let ttlMs := default defaultTtlMs ttlMs in
  let key := lockPrefix +:+ resource in
  match Redis.SET_PX_NX now key token ttlMs redis with
  | (Ok ok, redis') => (Ok (if ok then Some token else None), redis')
  | (Throw error, redis') => (Ok None, redis')
  end.

Definition releaseLock (now : Z) (resource token : string) (redis : Redis.t)
  : result bool * Redis.t :=
  let key := lockPrefix +:+ resource in
  match Redis.EVAL_compare_and_delete now key token redis with
  | (Ok res, redis') => (Ok (res =? 1), redis')
  | (Throw error, redis') => (Ok false, redis')
  end.

End DistributedLockService.

(** ** concurrency-control.service.ts *)

Module ConcurrencyControlService.

(** Every [acquireSlot] call returns one promise; promises are numbered
    in call order.  A queued continuation is identified by the promise it
    resolves. *)
Record limitState : Type := mkLimit {
  maxConcurrent : Z;
  currentRunning : Z;
  queue : list nat
}.

(** What the service does that its callers can see: the promise it
    resolves (with the line it logs then), and the other debug lines. *)
Inductive logLine : Type :=
| NoLimitDefined (jobType : string) (promise : nat)
| AcquiredSlot (jobType : string) (promise : nat)
| QueueingJob (jobType : string) (promise : nat)
| AcquiredQueuedSlot (jobType : string) (promise : nat)
| ReleasedSlot (jobType : string).

Record t : Type := mk {
  limits : gmap string limitState;
  nextPromise : nat;
  log : list logLine
}.

Definition initial : t :=
  mk (<["task-status-update" := mkLimit 10 0 []]>
     (<["batch-status-update" := mkLimit 5 0 []]>
     (<["bulk-task-processing" := mkLimit 3 0 []]>
     (<["overdue-tasks-notification" := mkLimit 2 0 []]>
     (<["dead-letter" := mkLimit 1 0 []]> ∅)))))
     0 [].

Definition acquireSlot (jobType : string) (s : t) : t :=
  let promise := nextPromise s in
  match limits s !! jobType with
  | None =>
      (* resolved at once with the no-op release function *)
      mk (limits s) (S promise) (log s ++ [NoLimitDefined jobType promise])
  | Some limit =>
      if currentRunning limit <? maxConcurrent limit
      then
        mk (<[jobType := mkLimit (maxConcurrent limit)
                           (currentRunning limit + 1) (queue limit)]>
              (limits s))
           (S promise) (log s ++ [AcquiredSlot jobType promise])
      else
        mk (<[jobType := mkLimit (maxConcurrent limit)
                           (currentRunning limit) (queue limit ++ [promise])]>
              (limits s))
           (S promise) (log s ++ [QueueingJob jobType promise])
  end.

(** Only a release function calls [processQueue], and release functions
    exist for configured job types only; for another job type the lookup
    has nothing to work on. *)
Definition processQueue (jobType : string) (s : t) : t :=
  match limits s !! jobType with
  | None => s
  | Some limit =>
      if (0 <? Z.of_nat (length (queue limit)))
         && (currentRunning limit <? maxConcurrent limit)
      then
        match queue limit with
        | nextJob :: rest =>
            mk (<[jobType := mkLimit (maxConcurrent limit)
                               (currentRunning limit + 1) rest]> (limits s))
               (nextPromise s)
               (log s ++ [AcquiredQueuedSlot jobType nextJob])
        | [] => s
        end
      else s
  end.

(** A call of the release function handed out by [acquireSlot(jobType)]. *)
Definition release (jobType : string) (s : t) : t :=
  match limits s !! jobType with
  | None => s   (* the no-op release function *)
  | Some limit =>
      processQueue jobType
        (mk (<[jobType := mkLimit (maxConcurrent limit)
                            (currentRunning limit - 1) (queue limit)]>
               (limits s))
            (nextPromise s) (log s ++ [ReleasedSlot jobType]))
  end.

Inductive op : Type :=
| Acquire (jobType : string)
| Release (jobType : string).

Definition step (s : t) (o : op) : t :=
  match o with
  | Acquire jobType => acquireSlot jobType s
  | Release jobType => release jobType s
  end.

Definition run (s : t) (ops : list op) : t := fold_left step ops s.

(** The promises of [jobType] that were queued, and those that were
    resolved from the queue, in log order. *)
Definition queuedOf (jobType : string) (l : list logLine) : list nat :=
  omap (fun line =>
          match line with
          | QueueingJob j p => if decide (j = jobType) then Some p else None
          | _ => None
          end) l.

Definition resolvedFromQueueOf (jobType : string) (l : list logLine)
  : list nat :=
  omap (fun line =>
          match line with
          | AcquiredQueuedSlot j p =>
              if decide (j = jobType) then Some p else None
          | _ => None
          end) l.

Definition queueOf (jobType : string) (s : t) : list nat :=
  match limits s !! jobType with
  | Some limit => queue limit
  | None => []
  end.

(** [currentRunning] is within [maxConcurrent] for every job type. *)
Definition withinLimits (s : t) : Prop :=
  forall jobType limit,
    limits s !! jobType = Some limit ->
    currentRunning limit <= maxConcurrent limit.

(** The queue holds, in order, the queued promises not yet resolved. *)
Definition fifo (s : t) : Prop :=
  forall jobType,
    queuedOf jobType (log s)
    = resolvedFromQueueOf jobType (log s) ++ queueOf jobType s.

(** [maxConcurrent] is never written by [acquireSlot] or a release. *)
Definition sameMax (s0 s : t) : Prop :=
  forall jobType limit,
    limits s !! jobType = Some limit ->
    exists limit0,
      limits s0 !! jobType = Some limit0
      /\ maxConcurrent limit = maxConcurrent limit0.


(** [updateLimits] and [reset] write to the limit objects that the
    release functions and the queued continuations hold.  Each logs one
    line of its own, which is no slot event and is not kept in [log]. *)
Definition updateLimits (jobType : string) (maxConcurrent' : Z) (s : t) : t :=
  match limits s !! jobType with
  | Some limit =>
      mk (<[jobType := mkLimit maxConcurrent' (currentRunning limit)
                         (queue limit)]> (limits s))
         (nextPromise s) (log s)
  | None => s
  end.

Definition reset (s : t) : t :=
  mk ((fun limit => mkLimit (maxConcurrent limit) 0 []) <$> limits s)
     (nextPromise s) (log s).

(** The promise a log line reports as resolved, if it reports one. *)
Definition resolved (line : logLine) : option nat :=
  match line with
  | NoLimitDefined _ p | AcquiredSlot _ p | AcquiredQueuedSlot _ p => Some p
  | QueueingJob _ _ | ReleasedSlot _ => None
  end.

(** Somebody waits only while every slot is taken. *)
Definition noBarging (s : t) : Prop :=
  forall jobType limit,
    limits s !! jobType = Some limit ->
    queue limit <> [] ->
    maxConcurrent limit <= currentRunning limit.

(** Every waiting promise was handed out at or after promise [n]. *)
Definition queuedFrom (n : nat) (s : t) : Prop :=
  forall jobType limit,
    limits s !! jobType = Some limit ->
    Forall (fun p => (n <= p)%nat) (queue limit).

(** Every waiting promise has been handed out. *)
Definition queuedBelow (s : t) : Prop :=
  forall jobType limit,
    limits s !! jobType = Some limit ->
    Forall (fun p => (p < nextPromise s)%nat) (queue limit).


(** Everything a user of the service can call: the two slot operations,
    [updateLimits] and [reset]. *)
Inductive call : Type :=
| Slot (o : op)
| UpdateLimits (jobType : string) (maxConcurrent : Z)
| Reset.

Definition serve (s : t) (c : call) : t :=
  match c with
  | Slot o => step s o
  | UpdateLimits jobType maxConcurrent => updateLimits jobType maxConcurrent s
  | Reset => reset s
  end.

Definition serveAll (s : t) (calls : list call) : t := fold_left serve calls s.

End ConcurrencyControlService.

(** ** cache.service.ts *)

Module CacheService.

(** What a caller can pass where a key is expected. *)
Inductive jsValue : Type :=
| JUndefined
| JNull
| JBoolean (b : bool)
| JNumber (n : Z)
| JString (s : string)
| JObject.

Definition keyPrefix : string := "taskflow:cache:".

Definition between (lo c hi : ascii) : bool :=
  (nat_of_ascii lo <=? nat_of_ascii c)%nat
  && (nat_of_ascii c <=? nat_of_ascii hi)%nat.

(** The class [[a-zA-Z0-9:_-]]. *)
Definition safeChar (c : ascii) : bool :=
  between "a" c "z" || between "A" c "Z" || between "0" c "9"
  || Ascii.eqb c ":" || Ascii.eqb c "_" || Ascii.eqb c "-".

(** [key.replace(/[^a-zA-Z0-9:_-]/g, '_')], one code unit at a time. *)
Fixpoint sanitize (key : string) : string :=
  match key with
  | EmptyString => EmptyString
  | String c rest =>
      String (if safeChar c then c else "_"%char) (sanitize rest)
  end.

(** [!key || typeof key !== 'string'] holds of everything but a
    non-empty string. *)
Definition getPrefixedKey (key : jsValue) : result string :=
  match key with
  | JString s =>
      if String.eqb s "" then Throw (Error "Invalid cache key")
      else Ok (keyPrefix +:+ sanitize s)
  | _ => Throw (Error "Invalid cache key")
  end.

(** An empty string, or anything that is not a string. *)
Definition malformed (key : jsValue) : Prop :=
  match key with
  | JString s => s = ""
  | _ => True
  end.

Section Json.

(** Cached values with [JSON.stringify] and [JSON.parse] (which throws
    on malformed text), and the digest used by the partitioner. *)
Variable V : Type.
Variable stringify : V -> string.
Variable parse : string -> result V.
Variable md5_prefix : string -> Z.

Record CacheItem : Type := mkItem {
  value : V;
  expiresAt : Z
}.

Record t : Type := mk {
  cache : gmap string CacheItem;
  isRedisAvailable : bool;
  redis : Redis.t
}.

Definition new (redis : Redis.t) : t := mk ∅ false redis.

Definition withCache (c : gmap string CacheItem) (s : t) : t :=
  mk c (isRedisAvailable s) (redis s).

Definition withRedis (r : Redis.t) (s : t) : t :=
  mk (cache s) (isRedisAvailable s) r.

(** The flag is assigned here and nowhere else.  [initializePubSub]
    catches its own errors and only sets up the subscriber. *)
Definition onModuleInit (conn : RedisConnectionService.t) (s : t) : t :=
  match (if RedisConnectionService.isHealthy conn
         then Ok (mk (cache s) true (redis s))
         else Throw (Error "Redis connection service is not healthy"))
  with
  | Ok s' => s'
  | Throw error => mk (cache s) false (redis s)
  end.

(** *** Memory cache methods *)

Definition setMemory (key : string) (v : V) (expiresAt : Z) (s : t) : t :=
  withCache (<[key := mkItem v expiresAt]> (cache s)) s.

Definition getMemory (now : Z) (key : string) (s : t) : option V * t :=
  match cache s !! key with
  | None => (None, s)
  | Some item =>
      if expiresAt item <? now
      then (None, withCache (delete key (cache s)) s)
      else (Some (value item), s)
  end.

Definition deleteMemory (key : string) (s : t) : bool * t :=
  (bool_decide (is_Some (cache s !! key)),
   withCache (delete key (cache s)) s).

(** *** Redis methods *)

Definition setRedis (now : Z) (key : string) (v : V) (ttlSeconds : Z)
    (redis : Redis.t) : result unit * Redis.t :=
  Redis.SETEX now key ttlSeconds (stringify v) redis.

Definition setDistributedRedis
    (conn : RedisConnectionService.t) (part : RedisPartitioningService.t)
    (now : Z) (key : string) (v : V) (ttlSeconds : Z) (redis : Redis.t)
  : result unit * Redis.t :=
  match RedisPartitioningService.getConnectionForKey md5_prefix conn part key with
  | Throw e => (Throw e, redis)
  | Ok _ => setRedis now key v ttlSeconds redis
  end.

(** A value that does not parse is logged and read as null. *)
Definition parseCached (text : option string) : option V :=
  match text with
  | None => None
  | Some text =>
      match parse text with
      | Ok v => Some v
      | Throw error => None
      end
  end.

Definition getRedis (now : Z) (key : string) (redis : Redis.t)
  : result (option V) * Redis.t :=
  match Redis.GET now key redis with
  | (Ok text, redis') => (Ok (parseCached text), redis')
  | (Throw e, redis') => (Throw e, redis')
  end.

Definition deleteRedis (now : Z) (key : string) (redis : Redis.t)
  : result bool * Redis.t :=
  match Redis.DEL now key redis with
  | (Ok n, redis') => (Ok (0 <? n), redis')
  | (Throw e, redis') => (Throw e, redis')
  end.

Definition mgetRedis (now : Z) (keys : list string) (redis : Redis.t)
  : result (list (option V)) * Redis.t :=
  match Redis.MGET now keys redis with
  | (Ok values, redis') => (Ok (map parseCached values), redis')
  | (Throw e, redis') => (Throw e, redis')
  end.

(** The keys go into the pipeline as given, without the prefix.  A
    command that fails fills its slot of the result, which is not looked
    at. *)
Definition msetRedis (now : Z) (keyValuePairs : list (string * V))
    (ttlSeconds : Z) (redis : Redis.t) : result unit * Redis.t :=
  (Ok tt,
   fold_left
     (fun r '(key, v) => (Redis.SETEX now key ttlSeconds (stringify v) r).2)
     keyValuePairs redis).

(** *** The public operations *)

(** [now]: the clock inside the [try], which is [Date.now()] for the
    local map and the server's clock for a command sent to Redis (one call
    takes one of the two branches); [later]: [Date.now()] in the [catch].
    The other operations take their [now] in the same way. *)
Definition set
    (conn : RedisConnectionService.t) (part : RedisPartitioningService.t)
    (now later : Z) (key : jsValue) (v : V) (ttlSeconds : option Z) (s : t)
  : result unit * t :=
  let ttlSeconds := default 300 ttlSeconds in
  let attempt : result unit * t :=
    match getPrefixedKey key with
    | Throw e => (Throw e, s)
    | Ok prefixedKey =>
        let expiresAt := now + ttlSeconds * 1000 in
        if isRedisAvailable s
           && negb (RedisConnectionService.isCircuitBreakerOpen conn)
        then
          let '(r, redis') :=
            setDistributedRedis conn part now prefixedKey v ttlSeconds
              (redis s) in
          (r, withRedis redis' s)
        else (Ok tt, setMemory prefixedKey v expiresAt s)
    end in
  match attempt with
  | (Ok _, s') => (Ok tt, s')
  | (Throw error, s') =>
      (* Fallback to memory cache if Redis fails *)
      if isRedisAvailable s' then
        match getPrefixedKey key with
        | Throw e => (Throw e, s')
        | Ok prefixedKey =>
            let expiresAt := later + ttlSeconds * 1000 in
            (Ok tt, setMemory prefixedKey v expiresAt s')
        end
      else (Ok tt, s')
  end.

Definition get (now : Z) (key : jsValue) (s : t) : result (option V) * t :=
  let attempt : result (option V) * t :=
    match getPrefixedKey key with
    | Throw e => (Throw e, s)
    | Ok prefixedKey =>
        if isRedisAvailable s then
          let '(r, redis') := getRedis now prefixedKey (redis s) in
          (r, withRedis redis' s)
        else
          let '(v, s') := getMemory now prefixedKey s in (Ok v, s')
    end in
  match attempt with
  | (Ok v, s') => (Ok v, s')
  | (Throw error, s') => (Ok None, s')
  end.

Definition delete (now : Z) (key : jsValue) (s : t) : result bool * t :=
  let attempt : result bool * t :=
    match getPrefixedKey key with
    | Throw e => (Throw e, s)
    | Ok prefixedKey =>
        if isRedisAvailable s then
          let '(r, redis') := deleteRedis now prefixedKey (redis s) in
          (r, withRedis redis' s)
        else
          let '(b, s') := deleteMemory prefixedKey s in (Ok b, s')
    end in
  match attempt with
  | (Ok b, s') => (Ok b, s')
  | (Throw error, s') => (Ok false, s')
  end.

(** [keys.map(key => this.getPrefixedKey(key))] *)
Fixpoint prefixAll (keys : list jsValue) : result (list string) :=
  match keys with
  | [] => Ok []
  | key :: rest =>
      let* prefixedKey := getPrefixedKey key in
      let* others := prefixAll rest in
      Ok (prefixedKey :: others)
  end.

(** [prefixedKeys.map(key => this.getMemory(key))] *)
Fixpoint getAllMemory (now : Z) (prefixedKeys : list string) (s : t)
  : list (option V) * t :=
  match prefixedKeys with
  | [] => ([], s)
  | key :: rest =>
      let '(v, s1) := getMemory now key s in
      let '(vs, s2) := getAllMemory now rest s1 in
      (v :: vs, s2)
  end.

Definition mget (now : Z) (keys : list jsValue) (s : t)
  : result (list (option V)) * t :=
  let attempt : result (list (option V)) * t :=
    match prefixAll keys with
    | Throw e => (Throw e, s)
    | Ok prefixedKeys =>
        if isRedisAvailable s then
          let '(r, redis') := mgetRedis now prefixedKeys (redis s) in
          (r, withRedis redis' s)
        else
          let '(vs, s') := getAllMemory now prefixedKeys s in (Ok vs, s')
    end in
  match attempt with
  | (Ok vs, s') => (Ok vs, s')
  | (Throw error, s') => (Ok (map (fun _ => None) keys), s')
  end.

(** The loop of the memory branch of [mset]; the entries stored before
    a key is refused stay stored. *)
Fixpoint setAllMemory (expiresAt : Z) (keyValuePairs : list (string * V))
    (s : t) : result unit * t :=
  match keyValuePairs with
  | [] => (Ok tt, s)
  | (key, v) :: rest =>
      match getPrefixedKey (JString key) with
      | Throw e => (Throw e, s)
      | Ok prefixedKey =>
          setAllMemory expiresAt rest (setMemory prefixedKey v expiresAt s)
      end
  end.

(** [keyValuePairs] is the list [Object.entries] yields: property names
    are strings. *)
Definition mset (now : Z) (keyValuePairs : list (string * V))
    (ttlSeconds : option Z) (s : t) : result unit * t :=
  let ttlSeconds := default 300 ttlSeconds in
  let attempt : result unit * t :=
    if isRedisAvailable s then
      let '(r, redis') := msetRedis now keyValuePairs ttlSeconds (redis s) in
      (r, withRedis redis' s)
    else
      setAllMemory (now + ttlSeconds * 1000) keyValuePairs s in
  match attempt with
  | (Ok _, s') => (Ok tt, s')
  | (Throw error, s') => (Ok tt, s')
  end.

End Json.

Arguments mkItem {V} value expiresAt.
Arguments value {V} _.
Arguments expiresAt {V} _.
Arguments mk {V} cache isRedisAvailable redis.
Arguments cache {V} _.
Arguments isRedisAvailable {V} _.
Arguments redis {V} _.
Arguments new {V} redis.
Arguments withCache {V} c s.
Arguments withRedis {V} r s.
Arguments onModuleInit {V} conn s.
Arguments setMemory {V} key v expiresAt s.
Arguments getMemory {V} now key s.
Arguments deleteMemory {V} key s.


Section Invalidation.

Variable V : Type.

(** The server's matcher for KEYS patterns. *)
Variable glob : string -> string -> bool.

(** [new RegExp(source)]: a syntax error, or the [test] of the
    expression. *)
Variable regExp : string -> result (string -> bool).

(** [pattern.replace(/\*/g, '.*')] *)
Fixpoint starToDotStar (pattern : string) : string :=
  match pattern with
  | EmptyString => EmptyString
  | String c rest =>
      if Ascii.eqb c "*" then String "." (String "*" (starToDotStar rest))
      else String c (starToDotStar rest)
  end.

Definition invalidatePatternMemory (pattern : string) (s : t V)
  : result unit * t V :=
  match regExp (starToDotStar pattern) with
  | Throw e => (Throw e, s)
  | Ok test =>
      let keysToDelete :=
        List.filter test (map fst (map_to_list (cache s))) in
      (Ok tt,
       withCache (fold_left (fun c key => base.delete key c) keysToDelete
                    (cache s)) s)
  end.

Definition invalidatePatternRedis (now : Z) (pattern : string)
    (redis : Redis.t) : result unit * Redis.t :=
  match getPrefixedKey (JString pattern) with
  | Throw e => (Throw e, redis)
  | Ok prefixedPattern =>
      match Redis.KEYS glob now prefixedPattern redis with
      | (Throw e, redis') => (Throw e, redis')
      | (Ok keys, redis') =>
          if (0 <? length keys)%nat then
            match Redis.DEL_many now keys redis' with
            | (Ok _, redis'') => (Ok tt, redis'')
            | (Throw e, redis'') => (Throw e, redis'')
            end
          else (Ok tt, redis')
      end
  end.

Definition clearRedis (now : Z) (redis : Redis.t) : result unit * Redis.t :=
  match getPrefixedKey (JString "*") with
  | Throw e => (Throw e, redis)
  | Ok pattern =>
      match Redis.KEYS glob now pattern redis with
      | (Throw e, redis') => (Throw e, redis')
      | (Ok keys, redis') =>
          if (0 <? length keys)%nat then
            match Redis.DEL_many now keys redis' with
            | (Ok _, redis'') => (Ok tt, redis'')
            | (Throw e, redis'') => (Throw e, redis'')
            end
          else (Ok tt, redis')
      end
  end.

(** [publishInvalidation] catches its own errors and stores nothing on
    the server; what a subscriber does when the message arrives is not
    part of this call. *)
Definition invalidatePattern (now : Z) (pattern : string) (s : t V)
  : result unit * t V :=
  let attempt : result unit * t V :=
    if isRedisAvailable s then
      let '(r, redis') := invalidatePatternRedis now pattern (redis s) in
      (r, withRedis redis' s)
    else invalidatePatternMemory pattern s in
  match attempt with
  | (Ok _, s') => (Ok tt, s')
  | (Throw error, s') => (Ok tt, s')
  end.

Definition clear (now : Z) (s : t V) : result unit * t V :=
  let attempt : result unit * t V :=
    if isRedisAvailable s then
      let '(r, redis') := clearRedis now (redis s) in
      (r, withRedis redis' s)
    else (Ok tt, withCache ∅ s) in
  match attempt with
  | (Ok _, s') => (Ok tt, s')
  | (Throw error, s') => (Ok tt, s')
  end.

End Invalidation.

End CacheService.

(** ** http-client.service.ts *)

Module HttpClientService.

(** What one attempt comes to: a response with its status, or an
    exception before there is one (a network error, the abort after
    [timeoutMs], a body that [JSON.stringify] refuses). *)
Inductive fetchResult : Type :=
| Response (status : Z)
| Rejected (error : exn).

(** [res.ok] *)
Definition ok (status : Z) : bool := (200 <=? status) && (status <=? 299).

Record HttpRequestOptions : Type := mkOptions {
  retries : option Z;
  backoffMs : option Z
}.

(** [Threw None] is [throw lastError] with [lastError] never assigned. *)
Inductive answer : Type :=
| Returned (status : Z)
| Threw (error : option exn).

(** The answer of [request], the attempts that called [fetch] and the
    delays passed to [setTimeout] between them, in order. *)
Record outcome : Type := mkOutcome {
  result : answer;
  fetched : list Z;
  delays : list Z
}.

(** The loop [for (attempt = 1; attempt <= maxRetries; attempt++)], from
    [attempt] on; [rounds] bounds the rounds left. *)
Fixpoint attempts (fetch : Z -> fetchResult) (maxRetries backoffMs : Z)
    (rounds : nat) (attempt : Z) (lastError : option exn)
    (fetched delays : list Z) : outcome :=
  match rounds with
  | O => mkOutcome (Threw lastError) fetched delays
  | S rounds =>
      if attempt <=? maxRetries then
        let fetched := fetched ++ [attempt] in
        let catch (error : exn) :=
          let delays :=
            if attempt <? maxRetries
            then delays ++ [backoffMs * attempt] else delays in
          attempts fetch maxRetries backoffMs rounds (attempt + 1)
            (Some error) fetched delays in
        match fetch attempt with
        | Response status =>
            if ok status then mkOutcome (Returned status) fetched delays
            else catch (Error ("HTTP " +:+ pretty status))
        | Rejected error => catch error
        end
      else mkOutcome (Threw lastError) fetched delays
  end.

(** What the [catch] of an attempt receives, if the attempt fails. *)
Definition errorOf (r : fetchResult) : option exn :=
  match r with
  | Response status =>
      if ok status then None else Some (Error ("HTTP " +:+ pretty status))
  | Rejected error => Some error
  end.

Definition request (conn : RedisConnectionService.t)
    (fetch : Z -> fetchResult) (options : HttpRequestOptions) : outcome :=
  let maxRetries := default 3 (retries options) in
  let backoffMs := default 500 (backoffMs options) in
  if RedisConnectionService.isCircuitBreakerOpen conn
  then mkOutcome
         (Threw (Some (Error "Circuit breaker open - refusing external request")))
         [] []
  else attempts fetch maxRetries backoffMs (Z.to_nat maxRetries) 1 None [] [].

End HttpClientService.

(** ** performance-monitor.service.ts *)

Module PerformanceMonitorService.

Record PerformanceMetrics : Type := mkMetric {
  operation : string;
  duration : Z;
  timestamp : Z;
  success : bool;
  error : option string
}.

Definition maxMetrics : nat := 1000.   (* Keep last 1000 metrics *)

Definition recordMetric (metric : PerformanceMetrics)
    (metrics : list PerformanceMetrics) : list PerformanceMetrics :=
  let metrics := metrics ++ [metric] in
  (* Keep only the last maxMetrics entries *)
  if (maxMetrics <? length metrics)%nat then tail metrics else metrics.

(** [now] is the reading of [Date.now()]; the warning logged for a slow
    operation is not kept. *)
Definition recordOperationMetric (now : Z) (operation : string) (duration : Z)
    (success : bool) (error : option string)
    (metrics : list PerformanceMetrics) : list PerformanceMetrics :=
  recordMetric (mkMetric operation duration now success error) metrics.

(** [array.slice(start)] for an integer [start]. *)
Definition slice {A : Type} (start : Z) (l : list A) : list A :=
  let len := Z.of_nat (length l) in
  let from := if start <? 0 then Z.max (len + start) 0 else Z.min start len in
  drop (Z.to_nat from) l.

Definition getRecentMetrics (limit : option Z)
    (metrics : list PerformanceMetrics) : list PerformanceMetrics :=
  let limit := default 50 limit in
  slice (- limit) metrics.

Definition clearMetrics (metrics : list PerformanceMetrics)
  : list PerformanceMetrics := [].

(** The metrics kept after [recorded] went through [recordMetric], in
    order, starting from [metrics]. *)
Definition recordAll (recorded metrics : list PerformanceMetrics)
  : list PerformanceMetrics :=
  fold_left (fun kept metric => recordMetric metric kept) recorded metrics.

End PerformanceMonitorService.

(** ** Concrete inputs for running the definitions *)

(** A stand-in digest for running the definitions: the length of the key. *)
Definition lengthDigest (key : string) : Z := Z.of_nat (String.length key).

(** A connection that is up, and a server that rejects every command. *)
Definition connectedService : RedisConnectionService.t :=
  RedisConnectionService.run RedisConnectionService.initial
    [RedisConnectionService.Connect; RedisConnectionService.Ready].

Definition unreachableRedis : Redis.t :=
  Redis.mk ∅ (Some (Redis.Rejects "Connection is closed.")).

(** The partitioner after [rebalanceKeys(keys, [])]: no node, no ring. *)
Definition emptiedPartitioning : RedisPartitioningService.t :=
  (RedisPartitioningService.rebalanceKeys lengthDigest []
     [] (RedisPartitioningService.new lengthDigest)).2.

(** A cache of plain texts, for running the definitions. *)
Definition textStringify (v : string) : string := v.
Definition textParse (text : string) : result string := Ok text.

Definition remoteOnly : Redis.t :=
  Redis.mk {[ "taskflow:cache:k" := Redis.mkEntry (Redis.RString "remote") None ]}
           None.

Definition localOnly : gmap string (CacheService.CacheItem string) :=
  {[ "taskflow:cache:k" := CacheService.mkItem "local" 1000000 ]}.

(** * Properties *)

Section CircuitBreaker.

Import RedisConnectionService.

Lemma handleConnectionError_failures m s :
  circuitBreakerFailures (handleConnectionError m s)
  = circuitBreakerFailures s + 1.
Proof.
  unfold handleConnectionError; cbn.
  destruct (circuitBreakerThreshold <=? circuitBreakerFailures s + 1); reflexivity.
Qed.

Lemma handleConnectionError_open m s :
  circuitBreakerOpen (handleConnectionError m s)
  = circuitBreakerOpen s
    || (circuitBreakerThreshold <=? circuitBreakerFailures s + 1).
Proof.
  unfold handleConnectionError; cbn.
  destruct (circuitBreakerThreshold <=? circuitBreakerFailures s + 1);
    cbn; [rewrite orb_true_r | rewrite orb_false_r]; reflexivity.
Qed.

Lemma handleConnectionError_clock m s :
  clock (handleConnectionError m s) = clock s.
Proof.
  unfold handleConnectionError; cbn.
  destruct (circuitBreakerThreshold <=? circuitBreakerFailures s + 1); reflexivity.
Qed.

Lemma handleConnectionError_down m s :
  isConnected (handleConnectionError m s) = false
  /\ h_isConnected (connectionHealth (handleConnectionError m s)) = false.
Proof.
  unfold handleConnectionError; cbn.
  destruct (circuitBreakerThreshold <=? circuitBreakerFailures s + 1);
    split; reflexivity.
Qed.

Lemma errors_app ms ms' s : errors (ms ++ ms') s = errors ms' (errors ms s).
Proof. unfold errors. apply fold_left_app. Qed.

Lemma errors_failures ms s :
  circuitBreakerFailures (errors ms s)
  = circuitBreakerFailures s + Z.of_nat (length ms).
Proof.
  revert s; induction ms as [|m ms IH]; intros s.
  - cbn. lia.
  - cbn [errors fold_left length]. fold (errors ms (handleConnectionError m s)).
    rewrite IH, handleConnectionError_failures. lia.
Qed.

Lemma errors_clock ms s : clock (errors ms s) = clock s.
Proof.
  revert s; induction ms as [|m ms IH]; intros s; [reflexivity|].
  cbn [errors fold_left]. fold (errors ms (handleConnectionError m s)).
  rewrite IH. apply handleConnectionError_clock.
Qed.

Lemma errors_open_closed ms s :
  circuitBreakerOpen s = false ->
  circuitBreakerFailures s = 0 ->
  circuitBreakerOpen (errors ms s)
  = (circuitBreakerThreshold <=? Z.of_nat (length ms)).
Proof.
  induction ms as [|m ms IH] using rev_ind; intros Ho Hf.
  - cbn. exact Ho.
  - rewrite errors_app. cbn [errors fold_left].
    rewrite handleConnectionError_open.
    fold (errors ms s). rewrite IH, errors_failures, Hf by assumption.
    rewrite length_app, Nat2Z.inj_add. cbn [length].
    unfold circuitBreakerThreshold.
    destruct (Z.leb_spec 5 (Z.of_nat (length ms)));
      destruct (Z.leb_spec 5 (0 + Z.of_nat (length ms) + 1));
      destruct (Z.leb_spec 5 (Z.of_nat (length ms) + Z.of_nat 1));
      cbn; try reflexivity; lia.
Qed.

Lemma errors_timers_below ms s :
  circuitBreakerFailures s + Z.of_nat (length ms) < circuitBreakerThreshold ->
  timers (errors ms s) = timers s.
Proof.
  revert s; induction ms as [|m ms IH]; intros s Hlt; [reflexivity|].
  cbn [errors fold_left]. fold (errors ms (handleConnectionError m s)).
  cbn [length] in Hlt.
  rewrite IH by (rewrite handleConnectionError_failures; lia).
  unfold handleConnectionError; cbn.
  destruct (Z.leb_spec circuitBreakerThreshold (circuitBreakerFailures s + 1));
    [lia | reflexivity].
Qed.

Lemma handleConnectionError_schedules m s :
  circuitBreakerThreshold <= circuitBreakerFailures s + 1 ->
  timers (handleConnectionError m s)
  = timers s ++ [(clock s + circuitBreakerTimeout, BreakerReset)].
Proof.
  intros Hge. unfold handleConnectionError; cbn.
  destruct (Z.leb_spec circuitBreakerThreshold (circuitBreakerFailures s + 1));
    [reflexivity | lia].
Qed.

Lemma getConnection_open s :
  circuitBreakerOpen s = true ->
  getConnection s = Throw (Error "Redis circuit breaker is open").
Proof. intros H. unfold getConnection. rewrite H. reflexivity. Qed.

(** A due cooldown timer closes the breaker and clears the counter; it
    reads neither [isConnected] nor the health record. *)
Lemma cooldown_fires k due s :
  timers s !! k = Some (due, BreakerReset) ->
  due <= clock s ->
  let s' := step s (CooldownElapsed k) in
  circuitBreakerOpen s' = false
  /\ circuitBreakerFailures s' = 0
  /\ isConnected s' = isConnected s
  /\ connectionHealth s' = connectionHealth s.
Proof.
  intros Hk Hdue. cbn. unfold fireTimer. rewrite Hk.
  destruct (Z.leb_spec due (clock s)); [|lia]. cbn. auto.
Qed.

Lemma cooldown_not_due k due s :
  timers s !! k = Some (due, BreakerReset) ->
  clock s < due ->
  step s (CooldownElapsed k) = s.
Proof.
  intros Hk Hdue. cbn. unfold fireTimer. rewrite Hk.
  destruct (Z.leb_spec due (clock s)); [lia|]. reflexivity.
Qed.



End CircuitBreaker.

Section BreakerVersusConnected.

Import RedisConnectionService.

Lemma step_keeps_openImpliesDown s e :
  keepsBreakerView e = true ->
  openImpliesDown s -> openImpliesDown (step s e).
Proof.
  unfold openImpliesDown, getHealthStatus.
  destruct e as [ | |m| | |ping|ping|k|k probe| |dt];
    cbn [keepsBreakerView step]; intros Hk Hinv.
  - (* connect *) unfold onConnect. cbn. intros H; discriminate H.
  - (* ready *) discriminate Hk.
  - (* error *) intros _. apply handleConnectionError_down.
  - (* close *) unfold onClose, attemptReconnect. cbn.
    destruct (maxReconnectAttempts <=? reconnectAttempts s); cbn; [auto|].
    destruct (circuitBreakerOpen s); cbn; auto.
  - (* reconnecting *) exact Hinv.
  - (* health check *) unfold performHealthCheck.
    destruct (circuitBreakerOpen s) eqn:Ho; [rewrite Ho; exact Hinv|].
    destruct ping; cbn [healthCheckSettles].
    + cbn. rewrite Ho. intros H; discriminate H.
    + intros _. apply handleConnectionError_down.
  - (* late ping *) discriminate Hk.
  - (* cooldown *) unfold fireTimer.
    destruct (timers s !! k) as [[due cb]|]; [|exact Hinv].
    destruct ((due <=? clock s) && timer_eqb cb BreakerReset) eqn:E;
      [|exact Hinv].
    apply andb_true_iff in E as [_ E]. destruct cb; [|discriminate].
    cbn. intros H; discriminate H.
  - (* reconnection probe *) discriminate Hk.
  - (* manual reset *) unfold resetCircuitBreaker. cbn.
    intros H; discriminate H.
  - (* time passes *) exact Hinv.
Qed.

Lemma run_keeps_openImpliesDown es s :
  forallb keepsBreakerView es = true ->
  openImpliesDown s -> openImpliesDown (run s es).
Proof.
  revert s; induction es as [|e es IH]; intros s Hall Hinv; [exact Hinv|].
  cbn in Hall. apply andb_true_iff in Hall as [He Hes].
  cbn [run fold_left]. apply IH; [exact Hes|].
  apply step_keeps_openImpliesDown; assumption.
Qed.




End BreakerVersusConnected.

Section HashRing.

Import ConsistentHashingStrategy.

Variable md5_prefix : string -> Z.

Local Abbreviation hash := (hash md5_prefix).
Local Abbreviation virtualPoints := (virtualPoints md5_prefix).
Local Abbreviation buildRing := (buildRing md5_prefix).
Local Abbreviation getNodeForKey := (getNodeForKey md5_prefix).
Local Abbreviation getNodeForPartition := (getNodeForPartition md5_prefix).

Lemma insertByHash_perm a l : Permutation (insertByHash a l) (a :: l).
Proof.
  induction l as [|b l IH]; cbn; [reflexivity|].
  destruct (rn_hash a - rn_hash b <=? 0); [reflexivity|].
  rewrite IH. apply perm_swap.
Qed.

Lemma sortByHash_perm l : Permutation (sortByHash l) l.
Proof.
  induction l as [|a l IH]; cbn; [reflexivity|].
  rewrite insertByHash_perm. constructor. exact IH.
Qed.

Lemma insertByHash_sorted a l :
  StronglySorted ascending l -> StronglySorted ascending (insertByHash a l).
Proof.
  induction l as [|b l IH]; intros Hs; cbn.
  - repeat constructor.
  - inversion Hs as [|? ? Hl Hb]; subst.
    destruct (Z.leb_spec (rn_hash a - rn_hash b) 0) as [Hle|Hgt].
    + constructor; [exact Hs|]. constructor; [unfold ascending; lia|].
      eapply Forall_impl; [exact Hb|]. unfold ascending. intros; lia.
    + constructor; [apply IH; exact Hl|].
      eapply Permutation_Forall; [symmetry; apply insertByHash_perm|].
      constructor; [unfold ascending; lia | exact Hb].
Qed.

Lemma sortByHash_sorted l : StronglySorted ascending (sortByHash l).
Proof.
  induction l as [|a l IH]; cbn; [constructor|].
  apply insertByHash_sorted. exact IH.
Qed.

Lemma virtualPoints_length node : length (virtualPoints node) = virtualNodes.
Proof. unfold virtualPoints. rewrite length_map, length_seq. reflexivity. Qed.

Lemma virtualPoints_node node rn :
  In rn (virtualPoints node) -> rn_node rn = node.
Proof.
  unfold virtualPoints. rewrite in_map_iff. intros (i & <- & _). reflexivity.
Qed.

Lemma pushed_length nodes :
  length (flat_map virtualPoints nodes) = (virtualNodes * length nodes)%nat.
Proof.
  induction nodes as [|n nodes IH]; cbn [flat_map length]; [lia|].
  rewrite length_app, virtualPoints_length, IH. lia.
Qed.

Lemma buildRing_node nodes rn : In rn (buildRing nodes) -> In (rn_node rn) nodes.
Proof.
  unfold buildRing. intros Hin.
  apply (Permutation_in _ (sortByHash_perm _)) in Hin.
  apply in_flat_map in Hin as (node & Hnode & Hrn).
  rewrite (virtualPoints_node _ _ Hrn). exact Hnode.
Qed.

Lemma buildRing_nonempty nodes : nodes <> [] -> buildRing nodes <> [].
Proof.
  intros Hne Hring.
  assert (Hlen : length (buildRing nodes) = (virtualNodes * length nodes)%nat).
  { unfold buildRing. rewrite (Permutation_length (sortByHash_perm _)).
    apply pushed_length. }
  rewrite Hring in Hlen. destruct nodes; [congruence|].
  cbn in Hlen. discriminate Hlen.
Qed.

(** The loop returns the node of the first entry at or after [h]. *)
Lemma firstAtOrAfter_first h ring i rn :
  ring !! i = Some rn ->
  h <= rn_hash rn ->
  (forall j rn', (j < i)%nat -> ring !! j = Some rn' -> rn_hash rn' < h) ->
  firstAtOrAfter h ring = Some (rn_node rn).
Proof.
  revert i; induction ring as [|b ring IH]; intros i Hi Hge Hbefore.
  - destruct i; discriminate Hi.
  - cbn. destruct i as [|i].
    + cbn in Hi. injection Hi as ->.
      destruct (Z.leb_spec h (rn_hash rn)); [reflexivity | lia].
    + specialize (Hbefore 0%nat b ltac:(lia) eq_refl) as Hb.
      destruct (Z.leb_spec h (rn_hash b)); [lia|].
      apply (IH i); [exact Hi | exact Hge |].
      intros j rn' Hj Hl. apply (Hbefore (S j)); [lia | exact Hl].
Qed.

Lemma firstAtOrAfter_none h ring :
  (forall rn, In rn ring -> rn_hash rn < h) ->
  firstAtOrAfter h ring = None.
Proof.
  induction ring as [|b ring IH]; intros Hall; [reflexivity|].
  cbn. specialize (Hall b (or_introl eq_refl)) as Hb.
  destruct (Z.leb_spec h (rn_hash b)); [lia|].
  apply IH. intros rn Hin. apply Hall. right. exact Hin.
Qed.

Lemma firstAtOrAfter_In h ring node :
  firstAtOrAfter h ring = Some node ->
  exists rn, In rn ring /\ rn_node rn = node.
Proof.
  induction ring as [|b ring IH]; cbn; [discriminate|].
  destruct (h <=? rn_hash b).
  - intros [= <-]. exists b. auto.
  - intros H. destruct (IH H) as (rn & Hin & Hn). exists rn. auto.
Qed.

Lemma getNodeForKey_eq s key :
  getNodeForKey s key
  = match firstAtOrAfter (hash key) (ring s) with
    | Some node => Ok node
    | None => firstNode (ring s)
    end.
Proof. reflexivity. Qed.

(** C5.  The ring holds exactly the points [hash(node + ":" + i)], [i] in
    [0,160), of every configured node (160 per list entry), sorted by
    ascending hash; [getNodeForKey] returns the node of the first ring
    entry whose hash is at least [hash(key)], and the node of the first
    entry of the ring when there is none; the answer is determined by
    [hash(key)] and the ring alone. *)
Theorem ring_is_sorted_virtual_points_and_lookup_is_clockwise
    (nodes : list string) :
  let s := new md5_prefix nodes in
  Permutation (ring s)
    (flat_map
       (fun node =>
          map (fun i : nat =>
                 mkRingNode (hash (node +:+ ":" +:+ pretty i)) node)
              (seq 0 160))
       nodes)
  /\ length (ring s) = (160 * length nodes)%nat
  /\ StronglySorted ascending (ring s)
  /\ (forall key i rn,
         ring s !! i = Some rn ->
         hash key <= rn_hash rn ->
         (forall j rn', (j < i)%nat -> ring s !! j = Some rn' ->
                        rn_hash rn' < hash key) ->
         getNodeForKey s key = Ok (rn_node rn))
  /\ (forall key rn0,
         (forall rn, In rn (ring s) -> rn_hash rn < hash key) ->
         ring s !! 0%nat = Some rn0 ->
         getNodeForKey s key = Ok (rn_node rn0))
  /\ (forall key key', hash key = hash key' ->
                       getNodeForKey s key = getNodeForKey s key').
Proof.
  cbn zeta. cbn [ring new].
  split; [apply sortByHash_perm|].
  split.
  { unfold buildRing. rewrite (Permutation_length (sortByHash_perm _)).
    apply pushed_length. }
  split; [apply sortByHash_sorted|].
  split.
  { intros key i rn Hi Hge Hbefore. rewrite getNodeForKey_eq. cbn [ring new].
    rewrite (firstAtOrAfter_first _ _ i rn Hi Hge Hbefore). reflexivity. }
  split.
  { intros key rn0 Hall H0. rewrite getNodeForKey_eq. cbn [ring new].
    rewrite (firstAtOrAfter_none _ _ Hall).
    destruct (buildRing nodes); [discriminate H0|].
    cbn in H0. injection H0 as ->. reflexivity. }
  intros key key' Heq. rewrite !getNodeForKey_eq, Heq. reflexivity.
Qed.

(** C10.  A strategy built from a non-empty node list answers every key
    with one of its nodes.  Built from an empty list its ring is empty and
    every [getNodeForKey] and [getNodeForPartition] throws a [TypeError];
    [rebalanceKeys(keys, [])] leaves the partitioning service with such a
    strategy. *)
Theorem lookup_needs_a_non_empty_node_list :
  (forall nodes key,
      nodes <> [] ->
      exists node,
        getNodeForKey (new md5_prefix nodes) key = Ok node /\ In node nodes)
  /\ ring (new md5_prefix []) = []
  /\ (forall key, getNodeForKey (new md5_prefix []) key = Throw undefinedNode)
  /\ (forall partition ns,
         getNodeForPartition (new md5_prefix []) partition ns
         = Throw undefinedNode)
  /\ (forall svc keys,
         let svc' := snd (RedisPartitioningService.rebalanceKeys
                            md5_prefix keys [] svc) in
         ring (RedisPartitioningService.partitioningStrategy svc') = []
         /\ (forall key,
                getNodeForKey
                  (RedisPartitioningService.partitioningStrategy svc') key
                = Throw undefinedNode)
         /\ (forall partition,
                RedisPartitioningService.getNodeForPartition
                  md5_prefix svc' partition
                = Throw undefinedNode)
         /\ (forall conn key,
                RedisConnectionService.isHealthy conn = true ->
                RedisPartitioningService.getConnectionForKey
                  md5_prefix conn svc' key
                = Throw undefinedNode)).
Proof.
  split.
  { intros nodes key Hne. rewrite getNodeForKey_eq. cbn [ring new].
    destruct (firstAtOrAfter (hash key) (buildRing nodes)) as [node|] eqn:E.
    - exists node. split; [reflexivity|].
      apply firstAtOrAfter_In in E as (rn & Hin & <-).
      apply buildRing_node. exact Hin.
    - pose proof (buildRing_nonempty nodes Hne) as Hring.
      pose proof (buildRing_node nodes) as Hnode.
      destruct (buildRing nodes) as [|b r]; [congruence|].
      exists (rn_node b). split; [reflexivity|].
      apply Hnode. left. reflexivity. }
  split; [reflexivity|].
  split; [reflexivity|].
  split; [reflexivity|].
  intros svc keys. cbn.
  repeat split.
  intros conn key Hh.
  unfold RedisPartitioningService.getConnectionForKey. rewrite Hh. reflexivity.
Qed.

End HashRing.

Lemma ring_is_sorted_virtual_points_and_lookup_is_clockwise_witness :
  ConsistentHashingStrategy.getNodeForKey lengthDigest
    (ConsistentHashingStrategy.new lengthDigest ["a"; "b"]) "k"
  = Ok "a".
Proof.
  pose proof (ring_is_sorted_virtual_points_and_lookup_is_clockwise
                lengthDigest ["a"; "b"]) as (_ & _ & _ & Hfirst & _).
  apply (Hfirst "k" 0%nat (ConsistentHashingStrategy.mkRingNode 3 "a")).
  - vm_compute. reflexivity.
  - vm_compute. discriminate.
  - intros j rn' Hj. lia.
Defined.

Lemma lookup_needs_a_non_empty_node_list_witness :
  exists node,
    ConsistentHashingStrategy.getNodeForKey lengthDigest
      (ConsistentHashingStrategy.new lengthDigest ["a"; "b"]) "some-long-key"
    = Ok node
    /\ In node ["a"; "b"].
Proof.
  apply (proj1 (lookup_needs_a_non_empty_node_list lengthDigest)).
  discriminate.
Defined.

Section RateLimiter.

Import RateLimitService.

Variable md5_prefix : string -> Z.

Local Abbreviation checkRateLimit := (checkRateLimit md5_prefix).
Local Abbreviation checkDistributedRedisRateLimit :=
  (checkDistributedRedisRateLimit md5_prefix).

Lemma checkRedisRateLimit_throw_keeps now key options r e r' :
  checkRedisRateLimit now key options r = (Throw e, r') -> r' = r.
Proof.
  unfold checkRedisRateLimit, Redis.INCR_EXPIRE_TTL.
  destruct (Redis.fault r) as [[m|]|].
  - cbn. discriminate.
  - intros [= <- <-]. reflexivity.
  - destruct (Redis.INCR _ _ _) as [first r1].
    destruct (Redis.EXPIRE _ _ _ _) as [second r2].
    destruct (Redis.TTL _ _ _) as [third r3]. cbn. discriminate.
Qed.

Lemma checkDistributed_throw_keeps conn part now key options r e r' :
  checkDistributedRedisRateLimit conn part now key options r = (Throw e, r') ->
  r' = r.
Proof.
  unfold RateLimitService.checkDistributedRedisRateLimit.
  destruct (RedisPartitioningService.getConnectionForKey _ _ _ _).
  - apply checkRedisRateLimit_throw_keeps.
  - congruence.
Qed.

(** The distributed computation throws before it reaches the server: the
    manager is unhealthy, or the ring has no node. *)
Lemma checkRateLimit_memory_path conn part now key options identifier s :
  RedisConnectionService.isHealthy conn = false
  \/ ConsistentHashingStrategy.ring
       (RedisPartitioningService.partitioningStrategy part) = [] ->
  checkRateLimit conn part now key options identifier s
  = (Ok (checkMemoryRateLimit (atMemory now) (generateKey key identifier)
           options (inMemoryStore s)).1,
     mk (checkMemoryRateLimit (atMemory now) (generateKey key identifier)
           options (inMemoryStore s)).2 (redis s)).
Proof.
  intros Hmem. unfold RateLimitService.checkRateLimit.
  destruct (checkMemoryRateLimit _ _ _ _) as [r store'] eqn:Em.
  destruct (_ && _) eqn:Hguard; [|reflexivity].
  destruct Hmem as [Hh|Hring].
  { rewrite Hh in Hguard. discriminate Hguard. }
  unfold RateLimitService.checkDistributedRedisRateLimit,
    RedisPartitioningService.getConnectionForKey.
  destruct (negb (RedisConnectionService.isHealthy conn)); [reflexivity|].
  rewrite getNodeForKey_eq, Hring. reflexivity.
Qed.

Lemma memory_allowed_iff now key options store :
  allowed (checkMemoryRateLimit now key options store).1 = true
  <-> match store !! key with
      | None => True
      | Some w => w_resetTime w < now \/ count w + 1 <= limit options
      end.
Proof.
  unfold checkMemoryRateLimit.
  destruct (store !! key) as [w|]; cbn; [|tauto].
  destruct (Z.ltb_spec (w_resetTime w) now); cbn.
  - split; auto.
  - destruct (Z.leb_spec (count w + 1) (limit options)); split;
      intros; try discriminate; try reflexivity; auto; lia.
Qed.

(** C1, as the code has it.  When the distributed computation throws,
    [checkRateLimit] does not throw: it returns what the in-memory limiter
    answers for the same key, so the request is allowed exactly when the
    key has no live in-memory window or its count, this call included,
    is within the limit. *)
Theorem checkRateLimit_falls_back_to_memory_limiter
    conn part now key options identifier s e redis' :
  checkDistributedRedisRateLimit conn part now (generateKey key identifier)
    options (redis s) = (Throw e, redis') ->
  let mem := checkMemoryRateLimit (atMemory now) (generateKey key identifier)
               options (inMemoryStore s) in
  checkRateLimit conn part now key options identifier s
  = (Ok mem.1, mk mem.2 (redis s))
  /\ (allowed mem.1 = true
      <-> match inMemoryStore s !! generateKey key identifier with
          | None => True
          | Some w =>
              w_resetTime w < atMemory now \/ count w + 1 <= limit options
          end).
Proof.
  intros Hthrow mem. split; [|apply memory_allowed_iff].
  pose proof (checkDistributed_throw_keeps _ _ _ _ _ _ _ _ Hthrow) as ->.
  unfold RateLimitService.checkRateLimit.
  fold (checkDistributedRedisRateLimit conn part now
          (generateKey key identifier) options (redis s)).
  rewrite Hthrow. fold mem.
  destruct (_ && _); destruct mem; reflexivity.
Qed.

End RateLimiter.

Lemma checkRateLimit_falls_back_to_memory_limiter_witness :
  RateLimitService.checkRateLimit lengthDigest connectedService
    emptiedPartitioning
    (RateLimitService.mkReadings 0 0 0 0 0) "login"
    (RateLimitService.mkOptions 1 1000) (Some "10.0.0.1")
    (RateLimitService.mk ∅ Redis.empty)
  = (Ok (RateLimitService.mkResult true 1 1 0 1000 Undefined),
     RateLimitService.mk
       {[ "rate_limit:login:10.0.0.1" := RateLimitService.mkWindow 1 1000 1 ]}
       Redis.empty).
Proof.
  refine (proj1 (checkRateLimit_falls_back_to_memory_limiter lengthDigest
           connectedService emptiedPartitioning
           (RateLimitService.mkReadings 0 0 0 0 0) "login"
           (RateLimitService.mkOptions 1 1000) (Some "10.0.0.1")
           (RateLimitService.mk ∅ Redis.empty)
           ConsistentHashingStrategy.undefinedNode Redis.empty _)).
  vm_compute. reflexivity.
Defined.

(** C1 fails on the code: with a backend that throws on every call (the
    ring has no node, so the lookup of the key's node throws a
    [TypeError]) and [limit = 1], the second check of a key in one window
    is answered by the in-memory limiter with [allowed = false]. *)
Lemma checkRateLimit_rejects_while_backend_throws :
  let conn := connectedService in
  let part := emptiedPartitioning in
  let now := RateLimitService.mkReadings 0 0 0 0 0 in
  let options := RateLimitService.mkOptions 1 1000 in
  let s0 := RateLimitService.mk ∅ Redis.empty in
  let first := RateLimitService.checkRateLimit lengthDigest conn part now
                 "login" options (Some "10.0.0.1") s0 in
  let second := RateLimitService.checkRateLimit lengthDigest conn part now
                  "login" options (Some "10.0.0.1") first.2 in
  RateLimitService.checkDistributedRedisRateLimit lengthDigest conn part now
    "rate_limit:login:10.0.0.1" options (RateLimitService.redis first.2)
  = (Throw ConsistentHashingStrategy.undefinedNode, Redis.empty)
  /\ second.1
     = Ok (RateLimitService.mkResult false 1 2 0 1000 (Num 1)).
Proof. vm_compute. split; reflexivity. Qed.

Section RateLimiterWindow.

Import RateLimitService.

Variable md5_prefix : string -> Z.

Local Abbreviation checkRateLimit := (RateLimitService.checkRateLimit md5_prefix).
Local Abbreviation checks := (RateLimitService.checks md5_prefix).

Lemma memory_retryAfter now key options store :
  retryAfterIffRefused (checkMemoryRateLimit now key options store).1.
Proof.
  unfold retryAfterIffRefused, checkMemoryRateLimit.
  destruct (store !! key) as [w|]; cbn.
  2: { split; [congruence | discriminate]. }
  destruct (w_resetTime w <? now); cbn.
  { split; [congruence | discriminate]. }
  destruct (count w + 1 <=? limit options); cbn.
  - split; [congruence | discriminate].
  - split; [reflexivity | discriminate].
Qed.

Lemma num_ceil_div_defined a d : num_ceil_div a d <> Undefined.
Proof. destruct a; discriminate. Qed.

(** A result of the Redis limiter that carries a count. *)
Lemma redis_retryAfter now key options redis r redis' :
  checkRedisRateLimit now key options redis = (Ok r, redis') ->
  current r <> Undefined ->
  retryAfterIffRefused r.
Proof.
  unfold retryAfterIffRefused, checkRedisRateLimit, Redis.INCR_EXPIRE_TTL.
  destruct (Redis.fault redis) as [[m|]|].
  - cbn. intros [= <- <-]. cbn. congruence.
  - discriminate.
  - destruct (Redis.INCR _ _ _) as [first r1].
    destruct (Redis.EXPIRE _ _ _ _) as [second r2].
    destruct (Redis.TTL _ _ _) as [third r3]. cbn.
    intros [= <- <-]. cbn.
    destruct first as [n|e]; cbn; [intros _|congruence].
    destruct (Z.leb_spec n (limit options));
      destruct (Z.ltb_spec (limit options) n); try lia.
    + split; [congruence | discriminate].
    + split; [reflexivity | intros _; apply num_ceil_div_defined].
Qed.

Lemma checkRateLimit_retryAfter conn part now key options identifier s r s' :
  checkRateLimit conn part now key options identifier s = (Ok r, s') ->
  current r <> Undefined ->
  retryAfterIffRefused r.
Proof.
  unfold RateLimitService.checkRateLimit.
  pose proof (memory_retryAfter (atMemory now) (generateKey key identifier)
                options (inMemoryStore s)) as Hmem.
  destruct (checkMemoryRateLimit _ _ _ _) as [rm store'].
  destruct (_ && _).
  - unfold checkDistributedRedisRateLimit.
    destruct (RedisPartitioningService.getConnectionForKey _ _ _ _).
    + destruct (checkRedisRateLimit _ _ _ _) as [[rr|e] r0] eqn:E.
      * intros [= <- <-]. eapply redis_retryAfter. exact E.
      * intros [= <- <-] _. exact Hmem.
    + intros [= <- <-] _. exact Hmem.
  - intros [= <- <-] _. exact Hmem.
Qed.

Lemma memory_start now key options store :
  match store !! key with
  | None => True
  | Some w => w_resetTime w < now
  end ->
  checkMemoryRateLimit now key options store
  = (mkResult true (limit options) 1 (limit options - 1)
              (now + windowMs options) Undefined,
     <[key := mkWindow 1 (now + windowMs options) (limit options)]> store).
Proof.
  intros H. unfold checkMemoryRateLimit.
  destruct (store !! key) as [w|]; [|reflexivity].
  destruct (Z.ltb_spec (w_resetTime w) now); [reflexivity | lia].
Qed.

Lemma memory_next now key options store c rt lim :
  store !! key = Some (mkWindow c rt lim) ->
  now <= rt ->
  checkMemoryRateLimit now key options store
  = (mkResult (c + 1 <=? limit options) (limit options) (c + 1)
              (Z.max 0 (limit options - (c + 1))) rt
              (if negb (c + 1 <=? limit options)
               then Num (ceil_div (rt - now) 1000) else Undefined),
     <[key := mkWindow (c + 1) rt lim]> store).
Proof.
  intros H Hle. unfold checkMemoryRateLimit. rewrite H. cbn.
  destruct (Z.ltb_spec rt now); [lia | reflexivity].
Qed.

Lemma ceil_div_pos x : 0 < x -> 0 < ceil_div x 1000.
Proof.
  intros Hx. unfold ceil_div.
  assert ((- x) / 1000 < 0); [|lia].
  apply Z.div_lt_upper_bound; lia.
Qed.

Lemma ceil_div_zero : ceil_div 0 1000 = 0.
Proof. reflexivity. Qed.

Lemma live_inserted now key e d r :
  Redis.expired now e = false ->
  Redis.live now (Redis.setData (<[key := e]> d) r) key = Some e.
Proof.
  intros He. unfold Redis.live, Redis.setData. cbn [Redis.data].
  rewrite lookup_insert_eq, He. reflexivity.
Qed.

Lemma live_not_expired now r key e :
  Redis.live now r key = Some e -> Redis.expired now e = false.
Proof.
  unfold Redis.live. destruct (Redis.data r !! key) as [e'|]; [|discriminate].
  destruct (Redis.expired now e') eqn:He; [discriminate|].
  intros [= <-]. exact He.
Qed.

Lemma EXPIRE_live now key seconds r e :
  Redis.live now r key = Some e ->
  0 < seconds ->
  Redis.EXPIRE now key seconds r
  = (Redis.Answered 1,
     Redis.setData
       (<[key := Redis.mkEntry (Redis.value e) (Some (now + seconds * 1000))]>
          (Redis.data r)) r).
Proof.
  intros Hl Hs. unfold Redis.EXPIRE. rewrite Hl.
  destruct (Z.ltb_spec 0 seconds); [reflexivity | lia].
Qed.

Lemma TTL_live now key r e at_ :
  Redis.live now r key = Some e ->
  Redis.expiresAt e = Some at_ ->
  Redis.TTL now key r = (Redis.Answered ((at_ - now + 500) / 1000), r).
Proof. intros Hl He. unfold Redis.TTL. rewrite Hl, He. reflexivity. Qed.

Lemma setData_twice d d' r :
  Redis.setData d (Redis.setData d' r) = Redis.setData d r.
Proof. reflexivity. Qed.

(** [INCR] then [EXPIRE key 1] then [TTL] on a live or missing counter. *)
Lemma expire_then_ttl now key r e :
  Redis.expired now e = false ->
  (let '(second, r2) :=
     Redis.EXPIRE now key 1
       (Redis.setData (<[key := e]> (Redis.data r)) r) in
   let '(third, r3) := Redis.TTL now key r2 in
   (second, third, r3))
  = (Redis.Answered 1, Redis.Answered 1,
     Redis.setData
       (<[key := Redis.mkEntry (Redis.value e) (Some (now + 1000))]>
          (Redis.data r)) r).
Proof.
  intros He.
  rewrite (EXPIRE_live now key 1 _ e (live_inserted now key e _ r He))
    by lia.
  replace (now + 1 * 1000) with (now + 1000) by lia.
  rewrite setData_twice.
  change (Redis.data (Redis.setData (<[key:=e]> (Redis.data r)) r))
    with (<[key:=e]> (Redis.data r)).
  rewrite insert_insert_eq.
  rewrite (TTL_live now key _
             (Redis.mkEntry (Redis.value e) (Some (now + 1000)))
             (now + 1000));
    [ | apply live_inserted; unfold Redis.expired; cbn;
        destruct (Z.ltb_spec (now + 1000) now); [lia|reflexivity]
      | reflexivity ].
  replace ((now + 1000 - now + 500) / 1000) with 1; [reflexivity|].
  replace (now + 1000 - now + 500) with 1500 by lia. reflexivity.
Qed.

(** One pipeline on a server that answers: the counter stored under the
    window key goes up by one (from 0 when there is no live entry) and
    the reported TTL is the one just set. *)
Lemma pipeline_counts now key r (c : Z) :
  Redis.fault r = None ->
  0 <= c < Redis.int64_max ->
  (Redis.value <$> Redis.live now r key
   = if c =? 0 then None else Some (Redis.RInteger c)) ->
  Redis.INCR_EXPIRE_TTL now key 1 r
  = (Some [Redis.Answered (c + 1); Redis.Answered 1; Redis.Answered 1],
     Redis.setData
       (<[key := Redis.mkEntry (Redis.RInteger (c + 1)) (Some (now + 1000))]>
          (Redis.data r)) r).
Proof.
  intros Hf Hc Hl. unfold Redis.INCR_EXPIRE_TTL. rewrite Hf.
  unfold Redis.INCR.
  destruct (Redis.live now r key) as [e|] eqn:Hlive; cbn in Hl.
  - destruct (Z.eqb_spec c 0) as [->|Hne]; [discriminate Hl|].
    injection Hl as Hv. rewrite Hv. cbn [Redis.integerOf].
    destruct (Z.ltb_spec c Redis.int64_max); [|lia].
    pose proof (expire_then_ttl now key r
                  (Redis.mkEntry (Redis.RInteger (c + 1)) (Redis.expiresAt e))
                  (live_not_expired _ _ _ _ Hlive)) as Hpipe.
    destruct (Redis.EXPIRE _ _ _ _) as [second r2].
    destruct (Redis.TTL _ _ _) as [third r3].
    injection Hpipe as -> -> ->. reflexivity.
  - destruct (Z.eqb_spec c 0) as [->|Hne]; [|discriminate Hl].
    pose proof (expire_then_ttl now key r
                  (Redis.mkEntry (Redis.RInteger 1) None) eq_refl) as Hpipe.
    destruct (Redis.EXPIRE _ _ _ _) as [second r2].
    destruct (Redis.TTL _ _ _) as [third r3].
    injection Hpipe as -> -> ->. reflexivity.
Qed.

Lemma live_after_pipeline now now' key r v :
  now' < now + 1000 ->
  Redis.value <$>
    Redis.live now'
      (Redis.setData
         (<[key := Redis.mkEntry v (Some (now + 1000))]> (Redis.data r)) r)
      key
  = Some v.
Proof.
  intros Hlt. rewrite live_inserted; [reflexivity|].
  unfold Redis.expired. cbn.
  destruct (Z.ltb_spec (now + 1000) now'); [lia | reflexivity].
Qed.

Lemma healthy_guard conn :
  RedisConnectionService.isHealthy conn = true ->
  RedisConnectionService.isHealthy conn
  && negb (RedisConnectionService.isCircuitBreakerOpen conn) = true
  /\ RedisConnectionService.getConnection conn
     = Ok RedisConnectionService.RedisClient.
Proof.
  unfold RedisConnectionService.isHealthy,
    RedisConnectionService.isCircuitBreakerOpen,
    RedisConnectionService.getConnection.
  destruct (RedisConnectionService.isConnected conn),
    (RedisConnectionService.circuitBreakerOpen conn); cbn; intros H;
    try discriminate H; auto.
Qed.

Lemma getConnectionForKey_ok conn part key :
  RedisConnectionService.isHealthy conn = true ->
  ConsistentHashingStrategy.ring
    (RedisPartitioningService.partitioningStrategy part) <> [] ->
  RedisPartitioningService.getConnectionForKey md5_prefix conn part key
  = Ok RedisConnectionService.RedisClient.
Proof.
  intros Hh Hring. unfold RedisPartitioningService.getConnectionForKey.
  rewrite Hh. cbn [negb].
  rewrite getNodeForKey_eq.
  destruct (ConsistentHashingStrategy.firstAtOrAfter _ _); cbn.
  - apply healthy_guard. exact Hh.
  - destruct (ConsistentHashingStrategy.ring _); [congruence|]. cbn.
    apply healthy_guard. exact Hh.
Qed.

(** One check answered by a server that holds the count [c] for the
    current window ([c = 0]: no live counter). *)
Lemma checkRateLimit_redis_path conn part now key options identifier s c :
  RedisConnectionService.isHealthy conn = true ->
  ConsistentHashingStrategy.ring
    (RedisPartitioningService.partitioningStrategy part) <> [] ->
  Redis.fault (redis s) = None ->
  windowMs options = 1000 ->
  0 <= c < Redis.int64_max ->
  let windowKey :=
    generateKey key identifier +:+ ":"
    +:+ pretty (floor_div (atWindow now) 1000) in
  (Redis.value <$> Redis.live (atServer now) (redis s) windowKey
   = if c =? 0 then None else Some (Redis.RInteger c)) ->
  checkRateLimit conn part now key options identifier s
  = (Ok (mkResult (c + 1 <=? limit options) (limit options) (c + 1)
                  (Z.max 0 (limit options - (c + 1)))
                  (atReset now + 1000)
                  (if limit options <? c + 1
                   then Num (ceil_div (atReset now + 1000 - atRetry now) 1000)
                   else Undefined)),
     mk (inMemoryStore s)
        (Redis.setData
           (<[windowKey := Redis.mkEntry (Redis.RInteger (c + 1))
                             (Some (atServer now + 1000))]>
              (Redis.data (redis s))) (redis s))).
Proof.
  intros Hh Hring Hf Hw Hc windowKey Hlive.
  unfold RateLimitService.checkRateLimit.
  rewrite (proj1 (healthy_guard conn Hh)).
  unfold checkDistributedRedisRateLimit.
  rewrite (getConnectionForKey_ok conn part _ Hh Hring).
  unfold checkRedisRateLimit. rewrite Hw.
  change (ceil_div 1000 1000) with 1.
  fold windowKey.
  rewrite (pipeline_counts (atServer now) windowKey (redis s) c Hf Hc Hlive).
  cbn.
  replace (atReset now + 1 * 1000) with (atReset now + 1000) by lia.
  destruct (limit options <? c + 1); reflexivity.
Qed.


End RateLimiterWindow.



Section DistributedLock.

Import DistributedLockService.

Lemma live_after_delete now redis key :
  Redis.live now (Redis.setData (delete key (Redis.data redis)) redis) key
  = None.
Proof. unfold Redis.live. cbn. rewrite lookup_delete_eq. reflexivity. Qed.

(** C4.  [releaseLock] never throws.  It returns true exactly when the
    server is reachable and the value stored under the lock key equals
    the token, and then the entry is deleted; when the stored value
    differs, the key is absent or the server throws, it returns false and
    the store is unchanged.  [acquireLock] never throws either: a server
    exception gives null (the server also refuses a time to live of zero
    or less), and a reachable server given a positive time to live gives
    the token exactly when the key was free. *)
Theorem releaseLock_is_token_checked_and_lock_calls_never_throw
    (now : Z) (resource token : string) (redis : Redis.t) :
  let key := lockPrefix +:+ resource in
  (exists b redis',
      releaseLock now resource token redis = (Ok b, redis')
      /\ (b = true <->
          Redis.reachable redis = true /\ Redis.stored now redis key = Some token)
      /\ (b = true ->
          Redis.data redis' = delete key (Redis.data redis)
          /\ Redis.live now redis' key = None)
      /\ (b = false -> redis' = redis))
  /\ (forall ttlMs,
         exists o redis',
           acquireLock now token resource ttlMs redis = (Ok o, redis')
           /\ (Redis.reachable redis = false -> o = None /\ redis' = redis)
           /\ (default defaultTtlMs ttlMs <= 0 -> o = None /\ redis' = redis)
           /\ (Redis.reachable redis = true ->
               0 < default defaultTtlMs ttlMs ->
               (o = Some token <-> Redis.live now redis key = None)
               /\ (o = None <-> is_Some (Redis.live now redis key)))).
Proof.
  intros key. split.
  - unfold releaseLock, Redis.EVAL_compare_and_delete, Redis.reach,
      Redis.reachable, Redis.stored.
    fold key.
    destruct (Redis.fault redis) as [[m|]|] eqn:Hf.
    { exists false, redis. repeat split; try discriminate.
      intros [H _]. discriminate H. }
    all: destruct (Redis.live now redis key) as [e|] eqn:Hl; cbn.
    all: try (exists false, redis; repeat split; try discriminate;
              intros [_ H]; discriminate H).
    all: destruct (String.eqb_spec (Redis.render (Redis.value e)) token)
           as [Heq|Hne].
    all: try (exists true, (Redis.setData (delete key (Redis.data redis)) redis);
              repeat split; try discriminate; try (rewrite Heq; reflexivity);
              apply live_after_delete).
    all: exists false, redis; repeat split; try discriminate;
      intros [_ H]; congruence.
  - intros ttlMs.
    unfold acquireLock, Redis.SET_PX_NX, Redis.reach, Redis.reachable.
    fold key.
    destruct (Redis.fault redis) as [[m|]|] eqn:Hf.
    { exists None, redis. repeat split; discriminate. }
    all: destruct (Z.ltb_spec 0 (default defaultTtlMs ttlMs)) as [Hpos|Hneg].
    all: try (exists None, redis; split; [reflexivity|];
              split; [discriminate|]; split; [auto|]; intros _ Hpos; lia).
    all: destruct (Redis.live now redis key) as [e|] eqn:Hl.
    all: eexists _, _; split; [reflexivity|]; split; [discriminate|].
    all: (split; [intros Hneg; lia|]).
    all: intros _ _; repeat split; try discriminate; eauto.
    all: intros [? H]; discriminate H.
Qed.

End DistributedLock.

Lemma releaseLock_is_token_checked_and_lock_calls_never_throw_witness :
  let held :=
    (DistributedLockService.acquireLock 0 "token-1" "report" None Redis.empty).2 in
  DistributedLockService.releaseLock 5 "report" "token-2" held = (Ok false, held)
  /\ (DistributedLockService.releaseLock 5 "report" "token-1" held).1 = Ok true.
Proof.
  cbv zeta.
  destruct (releaseLock_is_token_checked_and_lock_calls_never_throw
              5 "report" "token-2"
              (DistributedLockService.acquireLock 0 "token-1" "report" None
                 Redis.empty).2)
    as [(b & redis' & Hrel & Hiff & _ & Hkeep) _].
  split; [|vm_compute; reflexivity].
  rewrite Hrel. destruct b.
  - destruct (proj1 Hiff eq_refl) as [_ Hstored]. vm_compute in Hstored.
    discriminate Hstored.
  - rewrite (Hkeep eq_refl). reflexivity.
Defined.

Section ConcurrencySlots.

Import ConcurrencyControlService.

Lemma queuedOf_app j l l' : queuedOf j (l ++ l') = queuedOf j l ++ queuedOf j l'.
Proof. apply omap_app. Qed.

Lemma resolvedFromQueueOf_app j l l' :
  resolvedFromQueueOf j (l ++ l')
  = resolvedFromQueueOf j l ++ resolvedFromQueueOf j l'.
Proof. apply omap_app. Qed.

Lemma initial_withinLimits : withinLimits initial.
Proof.
  intros jobType limit H. unfold initial in H. cbn [limits] in H.
  repeat (apply lookup_insert_Some in H as [[_ <-]|[_ H]]; [cbn; lia|]).
  rewrite lookup_empty in H. discriminate H.
Qed.

Lemma initial_fifo : fifo initial.
Proof.
  intros jobType. unfold queueOf, initial. cbn [limits log].
  destruct (_ !! jobType) as [limit|] eqn:H; [|reflexivity].
  repeat (apply lookup_insert_Some in H as [[_ <-]|[_ H]]; [reflexivity|]).
  rewrite lookup_empty in H. discriminate H.
Qed.

Lemma acquireSlot_withinLimits jobType s :
  withinLimits s -> withinLimits (acquireSlot jobType s).
Proof.
  intros Hinv j limit. unfold acquireSlot.
  destruct (limits s !! jobType) as [l0|] eqn:E; cbn [limits].
  - pose proof (Hinv _ _ E) as H0.
    destruct (Z.ltb_spec (currentRunning l0) (maxConcurrent l0)) as [Hlt|Hge];
      cbn [limits]; intros Hl;
      apply lookup_insert_Some in Hl as [[_ <-]|[_ Hl]];
      cbn; try lia; eauto.
  - apply Hinv.
Qed.

Lemma processQueue_withinLimits jobType s :
  withinLimits s -> withinLimits (processQueue jobType s).
Proof.
  intros Hinv j limit. unfold processQueue.
  destruct (limits s !! jobType) as [l0|] eqn:E; [|apply Hinv].
  destruct (0 <? Z.of_nat (length (queue l0))); cbn [andb]; [|apply Hinv].
  destruct (Z.ltb_spec (currentRunning l0) (maxConcurrent l0)) as [Hlt|Hge];
    [|apply Hinv].
  destruct (queue l0) as [|p rest]; [apply Hinv|]. cbn [limits].
  intros Hl. apply lookup_insert_Some in Hl as [[_ <-]|[_ Hl]]; cbn;
    [lia|eauto].
Qed.

Lemma release_withinLimits jobType s :
  withinLimits s -> withinLimits (release jobType s).
Proof.
  intros Hinv. unfold release.
  destruct (limits s !! jobType) as [l0|] eqn:E; [|exact Hinv].
  apply processQueue_withinLimits.
  intros j limit. cbn [limits]. intros Hl.
  apply lookup_insert_Some in Hl as [[_ <-]|[_ Hl]]; cbn; [|eauto].
  pose proof (Hinv _ _ E). lia.
Qed.

Lemma run_withinLimits ops s : withinLimits s -> withinLimits (run s ops).
Proof.
  revert s; induction ops as [|o ops IH]; intros s Hinv; [exact Hinv|].
  cbn [run fold_left]. apply IH. destruct o; cbn [step].
  - apply acquireSlot_withinLimits; exact Hinv.
  - apply release_withinLimits; exact Hinv.
Qed.

Lemma sameMax_refl s : sameMax s s.
Proof. intros j l H. eauto. Qed.

Lemma sameMax_trans s0 s1 s2 : sameMax s0 s1 -> sameMax s1 s2 -> sameMax s0 s2.
Proof.
  intros H01 H12 j l H. destruct (H12 _ _ H) as (l1 & H1 & E1).
  destruct (H01 _ _ H1) as (l0 & H0 & E0). exists l0. split; [exact H0|lia].
Qed.

Lemma sameMax_insert s jobType l0 l' n lg :
  limits s !! jobType = Some l0 ->
  maxConcurrent l' = maxConcurrent l0 ->
  sameMax s (mk (<[jobType := l']> (limits s)) n lg).
Proof.
  intros E Hm j l. cbn [limits]. intros Hl.
  apply lookup_insert_Some in Hl as [[<- <-]|[_ Hl]]; eauto.
Qed.

Lemma acquireSlot_sameMax jobType s : sameMax s (acquireSlot jobType s).
Proof.
  unfold acquireSlot.
  destruct (limits s !! jobType) as [l0|] eqn:E;
    [|intros j l Hl; cbn [limits] in Hl; eauto].
  destruct (currentRunning l0 <? maxConcurrent l0);
    eapply sameMax_insert; eauto.
Qed.

Lemma processQueue_sameMax jobType s : sameMax s (processQueue jobType s).
Proof.
  unfold processQueue.
  destruct (limits s !! jobType) as [l0|] eqn:E; [|apply sameMax_refl].
  destruct (_ && _); [|apply sameMax_refl].
  destruct (queue l0); [apply sameMax_refl|].
  eapply sameMax_insert; eauto.
Qed.

Lemma release_sameMax jobType s : sameMax s (release jobType s).
Proof.
  unfold release.
  destruct (limits s !! jobType) as [l0|] eqn:E; [|apply sameMax_refl].
  eapply sameMax_trans; [|apply processQueue_sameMax].
  eapply sameMax_insert; eauto.
Qed.

Lemma run_sameMax ops s : sameMax s (run s ops).
Proof.
  revert s; induction ops as [|o ops IH]; intros s; [apply sameMax_refl|].
  cbn [run fold_left]. eapply sameMax_trans; [|apply IH].
  destruct o; [apply acquireSlot_sameMax | apply release_sameMax].
Qed.

Lemma queueOf_insert jobType l' m n lg j :
  queueOf j (mk (<[jobType := l']> m) n lg)
  = if decide (jobType = j) then queue l'
    else match m !! j with Some l => queue l | None => [] end.
Proof.
  unfold queueOf. cbn [limits]. rewrite lookup_insert.
  destruct (decide (jobType = j)); reflexivity.
Qed.

Lemma queuedOf_queueing j j' p :
  queuedOf j [QueueingJob j' p] = if decide (j' = j) then [p] else [].
Proof. cbn. destruct (decide (j' = j)); reflexivity. Qed.

Lemma resolvedFromQueueOf_resolved j j' p :
  resolvedFromQueueOf j [AcquiredQueuedSlot j' p]
  = if decide (j' = j) then [p] else [].
Proof. cbn. destruct (decide (j' = j)); reflexivity. Qed.

Lemma acquireSlot_fifo jobType s : fifo s -> fifo (acquireSlot jobType s).
Proof.
  intros Hinv j. specialize (Hinv j). unfold queueOf in Hinv.
  unfold acquireSlot.
  destruct (limits s !! jobType) as [l0|] eqn:E.
  2: { cbn [log]. rewrite queuedOf_app, resolvedFromQueueOf_app. cbn.
       rewrite !app_nil_r. exact Hinv. }
  destruct (currentRunning l0 <? maxConcurrent l0);
    cbn [log]; rewrite queuedOf_app, resolvedFromQueueOf_app, queueOf_insert.
  - cbn [queuedOf resolvedFromQueueOf omap queue]. rewrite !app_nil_r.
    destruct (decide (jobType = j)) as [->|Hne]; [rewrite E in Hinv|];
      exact Hinv.
  - rewrite queuedOf_queueing.
    cbn [resolvedFromQueueOf omap queue]. rewrite app_nil_r.
    destruct (decide (jobType = j)) as [->|Hne].
    + rewrite E in Hinv. rewrite Hinv, app_assoc. reflexivity.
    + rewrite app_nil_r. exact Hinv.
Qed.

Lemma processQueue_fifo jobType s : fifo s -> fifo (processQueue jobType s).
Proof.
  intros Hinv j. unfold processQueue.
  destruct (limits s !! jobType) as [l0|] eqn:E; [|apply Hinv].
  destruct (_ && _); [|apply Hinv].
  destruct (queue l0) as [|p rest] eqn:Q; [apply Hinv|].
  specialize (Hinv j). unfold queueOf in Hinv.
  cbn [log]. rewrite queuedOf_app, resolvedFromQueueOf_app, queueOf_insert.
  rewrite resolvedFromQueueOf_resolved.
  cbn [queuedOf omap queue]. rewrite app_nil_r.
  destruct (decide (jobType = j)) as [->|Hne].
  - rewrite E, Q in Hinv. rewrite Hinv, <- app_assoc. reflexivity.
  - rewrite app_nil_r. exact Hinv.
Qed.

Lemma release_fifo jobType s : fifo s -> fifo (release jobType s).
Proof.
  intros Hinv. unfold release.
  destruct (limits s !! jobType) as [l0|] eqn:E; [|exact Hinv].
  apply processQueue_fifo. intros j. specialize (Hinv j).
  cbn [log]. rewrite queuedOf_app, resolvedFromQueueOf_app, queueOf_insert.
  cbn [queuedOf resolvedFromQueueOf omap queue]. rewrite !app_nil_r.
  unfold queueOf in Hinv.
  destruct (decide (jobType = j)) as [->|Hne]; [rewrite E in Hinv|];
    exact Hinv.
Qed.

Lemma run_fifo ops s : fifo s -> fifo (run s ops).
Proof.
  revert s; induction ops as [|o ops IH]; intros s Hinv; [exact Hinv|].
  cbn [run fold_left]. apply IH. destruct o; cbn [step].
  - apply acquireSlot_fifo; exact Hinv.
  - apply release_fifo; exact Hinv.
Qed.

(** C3.  After every sequence of [acquireSlot] calls and releases on the
    configured service, [currentRunning] is at most [maxConcurrent] for
    every job type, and [maxConcurrent] is the configured one.  An
    [acquireSlot] that finds [currentRunning = maxConcurrent] resolves
    nothing and appends its continuation to the queue; no [acquireSlot]
    resolves a queued promise, a release on a non-empty queue resolves
    its head, and the queued promises are resolved in the order in which
    they were queued. *)
Theorem slots_stay_within_limit_and_waiters_are_served_in_order
    (ops : list op) :
  let s := run initial ops in
  withinLimits s
  /\ sameMax initial s
  /\ (forall jobType limit,
         limits s !! jobType = Some limit ->
         currentRunning limit = maxConcurrent limit ->
         let s' := acquireSlot jobType s in
         limits s' !! jobType
         = Some (mkLimit (maxConcurrent limit) (currentRunning limit)
                         (queue limit ++ [nextPromise s]))
         /\ log s' = log s ++ [QueueingJob jobType (nextPromise s)])
  /\ (forall jobType j,
         resolvedFromQueueOf j (log (acquireSlot jobType s))
         = resolvedFromQueueOf j (log s))
  /\ (forall jobType limit p rest,
         limits s !! jobType = Some limit ->
         queue limit = p :: rest ->
         log (release jobType s)
         = log s ++ [ReleasedSlot jobType; AcquiredQueuedSlot jobType p]
         /\ queueOf jobType (release jobType s) = rest)
  /\ fifo s.
Proof.
  intros s.
  assert (Hwithin : withinLimits s)
    by (apply run_withinLimits, initial_withinLimits).
  split; [exact Hwithin|].
  split; [apply run_sameMax|].
  split.
  { intros jobType limit Hl Hfull s'. unfold s', acquireSlot. rewrite Hl.
    destruct (Z.ltb_spec (currentRunning limit) (maxConcurrent limit));
      [lia|].
    cbn [limits log]. rewrite lookup_insert_eq. split; reflexivity. }
  split.
  { intros jobType j. unfold acquireSlot.
    destruct (limits s !! jobType) as [l0|];
      [destruct (currentRunning l0 <? maxConcurrent l0)|];
      cbn [log]; rewrite resolvedFromQueueOf_app; cbn;
      apply app_nil_r. }
  split.
  { intros jobType limit p rest Hl Hq.
    pose proof (Hwithin _ _ Hl) as Hle.
    unfold release. rewrite Hl. unfold processQueue. cbn [limits].
    rewrite lookup_insert_eq. cbn [queue currentRunning maxConcurrent].
    rewrite Hq. cbn [length].
    destruct (Z.ltb_spec 0 (Z.of_nat (S (length rest)))); [|lia].
    destruct (Z.ltb_spec (currentRunning limit - 1) (maxConcurrent limit));
      [|lia].
    cbn [andb log nextPromise]. rewrite queueOf_insert.
    destruct (decide (jobType = jobType)); [|congruence].
    rewrite <- app_assoc. split; reflexivity. }
  apply run_fifo, initial_fifo.
Qed.

End ConcurrencySlots.

Lemma slots_stay_within_limit_and_waiters_are_served_in_order_witness :
  let s := ConcurrencyControlService.run ConcurrencyControlService.initial
             [ConcurrencyControlService.Acquire "overdue-tasks-notification";
              ConcurrencyControlService.Acquire "overdue-tasks-notification"] in
  ConcurrencyControlService.log
    (ConcurrencyControlService.acquireSlot "overdue-tasks-notification" s)
  = ConcurrencyControlService.log s
    ++ [ConcurrencyControlService.QueueingJob "overdue-tasks-notification" 2%nat].
Proof.
  cbv zeta.
  destruct (slots_stay_within_limit_and_waiters_are_served_in_order
              [ConcurrencyControlService.Acquire "overdue-tasks-notification";
               ConcurrencyControlService.Acquire "overdue-tasks-notification"])
    as (_ & _ & Hfull & _).
  apply (Hfull "overdue-tasks-notification"
           (ConcurrencyControlService.mkLimit 2 2 []));
    vm_compute; reflexivity.
Defined.

Section CacheBackend.

Variable V : Type.
Variable stringify : V -> string.
Variable parse : string -> result V.
Variable md5_prefix : string -> Z.

Local Abbreviation cacheState := (CacheService.t V).
Local Abbreviation get := (CacheService.get V parse).
Local Abbreviation set := (CacheService.set V stringify md5_prefix).
Local Abbreviation delete := (CacheService.delete V).
Local Abbreviation mget := (CacheService.mget V parse).
Local Abbreviation mset := (CacheService.mset V stringify).
Local Abbreviation getRedis := (CacheService.getRedis V parse).
Local Abbreviation setRedis := (CacheService.setRedis V stringify).

Lemma onModuleInit_flag conn (s : cacheState) :
  CacheService.onModuleInit conn s
  = CacheService.mk (CacheService.cache s)
      (RedisConnectionService.isHealthy conn) (CacheService.redis s).
Proof.
  unfold CacheService.onModuleInit.
  destruct (RedisConnectionService.isHealthy conn); reflexivity.
Qed.

Lemma unhealthy_getConnectionForKey conn part key :
  RedisConnectionService.isHealthy conn = false ->
  RedisPartitioningService.getConnectionForKey md5_prefix conn part key
  = Throw (Error "Redis connection is not healthy").
Proof.
  intros H. unfold RedisPartitioningService.getConnectionForKey.
  rewrite H. reflexivity.
Qed.


End CacheBackend.

Section CacheKeys.

Variable V : Type.
Variable stringify : V -> string.
Variable parse : string -> result V.
Variable md5_prefix : string -> Z.

Local Abbreviation cacheState := (CacheService.t V).
Local Abbreviation get := (CacheService.get V parse).
Local Abbreviation set := (CacheService.set V stringify md5_prefix).
Local Abbreviation delete := (CacheService.delete V).
Local Abbreviation mget := (CacheService.mget V parse).
Local Abbreviation mset := (CacheService.mset V stringify).

Lemma getPrefixedKey_malformed key :
  CacheService.malformed key ->
  CacheService.getPrefixedKey key = Throw (Error "Invalid cache key").
Proof. destruct key; cbn; try reflexivity. intros ->. reflexivity. Qed.

Lemma getPrefixedKey_throws key e :
  CacheService.getPrefixedKey key = Throw e -> e = Error "Invalid cache key".
Proof.
  destruct key; cbn; try congruence.
  destruct (String.eqb s ""); congruence.
Qed.

Lemma prefixAll_malformed key keys :
  CacheService.malformed key -> In key keys ->
  CacheService.prefixAll keys = Throw (Error "Invalid cache key").
Proof.
  intros Hbad. induction keys as [|k keys IH]; [intros []|].
  intros [->|Hin]; cbn [CacheService.prefixAll].
  - rewrite (getPrefixedKey_malformed _ Hbad). reflexivity.
  - destruct (CacheService.getPrefixedKey k) as [pk|e] eqn:E; cbn.
    + rewrite (IH Hin). reflexivity.
    + rewrite (getPrefixedKey_throws _ _ E). reflexivity.
Qed.

Lemma mset_returns now pairs ttlSeconds (s : cacheState) :
  exists s', mset now pairs ttlSeconds s = (Ok tt, s').
Proof.
  unfold CacheService.mset.
  destruct (CacheService.isRedisAvailable s).
  - destruct (CacheService.msetRedis _ _ _ _ _ _) as [[u|e] r'];
      eexists; reflexivity.
  - destruct (CacheService.setAllMemory _ _ _ _) as [[u|e] s'];
      eexists; reflexivity.
Qed.


End CacheKeys.





(** * Further properties of the services *)

Section ConnectionRecovery.

Import RedisConnectionService.

(** X1.  The breaker counts consecutive failures: a health check that
    succeeds while the breaker is closed zeroes the counter, so up to four
    errors before it and up to four after it leave the breaker closed and
    [getConnection] working.  A health check made while the breaker is
    open changes nothing, whatever the ping would answer. *)
Theorem successful_health_check_restarts_the_failure_count
    (s : t) (before after : list string) (latency : Z) :
  circuitBreakerOpen s = false ->
  circuitBreakerFailures s = 0 ->
  (length before < 5)%nat ->
  (length after < 5)%nat ->
  let checked := performHealthCheck (Resolved latency) (errors before s) in
  let s' := errors after checked in
  isConnected checked = true
  /\ circuitBreakerFailures checked = 0
  /\ circuitBreakerOpen s' = false
  /\ circuitBreakerFailures s' = Z.of_nat (length after)
  /\ getConnection s' = Ok RedisClient
  /\ (forall s0 ping,
         circuitBreakerOpen s0 = true -> performHealthCheck ping s0 = s0).
Proof.
  intros Hopen Hzero Hb Ha checked s'.
  assert (Hclosed : circuitBreakerOpen (errors before s) = false).
  { rewrite errors_open_closed by assumption.
    unfold circuitBreakerThreshold. apply Z.leb_gt. lia. }
  assert (Hchecked : circuitBreakerOpen checked = false
                     /\ circuitBreakerFailures checked = 0
                     /\ isConnected checked = true).
  { unfold checked, performHealthCheck. rewrite Hclosed. cbn.
    rewrite Hclosed. auto. }
  destruct Hchecked as (Hco & Hcf & Hcc).
  assert (Hs' : circuitBreakerOpen s' = false).
  { unfold s'. rewrite errors_open_closed by assumption.
    unfold circuitBreakerThreshold. apply Z.leb_gt. lia. }
  repeat split; try assumption.
  - unfold s'. rewrite errors_failures, Hcf. lia.
  - unfold getConnection. rewrite Hs'. reflexivity.
  - intros s0 ping H0. unfold performHealthCheck. rewrite H0. reflexivity.
Qed.

Lemma successful_health_check_restarts_the_failure_count_witness :
  getConnection
    (errors ["e5"; "e6"; "e7"; "e8"]
       (performHealthCheck (Resolved 2)
          (errors ["e1"; "e2"; "e3"; "e4"] initial)))
  = Ok RedisClient.
Proof.
  apply (successful_health_check_restarts_the_failure_count initial
           ["e1"; "e2"; "e3"; "e4"] ["e5"; "e6"; "e7"; "e8"] 2);
    first [reflexivity | cbn; lia].
Defined.

Lemma repeat_snoc {A : Type} (x : A) n : repeat x (S n) = repeat x n ++ [x].
Proof. induction n as [|n IH]; [reflexivity|]. cbn in *. rewrite <- IH. reflexivity. Qed.

(** X2.  Every connection error that finds the counter at four or more
    schedules one more reset: from a closed breaker with no recorded
    failure, [n] errors leave [n - 4] pending resets, all due 30000 ms
    after the (unchanged) clock.  The first of them, when it runs, closes
    the breaker and zeroes the counter although errors went on after the
    breaker had opened. *)
Theorem every_error_at_the_threshold_schedules_another_reset
    (s : t) (ms : list string) :
  circuitBreakerOpen s = false ->
  circuitBreakerFailures s = 0 ->
  timers (errors ms s)
  = timers s ++ repeat (clock s + 30000, BreakerReset) (length ms - 4)
  /\ ((5 <= length ms)%nat ->
      let s' := step (step (errors ms s) (Elapse 30000))
                  (CooldownElapsed (length (timers s))) in
      circuitBreakerOpen (errors ms s) = true
      /\ circuitBreakerOpen s' = false
      /\ circuitBreakerFailures s' = 0
      /\ length (timers s') = (length (timers s) + (length ms - 5))%nat).
Proof.
  intros Hopen Hzero.
  assert (Htimers : forall ms,
             timers (errors ms s)
             = timers s ++ repeat (clock s + 30000, BreakerReset) (length ms - 4)).
  { clear ms. intros ms. induction ms as [|m ms IH] using rev_ind.
    - cbn. rewrite app_nil_r. reflexivity.
    - rewrite errors_app. cbn [errors fold_left]. rewrite length_app.
      cbn [length].
      destruct (le_lt_dec 4 (length ms)) as [Hge|Hlt].
      + rewrite handleConnectionError_schedules
          by (rewrite errors_failures, Hzero; unfold circuitBreakerThreshold; lia).
        rewrite IH, errors_clock.
        replace (length ms + 1 - 4)%nat with (S (length ms - 4)) by lia.
        rewrite repeat_snoc, app_assoc. reflexivity.
      + replace (length ms + 1 - 4)%nat with 0%nat by lia.
        replace (length ms - 4)%nat with 0%nat in IH by lia.
        rewrite <- IH. unfold handleConnectionError; cbn.
        rewrite errors_failures, Hzero. unfold circuitBreakerThreshold.
        destruct (Z.leb_spec 5 (0 + Z.of_nat (length ms) + 1)); [lia|].
        reflexivity. }
  split; [apply Htimers|].
  intros Hn s'.
  assert (Ho : circuitBreakerOpen (errors ms s) = true).
  { rewrite errors_open_closed by assumption.
    unfold circuitBreakerThreshold. apply Z.leb_le. lia. }
  split; [exact Ho|].
  unfold s'. clear s'.
  remember (step (errors ms s) (Elapse 30000)) as s1 eqn:Hs1.
  assert (Ht1 : timers s1
                = timers s ++ (clock s + 30000, BreakerReset)
                              :: repeat (clock s + 30000, BreakerReset)
                                   (length ms - 5)).
  { rewrite Hs1. cbn. rewrite Htimers.
    replace (length ms - 4)%nat with (S (length ms - 5)) by lia.
    reflexivity. }
  assert (Hc1 : clock s1 = clock s + 30000).
  { rewrite Hs1. cbn. rewrite errors_clock. lia. }
  assert (Hk : timers s1 !! length (timers s)
               = Some (clock s + 30000, BreakerReset)).
  { rewrite Ht1. apply list_lookup_middle. reflexivity. }
  destruct (cooldown_fires _ _ _ Hk) as (H1 & H2 & _); [lia|].
  split; [exact H1|]. split; [exact H2|].
  cbn [step]. unfold fireTimer. rewrite Hk, Hc1.
  destruct (Z.leb_spec (clock s + 30000) (clock s + 30000)); [|lia].
  cbn. rewrite length_delete by eauto.
  rewrite Ht1, length_app. cbn [length]. rewrite repeat_length. lia.
Qed.

Lemma every_error_at_the_threshold_schedules_another_reset_witness :
  timers (errors ["a"; "b"; "c"; "d"; "e"; "f"; "g"] initial)
  = [(30000, BreakerReset); (30000, BreakerReset); (30000, BreakerReset)].
Proof.
  apply (every_error_at_the_threshold_schedules_another_reset initial
           ["a"; "b"; "c"; "d"; "e"; "f"; "g"]); reflexivity.
Defined.

Lemma handleConnectionError_attempts m s :
  reconnectAttempts (handleConnectionError m s) = reconnectAttempts s.
Proof.
  unfold handleConnectionError; cbn.
  destruct (circuitBreakerThreshold <=? circuitBreakerFailures s + 1); reflexivity.
Qed.

Lemma step_attempts_nonneg s e :
  0 <= reconnectAttempts s -> 0 <= reconnectAttempts (step s e).
Proof.
  intros H.
  destruct e as [ | |m| | |ping|ping|k|k probe| |dt]; cbn [step].
  - cbn. lia.
  - exact H.
  - unfold onError. rewrite handleConnectionError_attempts. exact H.
  - unfold onClose, attemptReconnect. cbn.
    destruct (maxReconnectAttempts <=? reconnectAttempts s); [exact H|].
    destruct (circuitBreakerOpen s); exact H.
  - cbn. lia.
  - unfold performHealthCheck, healthCheckSettles.
    destruct (circuitBreakerOpen s); [exact H|].
    destruct ping; [exact H | rewrite handleConnectionError_attempts; exact H].
  - unfold healthCheckSettles.
    destruct ping; [exact H | rewrite handleConnectionError_attempts; exact H].
  - unfold fireTimer. destruct (timers s !! k) as [[due cb]|]; [|exact H].
    destruct (_ && _); [|exact H].
    destruct cb; cbn; [exact H|].
    rewrite handleConnectionError_attempts. exact H.
  - unfold fireTimer. destruct (timers s !! k) as [[due cb]|]; [|exact H].
    destruct (_ && _); [|exact H].
    destruct cb; [exact H|]. unfold runTimer, initializeConnection.
    destruct probe; cbn [testConnection]; [exact H|].
    rewrite handleConnectionError_attempts. exact H.
  - exact H.
  - exact H.
Qed.

Lemma run_attempts_nonneg es s :
  0 <= reconnectAttempts s -> 0 <= reconnectAttempts (run s es).
Proof.
  revert s; induction es as [|e es IH]; intros s H; [exact H|].
  cbn [run fold_left]. apply IH, step_attempts_nonneg, H.
Qed.

(** X3.  Whatever events the service has seen, its reconnection counter
    is never negative, and a close event marks the service unhealthy and
    schedules at most one reconnection: none while the breaker is open or
    after ten attempts, otherwise exactly one, due
    [1000 * 2 ^ reconnectAttempts] ms later, which is between one second
    and 512 seconds. *)
Theorem reconnection_backoff_is_exponential_and_bounded (es : list event) :
  let s := run initial es in
  0 <= reconnectAttempts s
  /\ isHealthy (step s Close) = false
  /\ (circuitBreakerOpen s = true \/ 10 <= reconnectAttempts s ->
      timers (step s Close) = timers s)
  /\ (circuitBreakerOpen s = false ->
      reconnectAttempts s < 10 ->
      let delay := 1000 * 2 ^ reconnectAttempts s in
      1000 <= delay <= 512000
      /\ timers (step s Close)
         = timers s ++ [(clock s + delay, ReconnectAttempt)]).
Proof.
  intros s.
  assert (Hnn : 0 <= reconnectAttempts s)
    by (apply run_attempts_nonneg; cbn; lia).
  split; [exact Hnn|].
  split.
  { cbn [step]. unfold onClose, attemptReconnect, isHealthy. cbn.
    destruct (maxReconnectAttempts <=? reconnectAttempts s); [reflexivity|].
    destruct (circuitBreakerOpen s); reflexivity. }
  split.
  { intros Hskip. cbn [step]. unfold onClose, attemptReconnect. cbn.
    unfold maxReconnectAttempts.
    destruct (Z.leb_spec 10 (reconnectAttempts s)); [reflexivity|].
    destruct Hskip as [Ho|Hge]; [rewrite Ho; reflexivity | lia]. }
  intros Ho Hlt delay. split.
  - unfold delay.
    assert (1 <= 2 ^ reconnectAttempts s)
      by (pose proof (Z.pow_pos_nonneg 2 (reconnectAttempts s)); lia).
    assert (2 ^ reconnectAttempts s <= 2 ^ 9)
      by (apply Z.pow_le_mono_r; lia).
    change (2 ^ 9) with 512 in *. lia.
  - cbn [step]. unfold onClose, attemptReconnect. cbn.
    unfold maxReconnectAttempts.
    destruct (Z.leb_spec 10 (reconnectAttempts s)); [lia|].
    rewrite Ho. reflexivity.
Qed.

End ConnectionRecovery.

Section Rebalancing.

Import ConsistentHashingStrategy.

Variable md5_prefix : string -> Z.

Local Abbreviation hash := (hash md5_prefix).
Local Abbreviation virtualPoints := (virtualPoints md5_prefix).
Local Abbreviation buildRing := (buildRing md5_prefix).
Local Abbreviation getNodeForKey := (getNodeForKey md5_prefix).

(** [keep] selects the nodes that stay; a ring entry stays with its node. *)
Variable keep : string -> bool.

Local Abbreviation keepEntry := (fun rn : ringNode => keep (rn_node rn)).

Lemma insertByHash_front a l :
  Forall (ascending a) l -> insertByHash a l = a :: l.
Proof.
  destruct l as [|b l]; [reflexivity|]. intros H.
  apply Forall_cons in H as [Hab _]. cbn. unfold ascending in Hab.
  destruct (Z.leb_spec (rn_hash a - rn_hash b) 0); [reflexivity | lia].
Qed.

Lemma Forall_list_filter {A : Type} (P : A -> Prop) (f : A -> bool) l :
  Forall P l -> Forall P (List.filter f l).
Proof.
  induction 1 as [|x l Hx Hl IH]; cbn; [constructor|].
  destruct (f x); [constructor|]; assumption.
Qed.

Lemma filter_insertByHash a l :
  StronglySorted ascending l ->
  List.filter keepEntry (insertByHash a l)
  = if keep (rn_node a) then insertByHash a (List.filter keepEntry l)
    else List.filter keepEntry l.
Proof.
  induction l as [|b l IH]; intros Hs.
  - cbn. destruct (keep (rn_node a)); reflexivity.
  - inversion Hs as [|? ? Hl Hb]; subst. cbn [insertByHash].
    destruct (Z.leb_spec (rn_hash a - rn_hash b) 0) as [Hle|Hgt].
    + assert (Hall : Forall (ascending a) (List.filter keepEntry (b :: l))).
      { apply Forall_list_filter. constructor; [unfold ascending; lia|].
        eapply Forall_impl; [exact Hb|]. unfold ascending. intros; lia. }
      rewrite (insertByHash_front _ _ Hall).
      change (List.filter keepEntry (a :: b :: l))
        with (if keep (rn_node a)
              then a :: List.filter keepEntry (b :: l)
              else List.filter keepEntry (b :: l)).
      reflexivity.
    + cbn [List.filter]. rewrite (IH Hl).
      destruct (keep (rn_node b)) eqn:Kb, (keep (rn_node a)) eqn:Ka;
        try reflexivity.
      cbn [insertByHash].
      destruct (Z.leb_spec (rn_hash a - rn_hash b) 0); [lia | reflexivity].
Qed.

Lemma filter_sortByHash l :
  List.filter keepEntry (sortByHash l) = sortByHash (List.filter keepEntry l).
Proof.
  induction l as [|a l IH]; [reflexivity|].
  cbn [sortByHash fold_right]. fold (sortByHash l).
  rewrite filter_insertByHash by apply sortByHash_sorted.
  cbn [List.filter]. rewrite IH.
  destruct (keep (rn_node a)); reflexivity.
Qed.

Lemma filter_virtualPoints node :
  List.filter keepEntry (virtualPoints node)
  = if keep node then virtualPoints node else [].
Proof.
  unfold ConsistentHashingStrategy.virtualPoints.
  induction (seq 0 virtualNodes) as [|i l IH]; cbn.
  - destruct (keep node); reflexivity.
  - rewrite IH. destruct (keep node); reflexivity.
Qed.

Lemma buildRing_filter nodes :
  buildRing (List.filter keep nodes)
  = List.filter keepEntry (buildRing nodes).
Proof.
  unfold ConsistentHashingStrategy.buildRing. rewrite filter_sortByHash. f_equal.
  induction nodes as [|n nodes IH]; [reflexivity|].
  cbn [flat_map List.filter]. rewrite List.filter_app, filter_virtualPoints, <- IH.
  destruct (keep n); reflexivity.
Qed.

Lemma firstAtOrAfter_filter h ring node :
  firstAtOrAfter h ring = Some node ->
  keep node = true ->
  firstAtOrAfter h (List.filter keepEntry ring) = Some node.
Proof.
  induction ring as [|b ring IH]; cbn; [discriminate|].
  destruct (h <=? rn_hash b) eqn:E.
  - intros [= <-] Hk. rewrite Hk. cbn. rewrite E. reflexivity.
  - intros H Hk. destruct (keep (rn_node b)); cbn; [rewrite E|]; auto.
Qed.

Lemma firstAtOrAfter_filter_none h ring :
  firstAtOrAfter h ring = None ->
  firstAtOrAfter h (List.filter keepEntry ring) = None.
Proof.
  induction ring as [|b ring IH]; cbn; [reflexivity|].
  destruct (h <=? rn_hash b) eqn:E; [discriminate|].
  intros H. destruct (keep (rn_node b)); cbn; [rewrite E|]; auto.
Qed.

(** X4.  Consistent hashing moves as little as it can.  When the strategy
    is rebuilt for the nodes that [keep] selects, every key whose node is
    kept stays on that node; so a key changes node only if its old node
    went away, and the ring of the smaller node list is the old ring
    without the entries of the dropped nodes. *)
Theorem dropping_nodes_moves_only_their_keys
    (nodes : list string) (key node : string) :
  getNodeForKey (new md5_prefix nodes) key = Ok node ->
  keep node = true ->
  getNodeForKey (new md5_prefix (List.filter keep nodes)) key = Ok node
  /\ ring (new md5_prefix (List.filter keep nodes))
     = List.filter keepEntry (ring (new md5_prefix nodes)).
Proof.
  intros Hnode Hkeep. split; [|apply buildRing_filter].
  rewrite getNodeForKey_eq in *. cbn [ring new] in *.
  rewrite buildRing_filter.
  destruct (firstAtOrAfter (hash key) (buildRing nodes)) as [n|] eqn:E.
  - injection Hnode as ->.
    rewrite (firstAtOrAfter_filter _ _ _ E Hkeep). reflexivity.
  - rewrite (firstAtOrAfter_filter_none _ _ E).
    destruct (buildRing nodes) as [|b r]; [discriminate Hnode|].
    cbn in Hnode. injection Hnode as <-. cbn. rewrite Hkeep. reflexivity.
Qed.

End Rebalancing.

Lemma dropping_nodes_moves_only_their_keys_witness :
  ConsistentHashingStrategy.getNodeForKey lengthDigest
    (ConsistentHashingStrategy.new lengthDigest
       (List.filter (fun n => negb (String.eqb n "b")) ["a"; "b"; "c"]))
    "k"
  = Ok "a".
Proof.
  apply (dropping_nodes_moves_only_their_keys lengthDigest
           (fun n => negb (String.eqb n "b")) ["a"; "b"; "c"] "k" "a");
    vm_compute; reflexivity.
Defined.

Section KeyDistribution.

Import RedisPartitioningService.

Variable md5_prefix : string -> Z.

Local Abbreviation getNodeForKey := (CHS.getNodeForKey md5_prefix).
Local Abbreviation distributeInto := (distributeInto md5_prefix).
Local Abbreviation distributeKeys := (distributeKeys md5_prefix).
Local Abbreviation getKeysToMigrate := (getKeysToMigrate md5_prefix).
Local Abbreviation rebalanceKeys := (rebalanceKeys md5_prefix).
Local Abbreviation assignedTo := (assignedTo md5_prefix).

Lemma getNodeForKey_total strategy key :
  CHS.ring strategy <> [] -> exists node, getNodeForKey strategy key = Ok node.
Proof.
  intros Hring. rewrite getNodeForKey_eq.
  destruct (CHS.firstAtOrAfter _ _) as [n|]; [eauto|].
  destruct (CHS.ring strategy); [congruence|]. cbn. eauto.
Qed.

Lemma getNodeForKey_empty strategy key :
  CHS.ring strategy = [] -> getNodeForKey strategy key = Throw CHS.undefinedNode.
Proof. intros Hring. rewrite getNodeForKey_eq, Hring. reflexivity. Qed.

Lemma keysOn_pushKey node n key d :
  keysOn node (pushKey n key d)
  = if String.eqb n node then keysOn node d ++ [key] else keysOn node d.
Proof.
  induction d as [|[n' ks] d IH]; cbn.
  - destruct (String.eqb n node); reflexivity.
  - destruct (String.eqb_spec n' n) as [->|Hne]; cbn.
    + destruct (String.eqb n node); reflexivity.
    + rewrite IH.
      destruct (String.eqb_spec n' node) as [->|Hne'];
        destruct (String.eqb_spec n node) as [->|Hne'']; congruence.
Qed.

Lemma pushKey_nodes n key d :
  map fst (pushKey n key d)
  = if bool_decide (n ∈ map fst d) then map fst d else map fst d ++ [n].
Proof.
  induction d as [|[n' ks] d IH]; cbn; [reflexivity|].
  destruct (String.eqb_spec n' n) as [->|Hne]; cbn.
  - rewrite bool_decide_eq_true_2 by (left). reflexivity.
  - rewrite IH. destruct (bool_decide (n ∈ map fst d)) eqn:E.
    + apply bool_decide_eq_true_1 in E.
      rewrite bool_decide_eq_true_2 by (right; exact E). reflexivity.
    + apply bool_decide_eq_false_1 in E.
      rewrite bool_decide_eq_false_2; [reflexivity|].
      intros H. apply elem_of_cons in H as [->|H]; [congruence|auto].
Qed.

Lemma pushKey_NoDup n key d :
  NoDup (map fst d) -> NoDup (map fst (pushKey n key d)).
Proof.
  intros H. rewrite pushKey_nodes.
  destruct (bool_decide (n ∈ map fst d)) eqn:E; [exact H|].
  apply bool_decide_eq_false_1 in E.
  apply NoDup_app. split; [exact H|]. split.
  - intros x Hx Hx'. apply list_elem_of_singleton in Hx'. subst. auto.
  - apply NoDup_singleton.
Qed.

Lemma pushKey_non_empty n key d :
  Forall (fun entry => entry.2 <> []) d ->
  Forall (fun entry => entry.2 <> []) (pushKey n key d).
Proof.
  induction 1 as [|[n' ks] d Hx Hd IH]; cbn.
  - constructor; [discriminate | constructor].
  - destruct (String.eqb n' n); constructor; auto.
    cbn in *. destruct ks; discriminate.
Qed.

Lemma distributeInto_spec s keys d0 :
  CHS.ring (partitioningStrategy s) <> [] ->
  exists d,
    distributeInto s keys d0 = Ok d
    /\ (NoDup (map fst d0) -> NoDup (map fst d))
    /\ (Forall (fun entry => entry.2 <> []) d0 ->
        Forall (fun entry => entry.2 <> []) d)
    /\ forall node,
        keysOn node d = keysOn node d0 ++ List.filter (assignedTo s node) keys.
Proof.
  intros Hring. revert d0.
  induction keys as [|key keys IH]; intros d0.
  - exists d0. cbn. repeat split; auto. intros node. rewrite app_nil_r.
    reflexivity.
  - destruct (getNodeForKey_total _ key Hring) as [n Hn].
    destruct (IH (pushKey n key d0)) as (d & Hd & Hnd & Hne & Hkeys).
    exists d. cbn [RedisPartitioningService.distributeInto].
    rewrite Hn. cbn [bind]. split; [exact Hd|].
    split; [intros H; apply Hnd, pushKey_NoDup, H|].
    split; [intros H; apply Hne, pushKey_non_empty, H|].
    intros node. rewrite Hkeys, keysOn_pushKey. cbn [List.filter].
    unfold RedisPartitioningService.assignedTo at 2. rewrite Hn.
    destruct (String.eqb n node); [rewrite <- app_assoc|]; reflexivity.
Qed.

(** X5.  [distributeKeys] files every key under the node the strategy
    assigns it to: with a non-empty ring it returns a map whose node names
    are distinct, none of whose lists is empty, and where the list of each
    node is the sub-list of the given keys assigned to it, in the given
    order.  With an empty ring it throws a [TypeError] as soon as there is
    a key, and returns the empty map when there is none. *)
Theorem distributeKeys_files_every_key_under_its_node s keys :
  (CHS.ring (partitioningStrategy s) <> [] ->
   exists d,
     distributeKeys s keys = Ok d
     /\ NoDup (map fst d)
     /\ Forall (fun entry => entry.2 <> []) d
     /\ forall node, keysOn node d = List.filter (assignedTo s node) keys)
  /\ (CHS.ring (partitioningStrategy s) = [] ->
      keys <> [] ->
      distributeKeys s keys = Throw CHS.undefinedNode)
  /\ distributeKeys s [] = Ok [].
Proof.
  split; [|split; [|reflexivity]].
  - intros Hring.
    destruct (distributeInto_spec s keys [] Hring) as (d & Hd & Hnd & Hne & Hk).
    exists d. split; [exact Hd|].
    split; [apply Hnd; constructor|].
    split; [apply Hne; constructor|]. exact Hk.
  - intros Hring Hkeys. destruct keys as [|key keys]; [congruence|].
    unfold RedisPartitioningService.distributeKeys.
    cbn [RedisPartitioningService.distributeInto].
    rewrite (getNodeForKey_empty _ _ Hring). reflexivity.
Qed.

End KeyDistribution.

Lemma distributeKeys_files_every_key_under_its_node_witness :
  exists d,
    RedisPartitioningService.distributeKeys lengthDigest
      (RedisPartitioningService.new lengthDigest) ["k"; "some-long-key"; "q"]
    = Ok d
    /\ NoDup (map fst d)
    /\ Forall (fun entry => entry.2 <> []) d
    /\ forall node,
        RedisPartitioningService.keysOn node d
        = List.filter
            (RedisPartitioningService.assignedTo lengthDigest
               (RedisPartitioningService.new lengthDigest) node)
            ["k"; "some-long-key"; "q"].
Proof.
  apply (proj1 (distributeKeys_files_every_key_under_its_node lengthDigest
                  (RedisPartitioningService.new lengthDigest)
                  ["k"; "some-long-key"; "q"])).
  vm_compute. intros H. discriminate H.
Defined.

Section KeyMigration.

Import RedisPartitioningService.

Variable md5_prefix : string -> Z.

Local Abbreviation distributeKeys := (distributeKeys md5_prefix).
Local Abbreviation getKeysToMigrate := (getKeysToMigrate md5_prefix).
Local Abbreviation rebalanceKeys := (rebalanceKeys md5_prefix).
Local Abbreviation assignedTo := (assignedTo md5_prefix).

Lemma getKeysToMigrate_filter s removedNode allKeys :
  CHS.ring (partitioningStrategy s) <> [] ->
  getKeysToMigrate s removedNode allKeys
  = Ok (List.filter (assignedTo s removedNode) allKeys).
Proof.
  intros Hring. induction allKeys as [|key keys IH]; [reflexivity|].
  cbn [RedisPartitioningService.getKeysToMigrate List.filter].
  unfold RedisPartitioningService.assignedTo at 1.
  destruct (getNodeForKey_total md5_prefix _ key Hring) as [n Hn].
  rewrite Hn, IH. cbn [bind]. reflexivity.
Qed.

Lemma list_filter_none {A : Type} (f : A -> bool) l :
  (forall x, f x = false) -> List.filter f l = [].
Proof.
  intros H. induction l as [|x l IH]; [reflexivity|].
  cbn. rewrite H. exact IH.
Qed.

(** X6.  [getKeysToMigrate(removedNode, allKeys)] is the list that
    [distributeKeys(allKeys)] files under [removedNode] (empty when that
    node holds none of them).  After [rebalanceKeys] onto the configured
    nodes without [removedNode], every other key is filed under the node
    it was on before: only the keys to migrate change node. *)
Theorem only_the_keys_to_migrate_change_node
    (configured : list string) (totalPartitions : Z) (removedNode : string)
    (allKeys : list string) :
  let s := mk (CHS.new md5_prefix configured) totalPartitions configured in
  let remaining :=
    List.filter (fun n => negb (String.eqb n removedNode)) configured in
  remaining <> [] ->
  exists before after toMigrate,
    distributeKeys s allKeys = Ok before
    /\ getKeysToMigrate s removedNode allKeys = Ok toMigrate
    /\ toMigrate = keysOn removedNode before
    /\ (rebalanceKeys allKeys remaining s).1 = Ok after
    /\ nodes ((rebalanceKeys allKeys remaining s).2) = remaining
    /\ keysOn removedNode after = []
    /\ forall key node,
        In key allKeys ->
        In key (keysOn node before) ->
        node <> removedNode ->
        In key (keysOn node after).
Proof.
  intros s remaining Hrem.
  assert (Hnodes : configured <> []).
  { intros ->. apply Hrem. reflexivity. }
  assert (Hring : CHS.ring (partitioningStrategy s) <> [])
    by (apply buildRing_nonempty, Hnodes).
  set (s' := (rebalanceKeys allKeys remaining s).2).
  assert (Hring' : CHS.ring (partitioningStrategy s') <> [])
    by (apply buildRing_nonempty, Hrem).
  destruct (proj1 (distributeKeys_files_every_key_under_its_node
                     md5_prefix s allKeys) Hring)
    as (before & Hb & _ & _ & Hbk).
  destruct (proj1 (distributeKeys_files_every_key_under_its_node
                     md5_prefix s' allKeys) Hring')
    as (after & Ha & _ & _ & Hak).
  exists before, after, (List.filter (assignedTo s removedNode) allKeys).
  split; [exact Hb|].
  split; [apply getKeysToMigrate_filter, Hring|].
  split; [symmetry; apply Hbk|].
  split; [exact Ha|].
  split; [reflexivity|].
  split.
  { rewrite Hak.
    assert (Hnone : forall key, assignedTo s' removedNode key = false).
    { intros key. unfold RedisPartitioningService.assignedTo.
      destruct (CHS.getNodeForKey _ _ key) as [n|] eqn:E; [|reflexivity].
      rewrite getNodeForKey_eq in E. cbn [CHS.ring CHS.new s' snd
        RedisPartitioningService.rebalanceKeys partitioningStrategy] in E.
      assert (Hin : In n remaining).
      { destruct (CHS.firstAtOrAfter _ _) as [n'|] eqn:E'.
        - injection E as <-.
          apply firstAtOrAfter_In in E' as (rn & Hin & <-).
          apply (buildRing_node md5_prefix), Hin.
        - pose proof (buildRing_node md5_prefix remaining) as Hnode.
          destruct (CHS.buildRing md5_prefix remaining) as [|b r];
            [discriminate E|].
          cbn in E. injection E as <-. apply Hnode. left. reflexivity. }
      apply List.filter_In in Hin as [_ Hin].
      destruct (String.eqb n removedNode); [discriminate Hin | reflexivity]. }
    apply list_filter_none, Hnone. }
  intros key node Hkey Hon Hne.
  rewrite Hbk in Hon. rewrite Hak.
  apply List.filter_In in Hon as [_ Hon]. apply List.filter_In.
  split; [exact Hkey|].
  unfold RedisPartitioningService.assignedTo in *.
  destruct (CHS.getNodeForKey md5_prefix (partitioningStrategy s) key)
    as [n|] eqn:E; [|discriminate Hon].
  apply String.eqb_eq in Hon. subst n.
  assert (Hkeep : negb (String.eqb node removedNode) = true).
  { destruct (String.eqb_spec node removedNode); [congruence | reflexivity]. }
  destruct (dropping_nodes_moves_only_their_keys md5_prefix
              (fun n => negb (String.eqb n removedNode)) configured key node E Hkeep)
    as [E' _].
  cbn [s' snd RedisPartitioningService.rebalanceKeys partitioningStrategy].
  fold remaining in E'. rewrite E'. apply String.eqb_refl.
Qed.

(** X7.  The digest being a 32-bit number read by [parseInt], hence not
    negative, [getPartition] returns an index below [totalPartitions], and
    the service, which uses 1000 partitions, one below 1000. *)
Theorem partition_index_is_within_range (key : string) (total : Z) :
  (forall k, 0 <= md5_prefix k) ->
  0 < total ->
  0 <= CHS.getPartition md5_prefix key total < total
  /\ 0 <= getPartitionForKey md5_prefix
            (RedisPartitioningService.new md5_prefix) key < 1000.
Proof.
  intros Hnn Hpos. unfold getPartitionForKey, CHS.getPartition, CHS.hash.
  cbn [totalPartitions RedisPartitioningService.new].
  split; apply Z.rem_bound_pos; auto; lia.
Qed.

End KeyMigration.

Lemma only_the_keys_to_migrate_change_node_witness :
  exists before after toMigrate,
    RedisPartitioningService.distributeKeys lengthDigest
      (RedisPartitioningService.new lengthDigest) ["k"; "some-long-key"]
    = Ok before
    /\ RedisPartitioningService.getKeysToMigrate lengthDigest
         (RedisPartitioningService.new lengthDigest) "redis-node-2:6379"
         ["k"; "some-long-key"]
       = Ok toMigrate
    /\ toMigrate = RedisPartitioningService.keysOn "redis-node-2:6379" before
    /\ (RedisPartitioningService.rebalanceKeys lengthDigest
          ["k"; "some-long-key"]
          ["redis-node-1:6379"; "redis-node-3:6379"]
          (RedisPartitioningService.new lengthDigest)).1 = Ok after
    /\ RedisPartitioningService.nodes
         (RedisPartitioningService.rebalanceKeys lengthDigest
            ["k"; "some-long-key"]
            ["redis-node-1:6379"; "redis-node-3:6379"]
            (RedisPartitioningService.new lengthDigest)).2
       = ["redis-node-1:6379"; "redis-node-3:6379"]
    /\ RedisPartitioningService.keysOn "redis-node-2:6379" after = []
    /\ forall key node,
        In key ["k"; "some-long-key"] ->
        In key (RedisPartitioningService.keysOn node before) ->
        node <> "redis-node-2:6379" ->
        In key (RedisPartitioningService.keysOn node after).
Proof.
  apply (only_the_keys_to_migrate_change_node lengthDigest
           RedisPartitioningService.defaultNodes 1000 "redis-node-2:6379"
           ["k"; "some-long-key"]).
  vm_compute. intros H. discriminate H.
Defined.

Lemma partition_index_is_within_range_witness :
  0 <= ConsistentHashingStrategy.getPartition lengthDigest "task:42" 16 < 16.
Proof.
  apply (partition_index_is_within_range lengthDigest "task:42" 16).
  - intros k. unfold lengthDigest. lia.
  - lia.
Defined.

Section RateLimiterMemory.

Import RateLimitService.

Variable md5_prefix : string -> Z.

Local Abbreviation checkRateLimit := (RateLimitService.checkRateLimit md5_prefix).
Local Abbreviation checks := (RateLimitService.checks md5_prefix).

Lemma checks_in_window conn part key options identifier rest s c rt lim :
  RedisConnectionService.isHealthy conn = false
  \/ ConsistentHashingStrategy.ring
       (RedisPartitioningService.partitioningStrategy part) = [] ->
  inMemoryStore s !! generateKey key identifier = Some (mkWindow c rt lim) ->
  Forall (fun now => atMemory now <= rt) rest ->
  forall (i : nat) now,
    rest !! i = Some now ->
    (checks conn part key options identifier rest s).1 !! i
    = Some (Ok (let n := c + 1 + Z.of_nat i in
                mkResult (n <=? limit options) (limit options) n
                  (Z.max 0 (limit options - n)) rt
                  (if negb (n <=? limit options)
                   then Num (ceil_div (rt - atMemory now) 1000) else Undefined))).
Proof.
  intros Hmem Hw Hall. revert s c Hmem Hw.
  induction Hall as [|now0 rest Hnow0 Hall IH]; intros s c Hmem Hw i now Hi.
  - destruct i; discriminate Hi.
  - cbn [RateLimitService.checks].
    rewrite (checkRateLimit_memory_path md5_prefix conn part now0) by exact Hmem.
    rewrite (memory_next _ _ _ _ c rt lim Hw Hnow0). cbn [fst snd].
    pose proof (IH (mk (<[generateKey key identifier :=
                            mkWindow (c + 1) rt lim]> (inMemoryStore s))
                       (redis s))
                   (c + 1) Hmem (lookup_insert_eq _ _ _)) as IHs.
    destruct (RateLimitService.checks _ _ _ _ _ _ rest _) as [rs s2].
    destruct i as [|i].
    + cbn in Hi. injection Hi as <-. cbn zeta.
      replace (c + 1 + Z.of_nat 0) with (c + 1) by lia. reflexivity.
    + cbn in Hi. cbn [fst lookup list_lookup].
      specialize (IHs i now Hi). cbn [fst] in IHs.
      replace (c + 1 + Z.of_nat (S i)) with (c + 1 + 1 + Z.of_nat i) by lia.
      exact IHs.
Qed.

(** X8.  On the in-memory path (the manager is unhealthy, or the ring
    has no node), for any limit and window length: the check that opens
    a window is answered [allowed] with [current = 1] and
    [remaining = limit - 1], and the [k]-th check after it that arrives by
    the window's reset time has [current = k + 1], is allowed exactly when
    [k + 1 <= limit], shows [remaining = max(0, limit - (k + 1))] and the
    same reset time, and carries [retryAfter] exactly when refused. *)
Theorem kth_check_of_a_window_is_allowed_iff_within_limit
    conn part key options identifier s (first : readings)
    (rest : list readings) :
  RedisConnectionService.isHealthy conn = false
  \/ ConsistentHashingStrategy.ring
       (RedisPartitioningService.partitioningStrategy part) = [] ->
  match inMemoryStore s !! generateKey key identifier with
  | None => True
  | Some w => w_resetTime w < atMemory first
  end ->
  Forall (fun now => atMemory now <= atMemory first + windowMs options) rest ->
  let resetTime := atMemory first + windowMs options in
  let answers :=
    (checks conn part key options identifier (first :: rest) s).1 in
  answers !! 0%nat
  = Some (Ok (mkResult true (limit options) 1 (limit options - 1)
                resetTime Undefined))
  /\ length answers = S (length rest)
  /\ forall (k : nat) now,
      rest !! k = Some now ->
      answers !! S k
      = Some (Ok (let n := Z.of_nat k + 2 in
                  mkResult (n <=? limit options) (limit options) n
                    (Z.max 0 (limit options - n)) resetTime
                    (if negb (n <=? limit options)
                     then Num (ceil_div (resetTime - atMemory now) 1000)
                     else Undefined))).
Proof.
  intros Hmem Hfresh Hall resetTime answers. unfold answers.
  cbn [RateLimitService.checks].
  rewrite (checkRateLimit_memory_path md5_prefix conn part first) by exact Hmem.
  rewrite memory_start by exact Hfresh. cbn [fst snd].
  destruct (RateLimitService.checks _ _ _ _ _ _ rest _) as [rs s2] eqn:E.
  cbn [fst]. split; [reflexivity|]. split.
  { cbn [length]. f_equal. change rs with ((rs, s2).1). rewrite <- E.
    clear. generalize (mk
      (<[generateKey key identifier :=
           mkWindow 1 (atMemory first + windowMs options) (limit options)]>
         (inMemoryStore s)) (redis s)).
    induction rest as [|n rest IH]; intros s0; [reflexivity|].
    cbn [RateLimitService.checks].
    destruct (RateLimitService.checkRateLimit _ _ _ _ _ _ _ s0) as [r s1].
    specialize (IH s1).
    destruct (RateLimitService.checks _ _ _ _ _ _ rest s1) as [rs' s2'].
    cbn in *. f_equal. exact IH. }
  intros k now Hk. cbn [lookup list_lookup].
  pose proof (checks_in_window conn part key options identifier rest
                (mk (<[generateKey key identifier :=
                         mkWindow 1 resetTime (limit options)]>
                       (inMemoryStore s)) (redis s))
                1 resetTime (limit options) Hmem (lookup_insert_eq _ _ _)
                Hall k now Hk) as Hkth.
  unfold resetTime in Hkth. rewrite E in Hkth. cbn [fst] in Hkth.
  cbn zeta in Hkth |- *. unfold resetTime.
  replace (Z.of_nat k + 2) with (1 + 1 + Z.of_nat k) by lia.
  exact Hkth.
Qed.

End RateLimiterMemory.

Lemma kth_check_of_a_window_is_allowed_iff_within_limit_witness :
  (RateLimitService.checks lengthDigest RedisConnectionService.initial
     (RedisPartitioningService.new lengthDigest) "GET:/tasks"
     (RateLimitService.mkOptions 2 60000) (Some "10.0.0.1")
     [RateLimitService.mkReadings 0 0 0 500 0;
      RateLimitService.mkReadings 0 0 0 900 0;
      RateLimitService.mkReadings 0 0 0 30500 0;
      RateLimitService.mkReadings 0 0 0 60500 0]
     (RateLimitService.mk ∅ Redis.empty)).1 !! 2%nat
  = Some (Ok (RateLimitService.mkResult false 2 3 0 60500 (Num 30))).
Proof.
  refine (proj2 (proj2 (kth_check_of_a_window_is_allowed_iff_within_limit
            lengthDigest RedisConnectionService.initial
            (RedisPartitioningService.new lengthDigest) "GET:/tasks"
            (RateLimitService.mkOptions 2 60000) (Some "10.0.0.1")
            (RateLimitService.mk ∅ Redis.empty)
            (RateLimitService.mkReadings 0 0 0 500 0)
            [RateLimitService.mkReadings 0 0 0 900 0;
             RateLimitService.mkReadings 0 0 0 30500 0;
             RateLimitService.mkReadings 0 0 0 60500 0]
            (or_introl eq_refl) _ _))
          1%nat (RateLimitService.mkReadings 0 0 0 30500 0) eq_refl).
  - exact I.
  - repeat constructor; cbn; lia.
Defined.

Section RateLimiterHousekeeping.

Import RateLimitService.

Lemma fold_delete_lookup {A : Type} (keys : list string) (m : gmap string A) key :
  fold_left (fun store k => delete k store) keys m !! key
  = if bool_decide (key ∈ keys) then None else m !! key.
Proof.
  revert m. induction keys as [|k keys IH]; intros m; cbn [fold_left].
  - rewrite bool_decide_eq_false_2 by apply not_elem_of_nil. reflexivity.
  - rewrite IH. destruct (decide (key = k)) as [->|Hne].
    + rewrite lookup_delete_eq.
      rewrite (bool_decide_eq_true_2 (k ∈ k :: keys)) by left.
      destruct (bool_decide (k ∈ keys)); reflexivity.
    + rewrite lookup_delete_ne by congruence.
      destruct (bool_decide (key ∈ keys)) eqn:E.
      * apply bool_decide_eq_true_1 in E.
        rewrite bool_decide_eq_true_2 by (right; exact E). reflexivity.
      * apply bool_decide_eq_false_1 in E.
        rewrite bool_decide_eq_false_2; [reflexivity|].
        intros H. apply elem_of_cons in H as [?|?]; auto.
Qed.

Lemma cleanup_lookup now store key :
  cleanup now store !! key
  = match store !! key with
    | Some w => if w_resetTime w <? now then None else Some w
    | None => None
    end.
Proof.
  unfold cleanup. rewrite fold_delete_lookup.
  destruct (bool_decide _) eqn:E.
  - apply bool_decide_eq_true_1 in E.
    apply list_elem_of_omap in E as ([k w] & Hin & Hf).
    apply elem_of_map_to_list in Hin.
    destruct (w_resetTime w <? now) eqn:Hexp; [|discriminate Hf].
    injection Hf as <-. rewrite Hin, Hexp. reflexivity.
  - apply bool_decide_eq_false_1 in E.
    destruct (store !! key) as [w|] eqn:Hl; [|reflexivity].
    destruct (w_resetTime w <? now) eqn:Hexp; [|reflexivity].
    exfalso. apply E. apply list_elem_of_omap. exists (key, w).
    split; [apply elem_of_map_to_list, Hl|]. cbn. rewrite Hexp. reflexivity.
Qed.

(** X9.  [cleanup] removes exactly the windows whose reset time has
    passed and keeps the others as they are; no later check or info
    request can tell whether it ran: at any time from the cleanup on, both
    answer on the cleaned map what they answer on the original one. *)
Theorem cleanup_drops_expired_windows_and_is_invisible
    (now : Z) (store : gmap string window) :
  (forall key,
      cleanup now store !! key
      = match store !! key with
        | Some w => if w_resetTime w <? now then None else Some w
        | None => None
        end)
  /\ (forall later key options,
         now <= later ->
         (checkMemoryRateLimit later key options (cleanup now store)).1
         = (checkMemoryRateLimit later key options store).1
         /\ getMemoryRateLimitInfo later key (cleanup now store)
            = getMemoryRateLimitInfo later key store).
Proof.
  split; [apply cleanup_lookup|].
  intros later key options Hlater.
  unfold checkMemoryRateLimit, getMemoryRateLimitInfo.
  rewrite cleanup_lookup.
  destruct (store !! key) as [w|]; [|split; reflexivity].
  destruct (Z.ltb_spec (w_resetTime w) now) as [Hexp|Hlive].
  - destruct (Z.ltb_spec (w_resetTime w) later); [split; reflexivity | lia].
  - destruct (w_resetTime w <? later); split; reflexivity.
Qed.

Lemma cleanup_drops_expired_windows_and_is_invisible_witness :
  cleanup 2000
    (<["rate_limit:old" := mkWindow 9 1000 5]>
       {["rate_limit:new" := mkWindow 1 3000 5]})
    !! "rate_limit:old" = None.
Proof.
  rewrite (proj1 (cleanup_drops_expired_windows_and_is_invisible 2000 _)).
  reflexivity.
Defined.

(** X10.  [getMemoryRateLimitInfo] reports the check that was just made:
    up to the window's reset time it shows the [current] and [resetTime]
    of the answer, and the same [remaining] when the limit is at least 1
    and is the one the window was opened with; after the reset time, and
    for a key that was never checked, it shows [current = 0] and
    [remaining = 0] (not the limit) and no reset time. *)
Theorem info_reports_the_last_check
    (now later : Z) (key : string) (options : RateLimitOptions)
    (store : gmap string window) :
  let answer := (checkMemoryRateLimit now key options store).1 in
  let store' := (checkMemoryRateLimit now key options store).2 in
  exists c rem rt : Z,
    current answer = Num c
    /\ remaining answer = Num rem
    /\ resetTime answer = Num rt
    /\ (later <= rt ->
        i_current (getMemoryRateLimitInfo later key store') = Some c
        /\ i_resetTime (getMemoryRateLimitInfo later key store') = Some rt
        /\ (1 <= limit options ->
            match store !! key with
            | None => True
            | Some w => w_resetTime w < now \/ w_limit w = limit options
            end ->
            i_remaining (getMemoryRateLimitInfo later key store') = Some rem))
    /\ (rt < later ->
        getMemoryRateLimitInfo later key store'
        = mkInfo (Some 0) (Some 0) None)
    /\ (store !! key = None ->
        getMemoryRateLimitInfo now key store = mkInfo (Some 0) (Some 0) None).
Proof.
  intros answer store'. unfold answer, store', checkMemoryRateLimit.
  unfold getMemoryRateLimitInfo.
  destruct (store !! key) as [w|] eqn:Hw;
    [destruct (Z.ltb_spec (w_resetTime w) now) as [Hexp|Hlive]|];
    cbn [fst snd w_resetTime count w_limit resetTime current remaining];
    eexists _, _, _;
    (split; [reflexivity|]); (split; [reflexivity|]);
    (split; [reflexivity|]);
    rewrite lookup_insert_eq;
    cbn [w_resetTime count w_limit].
  - split; [|split].
    + intros Hlater.
      destruct (Z.ltb_spec (now + windowMs options) later) as [Hlt|Hge];
        [lia|]. cbn. repeat split. intros Hlim _. f_equal. lia.
    + intros Hlater.
      destruct (Z.ltb_spec (now + windowMs options) later); [reflexivity|lia].
    + discriminate.
  - split; [|split].
    + intros Hlater.
      destruct (Z.ltb_spec (w_resetTime w) later) as [Hlt|Hge]; [lia|].
      cbn. repeat split. intros Hlim [Hlt|Heq]; [lia|]. rewrite Heq.
      reflexivity.
    + intros Hlater.
      destruct (Z.ltb_spec (w_resetTime w) later); [reflexivity|lia].
    + discriminate.
  - split; [|split].
    + intros Hlater.
      destruct (Z.ltb_spec (now + windowMs options) later) as [Hlt|Hge];
        [lia|]. cbn. repeat split. intros Hlim _. f_equal. lia.
    + intros Hlater.
      destruct (Z.ltb_spec (now + windowMs options) later); [reflexivity|lia].
    + reflexivity.
Qed.

Lemma info_reports_the_last_check_witness :
  i_remaining
    (getMemoryRateLimitInfo 700 "rate_limit:k"
       (checkMemoryRateLimit 500 "rate_limit:k" (mkOptions 3 1000) ∅).2)
  = Some 2.
Proof.
  destruct (info_reports_the_last_check 500 700 "rate_limit:k"
              (mkOptions 3 1000) ∅)
    as (c & rem & rt & Hc & Hrem & Hrt & Hin & _).
  vm_compute in Hrem, Hrt. injection Hrem as <-. injection Hrt as <-.
  apply Hin; [lia | cbn; lia | exact I].
Defined.

(** X11.  With a limit below 1 the two limiters disagree on the check
    that opens a window: the in-memory limiter answers [allowed] with a
    negative [remaining]; the Redis limiter, whose counter then reads 1,
    refuses it with [remaining = 0] and a [retryAfter]. *)
Theorem non_positive_limit_is_refused_by_redis_but_not_in_memory
    (now : readings) (key : string) (options : RateLimitOptions)
    (store : gmap string window) (redis : Redis.t) :
  limit options <= 0 ->
  store !! key = None ->
  Redis.fault redis = None ->
  Redis.live (atServer now) redis
    (key +:+ ":" +:+ pretty (floor_div (atWindow now) (windowMs options)))
  = None ->
  (allowed (checkMemoryRateLimit (atMemory now) key options store).1 = true
   /\ exists rem : Z,
       remaining (checkMemoryRateLimit (atMemory now) key options store).1
       = Num rem
       /\ rem < 0)
  /\ exists r redis',
      checkRedisRateLimit now key options redis = (Ok r, redis')
      /\ allowed r = false
      /\ current r = 1
      /\ remaining r = 0
      /\ retryAfter r <> Undefined.
Proof.
  intros Hlim Hstore Hfault Hlive. split.
  - unfold checkMemoryRateLimit. rewrite Hstore. cbn.
    split; [reflexivity|]. eexists. split; [reflexivity|lia].
  - unfold checkRedisRateLimit, Redis.INCR_EXPIRE_TTL, Redis.INCR.
    rewrite Hfault, Hlive.
    destruct (Redis.EXPIRE _ _ _ _) as [second r2].
    destruct (Redis.TTL _ _ _) as [third r3]. cbn.
    eexists _, _. split; [reflexivity|]. cbn.
    destruct (Z.leb_spec 1 (limit options)); [lia|].
    destruct (Z.ltb_spec (limit options) 1); [|lia].
    repeat split.
    + do 2 f_equal. lia.
    + apply num_ceil_div_defined.
Qed.

Lemma non_positive_limit_is_refused_by_redis_but_not_in_memory_witness :
  allowed (checkMemoryRateLimit 10 "rate_limit:k" (mkOptions 0 1000) ∅).1
  = true
  /\ exists rem : Z,
      remaining (checkMemoryRateLimit 10 "rate_limit:k" (mkOptions 0 1000) ∅).1
      = Num rem
      /\ rem < 0.
Proof.
  apply (non_positive_limit_is_refused_by_redis_but_not_in_memory
           (mkReadings 10 10 10 10 10) "rate_limit:k" (mkOptions 0 1000) ∅
           Redis.empty); first [reflexivity | cbn; lia].
Defined.

End RateLimiterHousekeeping.

Section RateLimiterReset.

Import RateLimitService.

Variable md5_prefix : string -> Z.
Variable glob : string -> string -> bool.

Lemma literalPattern_star (key : string) :
  Redis.literalPattern (key +:+ ":*") = false.
Proof.
  induction key as [|c key IH]; [reflexivity|].
  change (String c key +:+ ":*") with (String c (key +:+ ":*")).
  change (Redis.literalPattern (String c (key +:+ ":*")))
    with (negb (Redis.wildcard c) && Redis.literalPattern (key +:+ ":*")).
  rewrite IH. apply andb_false_r.
Qed.

Lemma resetRateLimit_unreachable conn part now key identifier s :
  Redis.reachable (redis s) = false ->
  RedisConnectionService.isHealthy conn
  && negb (RedisConnectionService.isCircuitBreakerOpen conn) = true ->
  resetRateLimit md5_prefix glob conn part now key identifier s
  = (Ok tt, mk (inMemoryStore s) (redis s)).
Proof.
  intros Hdown Hguard. unfold resetRateLimit. rewrite Hguard.
  unfold resetDistributedRedisRateLimit.
  destruct (RedisPartitioningService.getConnectionForKey _ _ _ _);
    [|reflexivity].
  unfold resetRedisRateLimit, Redis.KEYS, Redis.reach.
  unfold Redis.reachable in Hdown.
  destruct (Redis.fault (redis s)) as [[m|]|]; try discriminate Hdown.
  reflexivity.
Qed.

Lemma checkRateLimit_rejected_pipeline
    conn part now key options identifier s :
  RedisConnectionService.isHealthy conn = true ->
  ConsistentHashingStrategy.ring
    (RedisPartitioningService.partitioningStrategy part) <> [] ->
  Redis.reachable (redis s) = false ->
  checkRateLimit md5_prefix conn part now key options identifier s
  = (Ok (mkResult false (limit options) Undefined NaN NaN Undefined),
     mk (inMemoryStore s) (redis s)).
Proof.
  intros Hh Hring Hdown. unfold checkRateLimit.
  rewrite (proj1 (healthy_guard conn Hh)).
  unfold checkDistributedRedisRateLimit.
  rewrite (getConnectionForKey_ok md5_prefix conn part _ Hh Hring).
  unfold checkRedisRateLimit, Redis.INCR_EXPIRE_TTL.
  unfold Redis.reachable in Hdown.
  destruct (Redis.fault (redis s)) as [[m|]|]; try discriminate Hdown.
  reflexivity.
Qed.

(** X12.  [resetRateLimit] never throws.  While the connection is
    reported unhealthy it forgets the key's in-memory window and leaves
    every other key alone, so the next check of the key opens a new window
    with [current = 1].  While the connection is reported healthy and the
    server rejects every command, the reset goes to the server and fails
    silently: the service is left as it was, and a check of the key, after
    the reset as before it, is refused without a count, without a
    [retryAfter] and without a look at the in-memory store. *)
Theorem reset_forgets_the_memory_window_only_when_unhealthy
    conn part (resetAt : Z) (now : readings) key options identifier (s : t) :
  let after := resetRateLimit md5_prefix glob conn part resetAt key identifier s in
  after.1 = Ok tt
  /\ (RedisConnectionService.isHealthy conn = false ->
      inMemoryStore after.2 !! generateKey key identifier = None
      /\ (forall other, other <> generateKey key identifier ->
            inMemoryStore after.2 !! other = inMemoryStore s !! other)
      /\ redis after.2 = redis s
      /\ (checkRateLimit md5_prefix conn part now key options identifier after.2).1
         = Ok (mkResult true (limit options) 1 (limit options - 1)
                 (atMemory now + windowMs options) Undefined))
  /\ (RedisConnectionService.isHealthy conn = true ->
      ConsistentHashingStrategy.ring
        (RedisPartitioningService.partitioningStrategy part) <> [] ->
      Redis.reachable (redis s) = false ->
      after.2 = mk (inMemoryStore s) (redis s)
      /\ checkRateLimit md5_prefix conn part now key options identifier s
         = (Ok (mkResult false (limit options) Undefined NaN NaN Undefined),
            mk (inMemoryStore s) (redis s))
      /\ checkRateLimit md5_prefix conn part now key options identifier after.2
         = (Ok (mkResult false (limit options) Undefined NaN NaN Undefined),
            after.2)).
Proof.
  intros after. split; [|split].
  - unfold after, resetRateLimit.
    destruct (_ && _); [|reflexivity].
    destruct (resetDistributedRedisRateLimit _ _ _ _ _ _ _) as [[u|e] r'];
      reflexivity.
  - intros Hdown.
    assert (Hafter : after
              = (Ok tt, mk (resetMemoryRateLimit (generateKey key identifier)
                              (inMemoryStore s)) (redis s))).
    { unfold after, resetRateLimit. rewrite Hdown. reflexivity. }
    rewrite Hafter. cbn [fst snd inMemoryStore redis].
    unfold resetMemoryRateLimit.
    split; [apply lookup_delete_eq|].
    split; [intros other Hne; apply lookup_delete_ne; congruence|].
    split; [reflexivity|].
    rewrite checkRateLimit_memory_path by (left; exact Hdown).
    cbn [fst snd inMemoryStore]. unfold checkMemoryRateLimit.
    rewrite lookup_delete_eq. reflexivity.
  - intros Hup Hring Hunreach.
    assert (Hguard : RedisConnectionService.isHealthy conn
                     && negb (RedisConnectionService.isCircuitBreakerOpen conn)
                     = true)
      by exact (proj1 (healthy_guard conn Hup)).
    unfold after.
    rewrite (resetRateLimit_unreachable _ _ _ _ _ _ Hunreach Hguard).
    cbn [fst snd].
    split; [reflexivity|].
    split; [apply checkRateLimit_rejected_pipeline; assumption|].
    exact (checkRateLimit_rejected_pipeline conn part now key options
             identifier (mk (inMemoryStore s) (redis s)) Hup Hring Hunreach).
Qed.

(** X13.  On a server that answers, [resetRedisRateLimit] removes
    exactly the live keys that the pattern [key:*] matches: afterwards no
    matched key is live and every other key is as before. *)
Theorem redis_reset_removes_exactly_the_matched_keys
    (now : Z) (key : string) (redis : Redis.t) :
  Redis.reachable redis = true ->
  exists redis',
    resetRedisRateLimit glob now key redis = (Ok tt, redis')
    /\ Redis.fault redis' = Redis.fault redis
    /\ forall k,
        Redis.live now redis' k
        = if glob (key +:+ ":*") k then None else Redis.live now redis k.
Proof.
  intros Hup. unfold resetRedisRateLimit, Redis.KEYS, Redis.reach.
  unfold Redis.reachable in Hup.
  assert (Hfault : match Redis.fault redis with
                   | Some (Redis.Rejects _) => False | _ => True end).
  { destruct (Redis.fault redis) as [[m|]|]; [discriminate Hup | exact I..]. }
  set (keys := omap _ (map_to_list (Redis.data redis))).
  assert (Hkeys : forall k,
             k ∈ keys <->
             is_Some (Redis.live now redis k)
             /\ glob (key +:+ ":*") k = true).
  { intros k. unfold keys. rewrite list_elem_of_omap. split.
    - intros ([k' e] & Hin & Hf). apply elem_of_map_to_list in Hin.
      unfold Redis.keyMatches in Hf. rewrite literalPattern_star in Hf.
      unfold Redis.live.
      destruct (Redis.expired now e) eqn:Hexp; [discriminate Hf|].
      destruct (glob (key +:+ ":*") k') eqn:Hg; [|discriminate Hf].
      injection Hf as <-. rewrite Hin, Hexp. split; [eauto | exact Hg].
    - intros [[e He] Hg]. unfold Redis.live in He.
      destruct (Redis.data redis !! k) as [e'|] eqn:Hd; [|discriminate He].
      destruct (Redis.expired now e') eqn:Hexp; [discriminate He|].
      exists (k, e'). split; [apply elem_of_map_to_list, Hd|].
      cbn. unfold Redis.keyMatches. rewrite literalPattern_star, Hexp, Hg.
      reflexivity. }
  assert (Hlive : forall r' : Redis.t,
             Redis.data r'
             = fold_left (fun d k => delete k d) keys (Redis.data redis) ->
             forall k,
               Redis.live now r' k
               = if glob (key +:+ ":*") k then None
                 else Redis.live now redis k).
  { intros r' Hd k. unfold Redis.live at 1. rewrite Hd, fold_delete_lookup.
    destruct (bool_decide (k ∈ keys)) eqn:E.
    - apply bool_decide_eq_true_1, Hkeys in E as [_ ->]. reflexivity.
    - apply bool_decide_eq_false_1 in E.
      fold (Redis.live now redis k).
      destruct (glob (key +:+ ":*") k) eqn:Hg; [|reflexivity].
      destruct (Redis.live now redis k) as [e|] eqn:Hl; [|reflexivity].
      exfalso. apply E, Hkeys. rewrite Hl. eauto. }
  destruct (Redis.fault redis) as [[m|]|] eqn:Ef; [destruct Hfault| |];
    (destruct (0 <? length keys)%nat eqn:Hlen;
     [ unfold Redis.DEL_many, Redis.reach; rewrite Ef;
       eexists; split; [reflexivity|]; split; [exact Ef|];
       apply Hlive; reflexivity
     | exists redis; split; [reflexivity|]; split; [exact Ef|];
       apply Hlive;
       destruct keys; [reflexivity | discriminate Hlen] ]).
Qed.

End RateLimiterReset.

Lemma reset_forgets_the_memory_window_only_when_unhealthy_witness :
  RateLimitService.inMemoryStore
    (RateLimitService.resetRateLimit lengthDigest (fun _ _ => false)
       (RedisConnectionService.setConnected false connectedService)
       (RedisPartitioningService.new lengthDigest) 10 "login" (Some "10.0.0.1")
       (RateLimitService.mk
          {["rate_limit:login:10.0.0.1" := RateLimitService.mkWindow 7 1000 5]}
          Redis.empty)).2
    !! "rate_limit:login:10.0.0.1" = None.
Proof.
  refine (proj1 (proj1 (proj2 (reset_forgets_the_memory_window_only_when_unhealthy
            lengthDigest (fun _ _ => false) _ _ 10
            (RateLimitService.mkReadings 20 20 20 20 20) "login"
            (RateLimitService.mkOptions 5 1000) (Some "10.0.0.1") _)) _)).
  vm_compute. reflexivity.
Defined.

Lemma redis_reset_removes_exactly_the_matched_keys_witness :
  exists redis',
    RateLimitService.resetRedisRateLimit (fun _ _ => true) 0 "rate_limit:login"
      (Redis.mk {["rate_limit:login:7" := Redis.mkEntry (Redis.RInteger 3) None]}
         None)
    = (Ok tt, redis')
    /\ Redis.fault redis' = None
    /\ forall k, Redis.live 0 redis' k = None.
Proof.
  apply (redis_reset_removes_exactly_the_matched_keys (fun _ _ => true) 0
           "rate_limit:login" (Redis.mk _ None)).
  reflexivity.
Defined.

Section ConcurrencyFairness.

Import ConcurrencyControlService.

Lemma initial_noBarging : noBarging initial.
Proof.
  intros jobType limit H. unfold initial in H. cbn [limits] in H.
  repeat (apply lookup_insert_Some in H as [[_ <-]|[_ H]];
          [cbn; congruence|]).
  rewrite lookup_empty in H. discriminate H.
Qed.

Lemma acquireSlot_noBarging jobType s :
  noBarging s -> noBarging (acquireSlot jobType s).
Proof.
  intros Hinv j limit. unfold acquireSlot.
  destruct (limits s !! jobType) as [l0|] eqn:E; cbn [limits]; [|apply Hinv].
  pose proof (Hinv _ _ E) as H0.
  destruct (Z.ltb_spec (currentRunning l0) (maxConcurrent l0)) as [Hlt|Hge];
    cbn [limits]; intros Hl;
    apply lookup_insert_Some in Hl as [[_ <-]|[_ Hl]];
    cbn [queue maxConcurrent currentRunning]; eauto.
  intros Hq. specialize (H0 Hq). lia.
Qed.

Lemma release_noBarging jobType s :
  noBarging s -> noBarging (release jobType s).
Proof.
  intros Hinv. unfold release.
  destruct (limits s !! jobType) as [l0|] eqn:E; [|exact Hinv].
  pose proof (Hinv _ _ E) as H0.
  unfold processQueue. cbn [limits]. rewrite lookup_insert_eq.
  cbn [queue maxConcurrent currentRunning nextPromise log].
  destruct (queue l0) as [|p rest] eqn:Eq.
  - intros j limit.
    destruct (_ && _); cbn [limits]; intros Hl;
      (apply lookup_insert_Some in Hl as [[_ <-]|[_ Hl]]; [|eauto]);
      cbn [queue]; congruence.
  - destruct (Z.ltb_spec 0 (Z.of_nat (length (p :: rest)))) as [_|Hlen];
      cbn [andb];
      [destruct (Z.ltb_spec (currentRunning l0 - 1) (maxConcurrent l0))
         as [Hlt|Hge]|];
      intros j limit; cbn [limits]; intros Hl.
    + rewrite insert_insert_eq in Hl.
      apply lookup_insert_Some in Hl as [[_ <-]|[_ Hl]]; [|eauto].
      cbn [queue maxConcurrent currentRunning]. intros _.
      assert (maxConcurrent l0 <= currentRunning l0)
        by (apply H0; congruence).
      lia.
    + apply lookup_insert_Some in Hl as [[_ <-]|[_ Hl]]; [|eauto].
      cbn [queue maxConcurrent currentRunning]. intros _. exact Hge.
    + apply lookup_insert_Some in Hl as [[_ <-]|[_ Hl]]; [|eauto].
      cbn [length] in Hlen. lia.
Qed.


Lemma run_noBarging ops s : noBarging s -> noBarging (run s ops).
Proof.
  revert s; induction ops as [|o ops IH]; intros s Hinv; [exact Hinv|].
  cbn [run fold_left]. apply IH. destruct o; cbn [step].
  - apply acquireSlot_noBarging; exact Hinv.
  - apply release_noBarging; exact Hinv.
Qed.

(** X14.  Under [acquireSlot] and the release functions nobody is
    overtaken: while a promise of a job type waits, every slot of the type
    is taken, so the next [acquireSlot] of the type is queued behind the
    waiters and not granted. *)
Theorem waiters_are_never_overtaken
    (s0 : t) (ops : list op) (jobType : string) (limit : limitState) :
  noBarging s0 ->
  let s := run s0 ops in
  limits s !! jobType = Some limit ->
  queue limit <> [] ->
  maxConcurrent limit <= currentRunning limit
  /\ acquireSlot jobType s
     = mk (<[jobType := mkLimit (maxConcurrent limit) (currentRunning limit)
                          (queue limit ++ [nextPromise s])]> (limits s))
          (S (nextPromise s))
          (log s ++ [QueueingJob jobType (nextPromise s)]).
Proof.
  intros Hinv s Hl Hq.
  assert (Hfull : maxConcurrent limit <= currentRunning limit).
  { exact (run_noBarging ops s0 Hinv _ _ Hl Hq). }
  split; [exact Hfull|].
  unfold acquireSlot. rewrite Hl.
  destruct (Z.ltb_spec (currentRunning limit) (maxConcurrent limit)); [lia|].
  reflexivity.
Qed.

Lemma waiters_are_never_overtaken_witness :
  let s := run initial [Acquire "dead-letter"; Acquire "dead-letter"] in
  1 <= 1
  /\ acquireSlot "dead-letter" s
     = mk (<["dead-letter" := mkLimit 1 1 ([1%nat] ++ [nextPromise s])]>
             (limits s))
          (S (nextPromise s))
          (log s ++ [QueueingJob "dead-letter" (nextPromise s)]).
Proof.
  apply (waiters_are_never_overtaken initial
           [Acquire "dead-letter"; Acquire "dead-letter"] "dead-letter"
           (mkLimit 1 1 [1%nat]) initial_noBarging).
  - vm_compute. reflexivity.
  - cbn. discriminate.
Defined.

(** X15.  [updateLimits] wakes no waiter.  When the limit of a job type
    is raised above the running count while promises wait, the queue and
    the log stay as they are, and the next [acquireSlot] of the type is
    granted at once, ahead of the promises that still wait. *)
Theorem raising_the_limit_lets_a_newcomer_overtake
    (s : t) (jobType : string) (limit : limitState) (raised : Z)
    (p : nat) (rest : list nat) :
  limits s !! jobType = Some limit ->
  queue limit = p :: rest ->
  currentRunning limit < raised ->
  let s1 := updateLimits jobType raised s in
  let s2 := acquireSlot jobType s1 in
  queueOf jobType s1 = p :: rest
  /\ log s1 = log s
  /\ log s2 = log s ++ [AcquiredSlot jobType (nextPromise s)]
  /\ queueOf jobType s2 = p :: rest.
Proof.
  intros Hl Hq Hraised s1 s2.
  unfold s2, s1, updateLimits, queueOf. rewrite Hl.
  unfold acquireSlot. cbn [limits nextPromise log].
  rewrite !lookup_insert_eq. cbn [currentRunning maxConcurrent queue].
  destruct (Z.ltb_spec (currentRunning limit) raised); [|lia].
  cbn [limits log]. rewrite lookup_insert_eq. cbn [queue].
  rewrite Hq. auto.
Qed.

Lemma raising_the_limit_lets_a_newcomer_overtake_witness :
  let s := run initial [Acquire "dead-letter"; Acquire "dead-letter"] in
  let s1 := updateLimits "dead-letter" 2 s in
  let s2 := acquireSlot "dead-letter" s1 in
  queueOf "dead-letter" s1 = [1%nat]
  /\ log s1 = log s
  /\ log s2 = log s ++ [AcquiredSlot "dead-letter" (nextPromise s)]
  /\ queueOf "dead-letter" s2 = [1%nat].
Proof.
  apply (raising_the_limit_lets_a_newcomer_overtake
           (run initial [Acquire "dead-letter"; Acquire "dead-letter"])
           "dead-letter" (mkLimit 1 1 [1%nat]) 2 1%nat []).
  - vm_compute. reflexivity.
  - reflexivity.
  - cbn. lia.
Defined.

Local Abbreviation fresh n :=
  (fun line => forall p, resolved line = Some p -> (n <= p)%nat).

Lemma step_queuedFrom n s o :
  queuedFrom n s -> (n <= nextPromise s)%nat ->
  queuedFrom n (step s o)
  /\ (n <= nextPromise (step s o))%nat
  /\ exists added, log (step s o) = log s ++ added /\ Forall (fresh n) added.
Proof.
  intros Hq Hn. destruct o as [jobType|jobType]; cbn [step].
  - unfold acquireSlot.
    destruct (limits s !! jobType) as [l0|] eqn:E.
    + pose proof (Hq _ _ E) as H0.
      destruct (currentRunning l0 <? maxConcurrent l0);
        cbn [limits nextPromise log].
      * split; [|split; [lia|]].
        -- intros j l Hl. cbn [limits] in Hl.
           apply lookup_insert_Some in Hl as [[_ <-]|[_ Hl]]; eauto.
        -- eexists. split; [reflexivity|].
           constructor; [|constructor]. intros p [= <-]. exact Hn.
      * split; [|split; [lia|]].
        -- intros j l Hl. cbn [limits] in Hl.
           apply lookup_insert_Some in Hl as [[_ <-]|[_ Hl]]; [|eauto].
           cbn [queue]. apply Forall_app. split; [exact H0|].
           constructor; [exact Hn|constructor].
        -- eexists. split; [reflexivity|].
           constructor; [|constructor]. intros p [=].
    + cbn [limits nextPromise log]. split; [exact Hq|]. split; [lia|].
      eexists. split; [reflexivity|].
      constructor; [|constructor]. intros p [= <-]. exact Hn.
  - unfold release.
    destruct (limits s !! jobType) as [l0|] eqn:E.
    2:{ split; [exact Hq|]. split; [exact Hn|]. exists [].
        split; [symmetry; apply app_nil_r | constructor]. }
    pose proof (Hq _ _ E) as H0.
    unfold processQueue. cbn [limits]. rewrite lookup_insert_eq.
    cbn [queue maxConcurrent currentRunning nextPromise log].
    assert (Hrel : queuedFrom n
              (mk (<[jobType := mkLimit (maxConcurrent l0)
                                  (currentRunning l0 - 1) (queue l0)]>
                     (limits s))
                  (nextPromise s) (log s ++ [ReleasedSlot jobType]))
              /\ (n <= nextPromise s)%nat
              /\ exists added,
                  log s ++ [ReleasedSlot jobType] = log s ++ added
                  /\ Forall (fresh n) added).
    { split; [|split; [exact Hn|]].
      - intros j l Hl. cbn [limits] in Hl.
        apply lookup_insert_Some in Hl as [[_ <-]|[_ Hl]]; eauto.
      - eexists. split; [reflexivity|].
        constructor; [|constructor]. intros p [=]. }
    destruct (_ && _); [|exact Hrel].
    destruct (queue l0) as [|p rest] eqn:Eq; [exact Hrel|].
    cbn [limits nextPromise log]. split; [|split; [exact Hn|]].
    + intros j l Hl. cbn [limits] in Hl. rewrite insert_insert_eq in Hl.
      apply lookup_insert_Some in Hl as [[_ <-]|[_ Hl]]; [|eauto].
      cbn [queue]. inversion H0; assumption.
    + exists [ReleasedSlot jobType; AcquiredQueuedSlot jobType p].
      split; [rewrite <- app_assoc; reflexivity|].
      constructor; [intros q [=]|].
      constructor; [|constructor]. intros q [= <-].
      inversion H0; assumption.
Qed.

Lemma serve_queuedFrom n s c :
  queuedFrom n s -> (n <= nextPromise s)%nat ->
  queuedFrom n (serve s c)
  /\ (n <= nextPromise (serve s c))%nat
  /\ exists added, log (serve s c) = log s ++ added /\ Forall (fresh n) added.
Proof.
  intros Hq Hn. destruct c as [o|jobType m|]; cbn [serve].
  - apply step_queuedFrom; assumption.
  - unfold updateLimits.
    destruct (limits s !! jobType) as [l0|] eqn:E; cbn [limits nextPromise log].
    + split; [|split; [exact Hn|]].
      * intros j l Hl. cbn [limits] in Hl.
        apply lookup_insert_Some in Hl as [[_ <-]|[_ Hl]];
          [exact (Hq _ _ E) | eauto].
      * exists []. split; [symmetry; apply app_nil_r | constructor].
    + split; [exact Hq|]. split; [exact Hn|].
      exists []. split; [symmetry; apply app_nil_r | constructor].
  - unfold reset. cbn [limits nextPromise log].
    split; [|split; [exact Hn|]].
    + intros j l Hl. cbn [limits] in Hl. rewrite lookup_fmap in Hl.
      destruct (limits s !! j); [|discriminate Hl].
      injection Hl as <-. constructor.
    + exists []. split; [symmetry; apply app_nil_r | constructor].
Qed.

Lemma serveAll_queuedFrom n calls s :
  queuedFrom n s -> (n <= nextPromise s)%nat ->
  exists added,
    log (serveAll s calls) = log s ++ added /\ Forall (fresh n) added.
Proof.
  revert s. induction calls as [|c calls IH]; intros s Hq Hn.
  - exists []. split; [symmetry; apply app_nil_r | constructor].
  - cbn [serveAll fold_left].
    destruct (serve_queuedFrom n s c Hq Hn) as (Hq' & Hn' & a1 & E1 & F1).
    destruct (IH _ Hq' Hn') as (a2 & E2 & F2).
    exists (a1 ++ a2). split.
    + unfold serveAll in E2. rewrite E2, E1, app_assoc. reflexivity.
    + apply Forall_app. split; assumption.
Qed.

Lemma initial_queuedBelow : queuedBelow initial.
Proof.
  intros jobType limit H. unfold initial in H. cbn [limits] in H.
  repeat (apply lookup_insert_Some in H as [[_ <-]|[_ H]]; [constructor|]).
  rewrite lookup_empty in H. discriminate H.
Qed.

Lemma queuedBelow_next s limits' lg :
  queuedBelow s ->
  (forall j l, limits' !! j = Some l ->
     Forall (fun p => (p < S (nextPromise s))%nat) (queue l)) ->
  queuedBelow (mk limits' (S (nextPromise s)) lg).
Proof. intros _ H j l Hl. cbn [limits nextPromise] in *. eauto. Qed.

Lemma Forall_lt_S (n : nat) (l : list nat) :
  Forall (fun p => (p < n)%nat) l -> Forall (fun p => (p < S n)%nat) l.
Proof. intros H. eapply Forall_impl; [exact H|]. cbn. intros; lia. Qed.

Lemma serve_queuedBelow s c : queuedBelow s -> queuedBelow (serve s c).
Proof.
  intros Hq. destruct c as [[jobType|jobType]|jobType m|]; cbn [serve step].
  - unfold acquireSlot.
    destruct (limits s !! jobType) as [l0|] eqn:E.
    + pose proof (Hq _ _ E) as H0.
      destruct (currentRunning l0 <? maxConcurrent l0);
        intros j l Hl; cbn [limits nextPromise] in *;
        (apply lookup_insert_Some in Hl as [[_ <-]|[_ Hl]];
         [|apply Forall_lt_S; eauto]); cbn [queue].
      * apply Forall_lt_S. exact H0.
      * apply Forall_app. split; [apply Forall_lt_S; exact H0|].
        constructor; [lia|constructor].
    + intros j l Hl. cbn [limits nextPromise] in *.
      apply Forall_lt_S. eauto.
  - unfold release.
    destruct (limits s !! jobType) as [l0|] eqn:E; [|exact Hq].
    pose proof (Hq _ _ E) as H0.
    unfold processQueue. cbn [limits]. rewrite lookup_insert_eq.
    cbn [queue maxConcurrent currentRunning nextPromise log].
    assert (Hrel : queuedBelow
              (mk (<[jobType := mkLimit (maxConcurrent l0)
                                  (currentRunning l0 - 1) (queue l0)]>
                     (limits s))
                  (nextPromise s) (log s ++ [ReleasedSlot jobType]))).
    { intros j l Hl. cbn [limits nextPromise] in *.
      apply lookup_insert_Some in Hl as [[_ <-]|[_ Hl]]; eauto. }
    destruct (_ && _); [|exact Hrel].
    destruct (queue l0) as [|p rest] eqn:Eq; [exact Hrel|].
    intros j l Hl. cbn [limits nextPromise] in *.
    rewrite insert_insert_eq in Hl.
    apply lookup_insert_Some in Hl as [[_ <-]|[_ Hl]]; [|eauto].
    cbn [queue]. inversion H0; assumption.
  - unfold updateLimits.
    destruct (limits s !! jobType) as [l0|] eqn:E; [|exact Hq].
    intros j l Hl. cbn [limits nextPromise] in *.
    apply lookup_insert_Some in Hl as [[_ <-]|[_ Hl]];
      [exact (Hq _ _ E) | eauto].
  - intros j l Hl. unfold reset in *. cbn [limits nextPromise] in *.
    rewrite lookup_fmap in Hl.
    destruct (limits s !! j); [|discriminate Hl].
    injection Hl as <-. constructor.
Qed.

Lemma serveAll_queuedBelow calls s :
  queuedBelow s -> queuedBelow (serveAll s calls).
Proof.
  revert s. induction calls as [|c calls IH]; intros s Hq; [exact Hq|].
  cbn [serveAll fold_left]. apply IH, serve_queuedBelow, Hq.
Qed.

(** X16.  [reset] abandons the waiters.  It empties every queue and
    zeroes every running count without resolving anything, and whatever is
    called afterwards, a promise that was waiting when [reset] ran is never
    resolved: every promise resolved later was handed out after the
    reset. *)
Theorem reset_abandons_the_waiters
    (before later : list call) (jobType : string) (p : nat) :
  let s := serveAll initial before in
  p ∈ queueOf jobType s ->
  (forall j limit,
      limits (reset s) !! j = Some limit ->
      currentRunning limit = 0 /\ queue limit = [])
  /\ log (reset s) = log s
  /\ exists added,
      log (serveAll (reset s) later) = log s ++ added
      /\ forall line, line ∈ added -> resolved line <> Some p.
Proof.
  intros s Hp.
  assert (Hbelow : (p < nextPromise s)%nat).
  { pose proof (serveAll_queuedBelow before initial initial_queuedBelow) as Hq.
    fold s in Hq. unfold queueOf in Hp.
    destruct (limits s !! jobType) as [l|] eqn:E;
      [|apply not_elem_of_nil in Hp; destruct Hp].
    specialize (Hq _ _ E). rewrite Forall_forall in Hq. apply Hq, Hp. }
  split; [|split; [reflexivity|]].
  - intros j limit Hl. unfold reset in Hl. cbn [limits] in Hl.
    rewrite lookup_fmap in Hl.
    destruct (limits s !! j); [|discriminate Hl].
    injection Hl as <-. split; reflexivity.
  - destruct (serveAll_queuedFrom (nextPromise s) later (reset s))
      as (added & E & F).
    + intros j l Hl. unfold reset in Hl. cbn [limits] in Hl.
      rewrite lookup_fmap in Hl.
      destruct (limits s !! j); [|discriminate Hl].
      injection Hl as <-. constructor.
    + cbn. lia.
    + exists added. split; [exact E|].
      intros line Hin Hres. rewrite Forall_forall in F.
      specialize (F _ Hin _ Hres). lia.
Qed.

Lemma reset_abandons_the_waiters_witness :
  let s := serveAll initial
             [Slot (Acquire "dead-letter"); Slot (Acquire "dead-letter")] in
  exists added,
    log (serveAll (reset s) [Slot (Release "dead-letter")]) = log s ++ added
    /\ forall line, line ∈ added -> resolved line <> Some 1%nat.
Proof.
  refine (proj2 (proj2 (reset_abandons_the_waiters
            [Slot (Acquire "dead-letter"); Slot (Acquire "dead-letter")]
            [Slot (Release "dead-letter")] "dead-letter" 1%nat _))).
  vm_compute. constructor.
Defined.

Lemma releases_below_zero (jobType : string) (k : nat) :
  forall s m c,
    limits s !! jobType = Some (mkLimit m c []) ->
    limits (run s (repeat (Release jobType) k)) !! jobType
    = Some (mkLimit m (c - Z.of_nat k) []).
Proof.
  induction k as [|k IH]; intros s m c Hl.
  - cbn [repeat run fold_left]. rewrite Hl. do 2 f_equal. lia.
  - cbn [repeat run fold_left step].
    assert (Hrel : limits (release jobType s) !! jobType
                   = Some (mkLimit m (c - 1) [])).
    { unfold release. rewrite Hl. unfold processQueue. cbn [limits].
      rewrite lookup_insert_eq. cbn [queue length Z.of_nat].
      change (0 <? 0) with false. cbn [andb limits].
      apply lookup_insert_eq. }
    specialize (IH _ _ _ Hrel). unfold run in IH. rewrite IH.
    do 2 f_equal. lia.
Qed.

(** X17.  A release function handed out before [reset] still counts
    down afterwards: [k] such calls after a reset leave the running count
    of the job type at [-k]. *)
Theorem releases_after_reset_drive_the_count_below_zero
    (s : t) (jobType : string) (limit : limitState) (k : nat) :
  limits s !! jobType = Some limit ->
  limits (run (reset s) (repeat (Release jobType) k)) !! jobType
  = Some (mkLimit (maxConcurrent limit) (- Z.of_nat k) []).
Proof.
  intros Hl.
  rewrite (releases_below_zero jobType k (reset s) (maxConcurrent limit) 0).
  - reflexivity.
  - unfold reset. cbn [limits]. rewrite lookup_fmap, Hl. reflexivity.
Qed.

Lemma releases_after_reset_drive_the_count_below_zero_witness :
  limits (run (reset (run initial [Acquire "dead-letter"]))
            (repeat (Release "dead-letter") 1)) !! "dead-letter"
  = Some (mkLimit 1 (-1) []).
Proof.
  apply (releases_after_reset_drive_the_count_below_zero
           (run initial [Acquire "dead-letter"]) "dead-letter"
           (mkLimit 1 1 []) 1).
  vm_compute. reflexivity.
Defined.

(** X18.  Taking a free slot and giving it back, as a job processor
    does around one job, leaves the limits as they were: nobody is woken
    and nothing but the two log lines remains. *)
Theorem acquire_then_release_restores_the_limits
    (s : t) (jobType : string) (limit : limitState) :
  noBarging s ->
  limits s !! jobType = Some limit ->
  currentRunning limit < maxConcurrent limit ->
  release jobType (acquireSlot jobType s)
  = mk (limits s) (S (nextPromise s))
       (log s ++ [AcquiredSlot jobType (nextPromise s);
                  ReleasedSlot jobType]).
Proof.
  intros Hinv Hl Hfree.
  assert (Hq : queue limit = []).
  { destruct (queue limit) as [|p rest] eqn:Eq; [reflexivity|].
    assert (maxConcurrent limit <= currentRunning limit)
      by (apply (Hinv _ _ Hl); congruence).
    lia. }
  unfold acquireSlot. rewrite Hl.
  destruct (Z.ltb_spec (currentRunning limit) (maxConcurrent limit)); [|lia].
  unfold release. cbn [limits nextPromise log]. rewrite lookup_insert_eq.
  unfold processQueue. cbn [limits nextPromise log queue maxConcurrent
                            currentRunning].
  rewrite lookup_insert_eq. cbn [queue]. rewrite Hq.
  cbn [length Z.of_nat]. change (0 <? 0) with false. cbn [andb].
  rewrite insert_insert_eq, <- app_assoc. f_equal.
  apply insert_id. rewrite Hl. f_equal.
  destruct limit as [m c q]. cbn in *. subst q. f_equal. lia.
Qed.

Lemma acquire_then_release_restores_the_limits_witness :
  release "dead-letter" (acquireSlot "dead-letter" initial)
  = mk (limits initial) 1
       [AcquiredSlot "dead-letter" 0; ReleasedSlot "dead-letter"].
Proof.
  apply (acquire_then_release_restores_the_limits initial "dead-letter"
           (mkLimit 1 0 []) initial_noBarging).
  - vm_compute. reflexivity.
  - cbn. lia.
Defined.

End ConcurrencyFairness.

Section LockLease.

Import DistributedLockService.

Lemma acquireLock_granted now token resource ttlMs redis held redis1 :
  acquireLock now token resource ttlMs redis = (Ok (Some held), redis1) ->
  held = token
  /\ Redis.reachable redis = true
  /\ 0 < default defaultTtlMs ttlMs
  /\ Redis.live now redis (lockPrefix +:+ resource) = None
  /\ redis1
     = Redis.setData
         (<[lockPrefix +:+ resource
            := Redis.mkEntry (Redis.RString token)
                 (Some (now + default defaultTtlMs ttlMs))]>
            (Redis.data redis)) redis.
Proof.
  unfold acquireLock, Redis.SET_PX_NX, Redis.reach, Redis.reachable.
  destruct (Redis.fault redis) as [[m|]|];
    [intros [=] | |];
    (destruct (Z.ltb_spec 0 (default defaultTtlMs ttlMs)); [|intros [=]];
     destruct (Redis.live now redis (lockPrefix +:+ resource));
     intros [= <- <-]; auto).
Qed.

Lemma live_after_set now later key v ms redis :
  Redis.live later
    (Redis.setData
       (<[key := Redis.mkEntry v (Some (now + ms))]> (Redis.data redis)) redis)
    key
  = if now + ms <? later then None
    else Some (Redis.mkEntry v (Some (now + ms))).
Proof.
  unfold Redis.live, Redis.setData. cbn [Redis.data].
  rewrite lookup_insert_eq. reflexivity.
Qed.

Lemma reachable_fault redis :
  Redis.reachable redis = true ->
  forall A (k : result A * Redis.t), Redis.reach redis k = k.
Proof.
  unfold Redis.reachable, Redis.reach. intros H A k.
  destruct (Redis.fault redis) as [[m|]|]; [discriminate H|reflexivity..].
Qed.

(** X19.  A lock is a lease, kept by the server's clock.  Once
    [acquireLock] has handed out a token (which it does for a positive
    time to live only), every [acquireLock] of the same resource that
    reaches the server before the lease has run out returns null and
    leaves the server as it is; one that reaches it after the lease has
    run out, with a positive time to live, is granted, whether or not the
    holder released. *)
Theorem lock_is_exclusive_until_the_lease_runs_out
    (now : Z) (token resource : string) (ttlMs : option Z)
    (redis redis1 : Redis.t) (held : string) :
  acquireLock now token resource ttlMs redis = (Ok (Some held), redis1) ->
  let expiry := now + default defaultTtlMs ttlMs in
  now < expiry
  /\ forall (later : Z) (token' : string) (ttlMs' : option Z),
      (later < expiry ->
       acquireLock later token' resource ttlMs' redis1 = (Ok None, redis1))
      /\ (expiry < later ->
          0 < default defaultTtlMs ttlMs' ->
          exists redis2,
            acquireLock later token' resource ttlMs' redis1
            = (Ok (Some token'), redis2)).
Proof.
  intros Hacq expiry.
  apply acquireLock_granted in Hacq as (_ & Hup & Httl & _ & ->).
  split; [unfold expiry; lia|].
  intros later token' ttlMs'.
  unfold acquireLock, Redis.SET_PX_NX.
  rewrite reachable_fault by exact Hup.
  rewrite live_after_set. fold expiry.
  split.
  - intros Hlater.
    destruct (0 <? default defaultTtlMs ttlMs'); [|reflexivity].
    destruct (Z.ltb_spec expiry later); [lia | reflexivity].
  - intros Hlater Httl'.
    destruct (Z.ltb_spec 0 (default defaultTtlMs ttlMs')); [|lia].
    destruct (Z.ltb_spec expiry later); [eauto | lia].
Qed.

Lemma lock_is_exclusive_until_the_lease_runs_out_witness :
  acquireLock 999 "b" "task-1" None
    (acquireLock 0 "a" "task-1" (Some 1000) Redis.empty).2
  = (Ok None, (acquireLock 0 "a" "task-1" (Some 1000) Redis.empty).2).
Proof.
  refine (proj1 (proj2 (lock_is_exclusive_until_the_lease_runs_out 0 "a"
            "task-1" (Some 1000) Redis.empty _ "a" _) 999 "b" None) _).
  - vm_compute. reflexivity.
  - cbn. lia.
Defined.

(** X20.  Releasing follows the lease.  A [releaseLock] by the holder
    that reaches the server before the lease has run out returns true and
    frees the resource: a second release returns false and the next
    [acquireLock] with a positive time to live is granted.  One that
    reaches it after the lease has run out returns false; and when another
    caller has taken the lock meanwhile with a different token, the late
    release leaves that caller's lock in place. *)
Theorem release_frees_the_lock_only_within_the_lease
    (now : Z) (token resource : string) (ttlMs : option Z)
    (redis redis1 : Redis.t) (held : string) :
  acquireLock now token resource ttlMs redis = (Ok (Some held), redis1) ->
  let expiry := now + default defaultTtlMs ttlMs in
  (forall later,
      later < expiry ->
      exists redis2,
        releaseLock later resource token redis1 = (Ok true, redis2)
        /\ (forall again,
               releaseLock again resource token redis2 = (Ok false, redis2))
        /\ (forall next token' ttlMs',
               0 < default defaultTtlMs ttlMs' ->
               exists redis3,
                 acquireLock next token' resource ttlMs' redis2
                 = (Ok (Some token'), redis3)))
  /\ (forall later,
         expiry < later ->
         releaseLock later resource token redis1 = (Ok false, redis1))
  /\ (forall later token' ttlMs' redis2 late,
         token' <> token ->
         acquireLock later token' resource ttlMs' redis1
         = (Ok (Some token'), redis2) ->
         releaseLock late resource token redis2 = (Ok false, redis2)).
Proof.
  intros Hacq expiry.
  apply acquireLock_granted in Hacq as (_ & Hup & Httl & _ & ->).
  assert (Hup1 : forall d, Redis.reachable (Redis.setData d redis) = true)
    by (intros d; exact Hup).
  split; [|split].
  - intros later Hlater. eexists. split; [|split].
    + unfold releaseLock, Redis.EVAL_compare_and_delete.
      rewrite reachable_fault by apply Hup1.
      rewrite live_after_set.
      destruct (Z.ltb_spec (now + default defaultTtlMs ttlMs) later);
        [unfold expiry in Hlater; lia|].
      cbn [fmap option_fmap option_map Redis.value Redis.render].
      rewrite String.eqb_refl. reflexivity.
    + intros again. unfold releaseLock, Redis.EVAL_compare_and_delete.
      rewrite reachable_fault by apply Hup1.
      rewrite live_after_delete. reflexivity.
    + intros next token' ttlMs' Httl'.
      unfold acquireLock, Redis.SET_PX_NX.
      rewrite reachable_fault by apply Hup1.
      destruct (Z.ltb_spec 0 (default defaultTtlMs ttlMs')); [|lia].
      rewrite live_after_delete. eauto.
  - intros later Hlater. unfold releaseLock, Redis.EVAL_compare_and_delete.
    rewrite reachable_fault by apply Hup1.
    rewrite live_after_set.
    destruct (Z.ltb_spec (now + default defaultTtlMs ttlMs) later);
      [reflexivity | unfold expiry in Hlater; lia].
  - intros later token' ttlMs' redis2 late Hne Hacq'.
    apply acquireLock_granted in Hacq' as (_ & _ & _ & _ & ->).
    unfold releaseLock, Redis.EVAL_compare_and_delete.
    rewrite reachable_fault by apply Hup1.
    rewrite live_after_set.
    destruct (later + default defaultTtlMs ttlMs' <? late); [reflexivity|].
    cbn [fmap option_fmap option_map Redis.value Redis.render].
    destruct (String.eqb_spec token' token) as [Heq|_]; [contradiction|].
    reflexivity.
Qed.

Lemma release_frees_the_lock_only_within_the_lease_witness :
  releaseLock 1001 "task-1" "a"
    (acquireLock 0 "a" "task-1" (Some 1000) Redis.empty).2
  = (Ok false, (acquireLock 0 "a" "task-1" (Some 1000) Redis.empty).2).
Proof.
  refine (proj1 (proj2 (release_frees_the_lock_only_within_the_lease 0 "a"
            "task-1" (Some 1000) Redis.empty _ "a" _)) 1001 _).
  - vm_compute. reflexivity.
  - cbn. lia.
Defined.

End LockLease.

Section CacheRoundTrips.

Variable V : Type.
Variable stringify : V -> string.
Variable parse : string -> result V.
Variable md5_prefix : string -> Z.

Import CacheService.

Local Abbreviation cacheState := (CacheService.t V).
Local Abbreviation get := (CacheService.get V parse).
Local Abbreviation set := (CacheService.set V stringify md5_prefix).
Local Abbreviation mset := (CacheService.mset V stringify).

Lemma getPrefixedKey_string key :
  key <> "" ->
  getPrefixedKey (JString key) = Ok (keyPrefix +:+ sanitize key).
Proof.
  intros Hne. unfold getPrefixedKey.
  destruct (String.eqb_spec key ""); [contradiction|reflexivity].
Qed.

(** X21.  In memory mode a value that was [set] is what [get] returns
    up to and including the millisecond its time to live ends, under the
    key it was stored with and under every key with the same sanitized
    form; after that [get] returns null and drops the entry. *)
Theorem memory_set_then_get_round_trip
    conn part (now later : Z) (key : string) (v : V) (ttlSeconds : option Z)
    (s : cacheState) :
  isRedisAvailable s = false ->
  key <> "" ->
  let expiresAt := now + default 300 ttlSeconds * 1000 in
  exists s1,
    set conn part now later (JString key) v ttlSeconds s = (Ok tt, s1)
    /\ forall key',
        key' <> "" -> sanitize key' = sanitize key ->
        forall t,
          (t <= expiresAt -> get t (JString key') s1 = (Ok (Some v), s1))
          /\ (expiresAt < t ->
              exists s2,
                get t (JString key') s1 = (Ok None, s2)
                /\ cache s2 !! (keyPrefix +:+ sanitize key) = None).
Proof.
  intros Hmem Hne expiresAt.
  unfold CacheService.set. rewrite (getPrefixedKey_string key Hne).
  rewrite Hmem. cbn [andb]. eexists. split; [reflexivity|].
  intros key' Hne' Hsame t.
  unfold CacheService.get. rewrite (getPrefixedKey_string key' Hne'), Hsame.
  unfold setMemory, withCache. cbn [isRedisAvailable]. rewrite Hmem.
  unfold getMemory. cbn [cache]. rewrite lookup_insert_eq.
  cbn [CacheService.expiresAt CacheService.value].
  fold expiresAt.
  destruct (Z.ltb_spec expiresAt t) as [Hexp|Hlive]; split; intros Ht;
    try lia; [|reflexivity].
  eexists. split; [reflexivity|].
  unfold withCache. cbn [cache]. apply lookup_delete_eq.
Qed.

Lemma live_after_setex now t key text seconds redis :
  Redis.live t
    (Redis.setData
       (<[key := Redis.mkEntry (Redis.RString text)
                   (Some (now + seconds * 1000))]> (Redis.data redis)) redis)
    key
  = if now + seconds * 1000 <? t then None
    else Some (Redis.mkEntry (Redis.RString text)
                 (Some (now + seconds * 1000))).
Proof.
  unfold Redis.live, Redis.setData. cbn [Redis.data].
  rewrite lookup_insert_eq. reflexivity.
Qed.

(** X22.  In Redis mode, with a healthy connection, a server that
    answers and a value that survives [JSON.stringify] and [JSON.parse], a
    value that was [set] with a positive time to live is what a [get]
    returns that reaches the server before the time to live has run out
    on the server's clock; a [get] that reaches it after the time to live
    has run out returns null.  The local map is not touched. *)
Theorem redis_set_then_get_round_trip
    conn part (now later : Z) (key : string) (v : V) (ttlSeconds : option Z)
    (s : cacheState) :
  isRedisAvailable s = true ->
  RedisConnectionService.isHealthy conn = true ->
  ConsistentHashingStrategy.ring
    (RedisPartitioningService.partitioningStrategy part) <> [] ->
  Redis.reachable (redis s) = true ->
  key <> "" ->
  parse (stringify v) = Ok v ->
  0 < default 300 ttlSeconds ->
  let expiry := now + default 300 ttlSeconds * 1000 in
  exists s1,
    set conn part now later (JString key) v ttlSeconds s = (Ok tt, s1)
    /\ cache s1 = cache s
    /\ forall t,
        (t < expiry -> get t (JString key) s1 = (Ok (Some v), s1))
        /\ (expiry < t -> get t (JString key) s1 = (Ok None, s1)).
Proof.
  intros Hflag Hh Hring Hup Hne Hjson Httl expiry.
  destruct (healthy_guard conn Hh) as [Hguard _].
  assert (Hclosed : negb (RedisConnectionService.isCircuitBreakerOpen conn)
                    = true).
  { apply andb_true_iff in Hguard as [_ H]. exact H. }
  unfold CacheService.set. rewrite (getPrefixedKey_string key Hne).
  rewrite Hflag, Hclosed. cbn [andb].
  unfold setDistributedRedis.
  rewrite (getConnectionForKey_ok md5_prefix conn part _ Hh Hring).
  unfold setRedis, Redis.SETEX. rewrite reachable_fault by exact Hup.
  destruct (Z.ltb_spec 0 (default 300 ttlSeconds)); [|lia].
  eexists. split; [reflexivity|]. split; [reflexivity|].
  intros t. unfold CacheService.get.
  rewrite (getPrefixedKey_string key Hne).
  unfold withRedis. cbn [isRedisAvailable redis]. rewrite Hflag.
  unfold getRedis, Redis.GET.
  rewrite reachable_fault by exact Hup.
  rewrite live_after_setex. fold expiry.
  destruct (Z.ltb_spec expiry t) as [Hexp|Hlive]; split; intros Ht;
    try lia; cbn [fmap option_fmap option_map Redis.value Redis.render
                  parseCached].
  - reflexivity.
  - rewrite Hjson. reflexivity.
Qed.

Lemma prefixed_ne key : keyPrefix +:+ sanitize key <> key.
Proof.
  intros H. apply (f_equal String.length) in H.
  assert (Hs : String.length (sanitize key) = String.length key).
  { clear H. induction key as [|c key IH]; cbn; congruence. }
  unfold keyPrefix in H. simpl in H.
  change ("" +:+ sanitize key) with (sanitize key) in H.
  rewrite Hs in H. lia.
Qed.

Lemma pipeline_setex_lookup now ttl (pairs : list (string * V)) :
  forall redis k,
    k ∉ map fst pairs ->
    Redis.data
      (fold_left
         (fun r '(key, v) => (Redis.SETEX now key ttl (stringify v) r).2)
         pairs redis) !! k
    = Redis.data redis !! k
    /\ Redis.fault
         (fold_left
            (fun r '(key, v) => (Redis.SETEX now key ttl (stringify v) r).2)
            pairs redis)
       = Redis.fault redis.
Proof.
  induction pairs as [|[key v] pairs IH]; intros redis k Hk;
    [split; reflexivity|].
  cbn [fold_left]. cbn [map fst] in Hk.
  apply not_elem_of_cons in Hk as [Hne Hk].
  destruct (IH (Redis.SETEX now key ttl (stringify v) redis).2 k Hk)
    as [Hd Hf].
  rewrite Hd, Hf. unfold Redis.SETEX, Redis.reach.
  destruct (Redis.fault redis) as [[m|]|] eqn:Ef;
    [split; [reflexivity|exact Ef] | |];
    (destruct (0 <? ttl); cbn [snd Redis.setData Redis.data Redis.fault];
     [split; [apply lookup_insert_ne; congruence | exact Ef]
     | split; [reflexivity | exact Ef]]).
Qed.

(** X23.  In Redis mode [mset] writes its entries under the names as
    given, without the cache prefix, while [get] reads under the prefixed
    name.  On a server that answers, [get] of a key therefore returns
    after an [mset] what it returned before, unless the prefixed name
    itself is among the names written; in particular a value written by
    [mset] under a key is not found by [get] of that key. *)
Theorem mset_in_redis_mode_is_not_seen_by_get
    (now : Z) (pairs : list (string * V)) (ttlSeconds : option Z)
    (s : cacheState) :
  isRedisAvailable s = true ->
  Redis.reachable (redis s) = true ->
  (forall key t,
      key <> "" ->
      keyPrefix +:+ sanitize key ∉ map fst pairs ->
      (get t (JString key) (mset now pairs ttlSeconds s).2).1
      = (get t (JString key) s).1)
  /\ (forall key v t,
         key <> "" ->
         (get t (JString key) (mset now [(key, v)] ttlSeconds s).2).1
         = (get t (JString key) s).1).
Proof.
  intros Hflag Hup.
  assert (Hmain : forall pairs key t,
             key <> "" ->
             keyPrefix +:+ sanitize key ∉ map fst pairs ->
             (get t (JString key) (mset now pairs ttlSeconds s).2).1
             = (get t (JString key) s).1).
  { intros ps key t Hne Hk.
    unfold CacheService.mset, msetRedis. rewrite Hflag.
    cbn [fst snd].
    unfold CacheService.get. rewrite (getPrefixedKey_string key Hne).
    unfold withRedis. cbn [isRedisAvailable redis]. rewrite Hflag.
    unfold getRedis, Redis.GET, Redis.reach, Redis.live.
    destruct (pipeline_setex_lookup now (default 300 ttlSeconds) ps
                (redis s) _ Hk) as [Hd Hf].
    rewrite Hd, Hf.
    destruct (Redis.fault (redis s)) as [[m|]|]; reflexivity. }
  split; [apply Hmain|].
  intros key v t Hne. apply Hmain; [exact Hne|].
  cbn [map fst]. intros Hin. apply list_elem_of_singleton in Hin.
  exact (prefixed_ne key Hin).
Qed.

End CacheRoundTrips.

Lemma memory_set_then_get_round_trip_witness :
  CacheService.get string textParse 1000 (CacheService.JString "a_b")
    (CacheService.set string textStringify lengthDigest connectedService
       (RedisPartitioningService.new lengthDigest) 0 0 (CacheService.JString "a b")
       "v" (Some 1) (CacheService.new Redis.empty)).2
  = (Ok (Some "v"),
     (CacheService.set string textStringify lengthDigest connectedService
        (RedisPartitioningService.new lengthDigest) 0 0 (CacheService.JString "a b")
        "v" (Some 1) (CacheService.new Redis.empty)).2).
Proof.
  destruct (memory_set_then_get_round_trip string textStringify textParse
              lengthDigest connectedService
              (RedisPartitioningService.new lengthDigest) 0 0 "a b" "v"
              (Some 1) (CacheService.new Redis.empty))
    as (s1 & Hset & Hget).
  - reflexivity.
  - discriminate.
  - rewrite Hset. cbn [snd].
    apply (Hget "a_b"); [discriminate | reflexivity | cbn; lia].
Defined.


Lemma redis_set_then_get_round_trip_witness :
  exists s1,
    CacheService.set string textStringify lengthDigest connectedService
      (RedisPartitioningService.new lengthDigest) 0 0 (CacheService.JString "k") "v"
      (Some 1) (CacheService.mk ∅ true Redis.empty)
    = (Ok tt, s1)
    /\ CacheService.cache s1 = ∅
    /\ forall t,
        (t < 1000 ->
         CacheService.get string textParse t (CacheService.JString "k") s1
         = (Ok (Some "v"), s1))
        /\ (1000 < t ->
            CacheService.get string textParse t (CacheService.JString "k") s1
            = (Ok None, s1)).
Proof.
  apply (redis_set_then_get_round_trip string textStringify textParse
           lengthDigest connectedService
           (RedisPartitioningService.new lengthDigest) 0 0 "k" "v" (Some 1)
           (CacheService.mk ∅ true Redis.empty)).
  - reflexivity.
  - reflexivity.
  - vm_compute. discriminate.
  - reflexivity.
  - discriminate.
  - reflexivity.
  - cbn. lia.
Defined.


Lemma mset_in_redis_mode_is_not_seen_by_get_witness :
  (CacheService.get string textParse 0 (CacheService.JString "k")
     (CacheService.mset string textStringify 0 [("k", "v")] None
        (CacheService.mk ∅ true Redis.empty)).2).1
  = (CacheService.get string textParse 0 (CacheService.JString "k")
       (CacheService.mk ∅ true Redis.empty)).1.
Proof.
  apply (proj2 (mset_in_redis_mode_is_not_seen_by_get string textStringify
                  textParse 0 [("k", "v")] None
                  (CacheService.mk ∅ true Redis.empty) eq_refl eq_refl)).
  discriminate.
Defined.

Section CacheInvalidation.

Variable V : Type.
Variable glob : string -> string -> bool.
Variable regExp : string -> result (string -> bool).

Import CacheService.

Local Abbreviation cacheState := (CacheService.t V).
Local Abbreviation clear := (CacheService.clear V glob).
Local Abbreviation invalidatePattern :=
  (CacheService.invalidatePattern V glob regExp).

Lemma safeChar_not_wildcard c : safeChar c = true -> Redis.wildcard c = false.
Proof.
  destruct c as [[] [] [] [] [] [] [] []]; vm_compute; intros H;
    first [reflexivity | discriminate H].
Qed.

Lemma literalPattern_sanitize key :
  Redis.literalPattern (sanitize key) = true.
Proof.
  induction key as [|c key IH]; [reflexivity|].
  cbn [sanitize Redis.literalPattern]. rewrite IH, andb_true_r.
  destruct (safeChar c) eqn:Hsafe.
  - rewrite (safeChar_not_wildcard c Hsafe). reflexivity.
  - reflexivity.
Qed.

Lemma literalPattern_prefixed key :
  Redis.literalPattern (keyPrefix +:+ sanitize key) = true.
Proof. exact (literalPattern_sanitize key). Qed.

Lemma invalidatePatternRedis_data now pattern redis k :
  k <> keyPrefix +:+ sanitize pattern ->
  Redis.data (invalidatePatternRedis glob now pattern redis).2 !! k
  = Redis.data redis !! k.
Proof.
  intros Hk. unfold invalidatePatternRedis, getPrefixedKey.
  destruct (String.eqb pattern ""); [reflexivity|].
  unfold Redis.KEYS, Redis.reach.
  set (keys := omap _ (map_to_list (Redis.data redis))).
  assert (Hkeys : k ∉ keys).
  { unfold keys. rewrite list_elem_of_omap. intros ([k' e] & _ & Hf).
    unfold Redis.keyMatches in Hf. rewrite literalPattern_prefixed in Hf.
    destruct (negb (Redis.expired now e)); [|discriminate Hf]. cbn [andb] in Hf.
    destruct (String.eqb_spec (keyPrefix +:+ sanitize pattern) k')
      as [Heq|_]; [|discriminate Hf].
    injection Hf as <-. congruence. }
  destruct (Redis.fault redis) as [[m|]|] eqn:Ef; [reflexivity| |];
    (destruct (0 <? length keys)%nat; [|reflexivity];
     unfold Redis.DEL_many, Redis.reach; rewrite Ef; cbn [snd];
     unfold Redis.setData; cbn [Redis.data];
     rewrite fold_delete_lookup;
     rewrite bool_decide_eq_false_2 by exact Hkeys; reflexivity).
Qed.

(** X24.  In Redis mode [clear] and [invalidatePattern] never throw
    and remove at most one key from the server: the pattern goes through
    the key sanitizer, which replaces the [*] by [_], so the server is
    asked for the one key of that name.  Every other entry, whatever its
    name, stays stored. *)
Theorem redis_mode_invalidation_removes_at_most_one_key
    (now : Z) (pattern : string) (s : cacheState) :
  isRedisAvailable s = true ->
  ((clear now s).1 = Ok tt
   /\ forall k,
       k <> "taskflow:cache:_" ->
       Redis.data (redis (clear now s).2) !! k = Redis.data (redis s) !! k)
  /\ ((invalidatePattern now pattern s).1 = Ok tt
      /\ forall k,
          k <> keyPrefix +:+ sanitize pattern ->
          Redis.data (redis (invalidatePattern now pattern s).2) !! k
          = Redis.data (redis s) !! k).
Proof.
  intros Hflag.
  assert (Hinv : forall pattern,
             (invalidatePattern now pattern s).1 = Ok tt
             /\ forall k,
                 k <> keyPrefix +:+ sanitize pattern ->
                 Redis.data (redis (invalidatePattern now pattern s).2) !! k
                 = Redis.data (redis s) !! k).
  { intros p. unfold CacheService.invalidatePattern. rewrite Hflag.
    pose proof (invalidatePatternRedis_data now p (redis s)) as Hdata.
    destruct (invalidatePatternRedis glob now p (redis s)) as [[u|e] r'];
      cbn [fst snd] in *; (split; [reflexivity|]); exact Hdata. }
  split; [|apply Hinv].
  assert (Hclear : clear now s = invalidatePattern now "*" s).
  { unfold CacheService.clear, CacheService.invalidatePattern.
    rewrite Hflag. reflexivity. }
  rewrite Hclear. exact (Hinv "*").
Qed.

End CacheInvalidation.

Lemma redis_mode_invalidation_removes_at_most_one_key_witness :
  Redis.data
    (CacheService.redis
       (CacheService.clear string (fun _ _ => true) 0
          (CacheService.mk ∅ true remoteOnly)).2) !! "taskflow:cache:k"
  = Redis.data remoteOnly !! "taskflow:cache:k".
Proof.
  refine (proj2 (proj1
            (redis_mode_invalidation_removes_at_most_one_key string
               (fun _ _ => true) (fun _ => Ok (fun _ => true)) 0 "*"
               (CacheService.mk ∅ true remoteOnly) eq_refl))
            "taskflow:cache:k" _).
  discriminate.
Defined.

Section RangeLookup.

Import RangeBasedStrategy.

Variable md5_prefix : string -> Z.

Lemma firstRangeOf_covered (p : Z) (ranges : list range) :
  (exists r, In r ranges /\ r_start r <= p <= r_end r) ->
  exists (before : list range) (chosen : range) (after : list range),
    ranges = before ++ chosen :: after
    /\ r_start chosen <= p <= r_end chosen
    /\ Forall (fun earlier => ~ (r_start earlier <= p <= r_end earlier)) before
    /\ firstRangeOf p ranges = Some chosen.
Proof.
  intros (r0 & Hin & Hr0). unfold firstRangeOf.
  induction ranges as [|r rs IH]; [destruct Hin|].
  cbn [List.find].
  destruct (Z.leb_spec (r_start r) p) as [Hs|Hs];
    [destruct (Z.leb_spec p (r_end r)) as [He|He]|]; cbn [andb].
  - exists [], r, rs. repeat split; auto; lia.
  - destruct Hin as [->|Hin]; [lia|].
    destruct (IH Hin) as (before & chosen & after & -> & Hr & Hb & Hf).
    exists (r :: before), chosen, after.
    split; [reflexivity|]. split; [exact Hr|].
    split; [constructor; [lia|exact Hb] | exact Hf].
  - destruct Hin as [->|Hin]; [lia|].
    destruct (IH Hin) as (before & chosen & after & -> & Hr & Hb & Hf).
    exists (r :: before), chosen, after.
    split; [reflexivity|]. split; [exact Hr|].
    split; [constructor; [lia|exact Hb] | exact Hf].
Qed.

(** X25.  With ranges that between them hold every partition from 0 to
    999, the range-based strategy assigns every key to a configured
    range: [getNodeForKey] returns the node of the first range in the list
    that holds the key's partition (the digest modulo 1000), never a
    fallback, and [getNodeForPartition] of that partition returns the same
    node whatever node list it is given. *)
Theorem covering_ranges_assign_every_key_to_a_range
    (ranges : list range) (key : string) (nodes : list string) :
  (forall k, 0 <= md5_prefix k) ->
  (forall p, 0 <= p < 1000 ->
     exists r, In r ranges /\ r_start r <= p <= r_end r) ->
  let partition := getPartition md5_prefix key 1000 in
  exists (before : list range) (chosen : range) (after : list range),
    ranges = before ++ chosen :: after
    /\ r_start chosen <= partition <= r_end chosen
    /\ Forall (fun earlier =>
                 ~ (r_start earlier <= partition <= r_end earlier)) before
    /\ getNodeForKey md5_prefix ranges key = r_node chosen
    /\ getNodeForPartition ranges partition nodes = Some (r_node chosen).
Proof.
  intros Hnn Hcover partition.
  assert (Hp : 0 <= partition < 1000).
  { unfold partition, getPartition, hash. apply Z.rem_bound_pos; [auto|lia]. }
  destruct (firstRangeOf_covered partition ranges (Hcover _ Hp))
    as (before & chosen & after & E & Hr & Hb & Hf).
  exists before, chosen, after.
  unfold getNodeForKey, getNodeForPartition. fold partition. rewrite Hf.
  auto.
Qed.

End RangeLookup.

Lemma covering_ranges_assign_every_key_to_a_range_witness :
  exists before range after,
    [RangeBasedStrategy.mkRange 0 499 "a"; RangeBasedStrategy.mkRange 500 999 "b"]
    = before ++ range :: after
    /\ RangeBasedStrategy.r_start range
       <= RangeBasedStrategy.getPartition lengthDigest "task:42" 1000
       <= RangeBasedStrategy.r_end range
    /\ Forall (fun earlier =>
                 ~ (RangeBasedStrategy.r_start earlier
                    <= RangeBasedStrategy.getPartition lengthDigest "task:42" 1000
                    <= RangeBasedStrategy.r_end earlier)) before
    /\ RangeBasedStrategy.getNodeForKey lengthDigest
         [RangeBasedStrategy.mkRange 0 499 "a";
          RangeBasedStrategy.mkRange 500 999 "b"] "task:42"
       = RangeBasedStrategy.r_node range
    /\ RangeBasedStrategy.getNodeForPartition
         [RangeBasedStrategy.mkRange 0 499 "a";
          RangeBasedStrategy.mkRange 500 999 "b"]
         (RangeBasedStrategy.getPartition lengthDigest "task:42" 1000) []
       = Some (RangeBasedStrategy.r_node range).
Proof.
  apply (covering_ranges_assign_every_key_to_a_range lengthDigest
           [RangeBasedStrategy.mkRange 0 499 "a";
            RangeBasedStrategy.mkRange 500 999 "b"] "task:42" []).
  - intros k. unfold lengthDigest. lia.
  - intros p Hp. destruct (Z.le_gt_cases p 499).
    + exists (RangeBasedStrategy.mkRange 0 499 "a"). cbn. split; [auto|lia].
    + exists (RangeBasedStrategy.mkRange 500 999 "b"). cbn. split; [auto|lia].
Defined.

Section HttpRetries.

Import HttpClientService.

Variable fetch : Z -> fetchResult.
Variable maxRetries backoff : Z.

Lemma attempts_catch rounds attempt lastError fetched delays error :
  attempt <= maxRetries ->
  errorOf (fetch attempt) = Some error ->
  attempts fetch maxRetries backoff (S rounds) attempt lastError fetched delays
  = attempts fetch maxRetries backoff rounds (attempt + 1) (Some error)
      (fetched ++ [attempt])
      (if attempt <? maxRetries then delays ++ [backoff * attempt]
       else delays).
Proof.
  intros Hle Herr. cbn [attempts].
  destruct (Z.leb_spec attempt maxRetries); [|lia].
  unfold errorOf in Herr.
  destruct (fetch attempt) as [status|e].
  - destruct (ok status); [discriminate Herr|].
    injection Herr as <-. reflexivity.
  - injection Herr as <-. reflexivity.
Qed.

Lemma attempts_all_fail (n : nat) :
  forall attempt lastError fetched delays,
    attempt + Z.of_nat n = maxRetries + 1 ->
    (forall i, attempt <= i <= maxRetries -> is_Some (errorOf (fetch i))) ->
    attempts fetch maxRetries backoff n attempt lastError fetched delays
    = mkOutcome
        (Threw (match n with O => lastError | S _ => errorOf (fetch maxRetries) end))
        (fetched ++ seqZ attempt (Z.of_nat n))
        (delays ++ ((fun i => backoff * i) <$> seqZ attempt (Z.of_nat n - 1))).
Proof.
  induction n as [|n IH]; intros attempt lastError fetched delays Hn Hfail.
  - cbn [attempts]. rewrite !seqZ_nil by lia. cbn [fmap list_fmap].
    rewrite !app_nil_r. reflexivity.
  - destruct (Hfail attempt ltac:(lia)) as [error Herr].
    rewrite (attempts_catch n attempt lastError fetched delays error
               ltac:(lia) Herr).
    rewrite IH by (try lia; intros i Hi; apply Hfail; lia).
    rewrite (seqZ_cons attempt (Z.of_nat (S n))) by lia.
    replace (Z.pred (Z.of_nat (S n))) with (Z.of_nat n) by lia.
    replace (Z.succ attempt) with (attempt + 1) by lia.
    rewrite <- app_assoc. cbn [app].
    destruct n as [|n].
    + assert (attempt = maxRetries) by lia. subst attempt.
      destruct (Z.ltb_spec maxRetries maxRetries); [lia|].
      rewrite Herr. rewrite !seqZ_nil by lia. reflexivity.
    + destruct (Z.ltb_spec attempt maxRetries); [|lia].
      rewrite (seqZ_cons attempt (Z.of_nat (S (S n)) - 1)) by lia.
      replace (Z.pred (Z.of_nat (S (S n)) - 1)) with (Z.of_nat (S n) - 1)
        by lia.
      replace (Z.succ attempt) with (attempt + 1) by lia.
      cbn [fmap list_fmap]. rewrite <- app_assoc. reflexivity.
Qed.

Lemma attempts_succeed (m : nat) :
  forall (rounds : nat) attempt lastError fetched delays status,
    (m < rounds)%nat ->
    attempt + Z.of_nat m <= maxRetries ->
    (forall i, attempt <= i < attempt + Z.of_nat m ->
       is_Some (errorOf (fetch i))) ->
    fetch (attempt + Z.of_nat m) = Response status ->
    ok status = true ->
    attempts fetch maxRetries backoff rounds attempt lastError fetched delays
    = mkOutcome (Returned status)
        (fetched ++ seqZ attempt (Z.of_nat m + 1))
        (delays ++ ((fun i => backoff * i) <$> seqZ attempt (Z.of_nat m))).
Proof.
  induction m as [|m IH];
    intros rounds attempt lastError fetched delays status Hm Hle Hfail Hk Hok;
    (destruct rounds as [|rounds]; [lia|]).
  - replace (attempt + Z.of_nat 0) with attempt in Hk by lia.
    cbn [attempts]. destruct (Z.leb_spec attempt maxRetries); [|lia].
    rewrite Hk, Hok. change (Z.of_nat 0 + 1) with 1.
    change (Z.of_nat 0) with 0.
    rewrite app_nil_r. reflexivity.
  - destruct (Hfail attempt ltac:(lia)) as [error Herr].
    rewrite (attempts_catch rounds attempt lastError fetched delays error
               ltac:(lia) Herr).
    destruct (Z.ltb_spec attempt maxRetries); [|lia].
    rewrite (IH rounds (attempt + 1) _ _ _ status);
      [ | lia | lia | intros i Hi; apply Hfail; lia
        | rewrite <- Hk; f_equal; lia | exact Hok ].
    rewrite (seqZ_cons attempt (Z.of_nat (S m) + 1)) by lia.
    rewrite (seqZ_cons attempt (Z.of_nat (S m))) by lia.
    replace (Z.pred (Z.of_nat (S m) + 1)) with (Z.of_nat m + 1) by lia.
    replace (Z.pred (Z.of_nat (S m))) with (Z.of_nat m) by lia.
    replace (Z.succ attempt) with (attempt + 1) by lia.
    cbn [fmap list_fmap]. rewrite <- !app_assoc. reflexivity.
Qed.

End HttpRetries.

(** X26.  [request] refuses without calling [fetch] while the Redis
    circuit breaker is open.  Otherwise it calls [fetch] for attempts 1,
    2, ... until one answers with a 2xx status, at most [retries] times,
    sleeping [backoffMs * attempt] after each failed attempt but the last
    allowed one: it returns the first good response, and when every
    attempt fails it throws the error of the last.  With [retries] at 0 or
    below it makes no attempt and throws [undefined]. *)
Theorem request_retries_with_linear_backoff
    (conn : RedisConnectionService.t)
    (fetch : Z -> HttpClientService.fetchResult)
    (options : HttpClientService.HttpRequestOptions) :
  let maxRetries := default 3 (HttpClientService.retries options) in
  let backoff := default 500 (HttpClientService.backoffMs options) in
  let request := HttpClientService.request conn fetch options in
  let failed i := is_Some (HttpClientService.errorOf (fetch i)) in
  (RedisConnectionService.isCircuitBreakerOpen conn = true ->
   request
   = HttpClientService.mkOutcome
       (HttpClientService.Threw
          (Some (Error "Circuit breaker open - refusing external request")))
       [] [])
  /\ (RedisConnectionService.isCircuitBreakerOpen conn = false ->
      (maxRetries <= 0 ->
       request
       = HttpClientService.mkOutcome (HttpClientService.Threw None) [] [])
      /\ (forall k status,
             1 <= k <= maxRetries ->
             (forall i, 1 <= i < k -> failed i) ->
             fetch k = HttpClientService.Response status ->
             HttpClientService.ok status = true ->
             request
             = HttpClientService.mkOutcome (HttpClientService.Returned status)
                 (seqZ 1 k)
                 ((fun i => backoff * i) <$> seqZ 1 (k - 1)))
      /\ (1 <= maxRetries ->
          (forall i, 1 <= i <= maxRetries -> failed i) ->
          request
          = HttpClientService.mkOutcome
              (HttpClientService.Threw
                 (HttpClientService.errorOf (fetch maxRetries)))
              (seqZ 1 maxRetries)
              ((fun i => backoff * i) <$> seqZ 1 (maxRetries - 1)))).
Proof.
  intros maxRetries backoff request failed.
  unfold request, HttpClientService.request. fold maxRetries backoff.
  split; [intros ->; reflexivity|].
  intros ->. split; [|split].
  - intros Hle. replace (Z.to_nat maxRetries) with 0%nat by lia. reflexivity.
  - intros k status Hk Hfail Hresp Hok.
    rewrite (attempts_succeed fetch maxRetries backoff (Z.to_nat (k - 1))
               (Z.to_nat maxRetries) 1 None [] [] status);
      [ | lia | lia | intros i Hi; apply Hfail; lia
        | rewrite <- Hresp; f_equal; lia | exact Hok ].
    cbn [app]. do 3 f_equal; lia.
  - intros Hpos Hfail.
    rewrite (attempts_all_fail fetch maxRetries backoff (Z.to_nat maxRetries)
               1 None [] []);
      [ | lia | intros i Hi; apply Hfail; lia ].
    cbn [app]. destruct (Z.to_nat maxRetries) as [|n] eqn:En; [lia|].
    rewrite <- En. do 3 f_equal; lia.
Qed.

Lemma request_retries_with_linear_backoff_witness :
  HttpClientService.request connectedService
    (fun attempt =>
       if attempt <? 3 then HttpClientService.Response 503
       else HttpClientService.Response 200)
    (HttpClientService.mkOptions None None)
  = HttpClientService.mkOutcome (HttpClientService.Returned 200)
      [1; 2; 3] [500; 1000].
Proof.
  refine (proj1 (proj2 (proj2 (request_retries_with_linear_backoff
            connectedService _ (HttpClientService.mkOptions None None)) _))
            3 200 _ _ _ _).
  - reflexivity.
  - cbn. lia.
  - intros i Hi. destruct (Z.ltb_spec i 3) as [_|Hge]; [|lia].
    cbn. eauto.
  - reflexivity.
  - reflexivity.
Defined.

Section MetricsBuffer.

Import PerformanceMonitorService.

Lemma recordAll_from (recorded : list PerformanceMetrics) :
  forall metrics,
    (length metrics <= maxMetrics)%nat ->
    recordAll recorded metrics
    = drop (length (metrics ++ recorded) - maxMetrics) (metrics ++ recorded).
Proof.
  unfold recordAll, recordMetric, maxMetrics.
  induction recorded as [|m recorded IH]; intros metrics Hlen.
  - cbn [fold_left]. rewrite app_nil_r.
    replace (length metrics - 1000)%nat with 0%nat by lia. reflexivity.
  - cbn [fold_left].
    destruct (Nat.ltb_spec 1000 (length (metrics ++ [m]))) as [Hfull|Hroom].
    + rewrite length_app in Hfull. cbn [length] in Hfull.
      destruct metrics as [|x metrics]; [cbn [length] in Hfull; lia|].
      cbn [app tail]. cbn [length] in Hlen, Hfull.
      rewrite IH by (rewrite length_app; cbn [length]; lia).
      rewrite <- app_assoc. cbn [app length].
      replace (S (length (metrics ++ m :: recorded)) - 1000)%nat
        with (S (length (metrics ++ m :: recorded) - 1000))
        by (rewrite length_app; cbn [length]; lia).
      reflexivity.
    + rewrite IH by exact Hroom.
      rewrite <- app_assoc. reflexivity.
Qed.

(** X27.  The monitor keeps the most recent 1000 metrics: after any
    number of recordings the buffer holds the last 1000 of them in order,
    the older ones are gone.  [getRecentMetrics(limit)] with a limit of at
    least 1 returns the last [limit] of the kept metrics (all of them
    when there are fewer), while [getRecentMetrics(0)] returns every kept
    metric and not an empty list. *)
Theorem buffer_keeps_the_last_thousand_metrics
    (recorded : list PerformanceMetrics) :
  let kept := recordAll recorded [] in
  kept = drop (length recorded - 1000) recorded
  /\ (length kept <= 1000)%nat
  /\ (forall limit,
         1 <= limit ->
         getRecentMetrics (Some limit) kept
         = drop (length kept - Z.to_nat limit) kept)
  /\ getRecentMetrics (Some 0) kept = kept
  /\ getRecentMetrics None kept = drop (length kept - 50) kept.
Proof.
  intros kept.
  assert (Hkept : kept = drop (length recorded - 1000) recorded).
  { unfold kept. rewrite recordAll_from by (unfold maxMetrics; cbn; lia).
    reflexivity. }
  assert (Hrecent : forall limit,
             1 <= limit ->
             getRecentMetrics (Some limit) kept
             = drop (length kept - Z.to_nat limit) kept).
  { intros limit Hlimit. unfold getRecentMetrics, slice.
    change (default 50 (Some limit)) with limit.
    destruct (Z.ltb_spec (- limit) 0); [|lia]. f_equal.
    generalize (length kept). intros n. lia. }
  split; [exact Hkept|]. split; [|split; [exact Hrecent|split]].
  - rewrite Hkept, length_drop. lia.
  - unfold getRecentMetrics, slice.
    change (- default 50 (Some 0)) with 0. destruct (Z.ltb_spec 0 0); [lia|].
    replace (Z.to_nat (Z.min 0 (Z.of_nat (length kept)))) with 0%nat by lia.
    reflexivity.
  - apply (Hrecent 50). lia.
Qed.

Lemma buffer_keeps_the_last_thousand_metrics_witness :
  getRecentMetrics (Some 1)
    (recordAll [mkMetric "a" 1 0 true None; mkMetric "b" 2 1 true None] [])
  = drop (length (recordAll [mkMetric "a" 1 0 true None;
                             mkMetric "b" 2 1 true None] [])
          - Z.to_nat 1)
      (recordAll [mkMetric "a" 1 0 true None; mkMetric "b" 2 1 true None] []).
Proof.
  apply (proj1 (proj2 (proj2 (buffer_keeps_the_last_thousand_metrics
           [mkMetric "a" 1 0 true None; mkMetric "b" 2 1 true None]))) 1).
  lia.
Defined.

End MetricsBuffer.


Lemma reconnection_backoff_is_exponential_and_bounded_witness :
  RedisConnectionService.timers
    (RedisConnectionService.step RedisConnectionService.initial
       RedisConnectionService.Close)
  = RedisConnectionService.timers RedisConnectionService.initial
    ++ [(RedisConnectionService.clock RedisConnectionService.initial
         + 1000 * 2 ^ 0,
         RedisConnectionService.ReconnectAttempt)].
Proof.
  refine (proj2 (proj2 (proj2 (proj2
            (reconnection_backoff_is_exponential_and_bounded []))) _ _)).
  - reflexivity.
  - cbn. lia.
Defined.
